(** * GLIM global mapping back end: a shallow embedding of
      [src/glim/mapping/global_mapping.cpp] and the properties of its
      façade ([insert_submap], [find_overlapping_submaps], [optimize],
      [load], [recover_graph], [export_points]).

    Conventions of the embedding.
    - A C++ [double] is a rational ([Q]); comparisons are the exact ones.
      The one quotient whose divisor can be zero, in the adaptive voxel
      resolution, is treated as the doubles treat it ([clamped_ratio]).
    - A C++ [int] and the index of a [gtsam::Symbol] are integers ([Z]);
      where a 64-bit index is stored in an [int] it wraps around
      ([to_int]).
    - [std::vector] is [list]; an access outside the vector, and [front()]
      or [back()] of an empty vector, is the outcome [Undefined].
    - A call that can throw, terminate the process or hit undefined
      behaviour returns an [Outcome]; state is passed explicitly.  The one
      recursive function of the source takes a recursion budget and
      answers [OutOfFuel] when it is used up.
    - What the file calls and does not define (the incremental solver,
      point-cloud sampling, overlap evaluation, the scratch optimisation of
      the between-factor, IMU preintegration) are the methods of the class
      [Collaborators]; a dump directory is the argument of [load]. *)

From Stdlib Require Import ZArith QArith Qminmax List Bool Ascii String Lia.
From Stdlib Require Import DecimalString DecimalN Permutation.
Import ListNotations.
Local Open Scope Z_scope.

Set Implicit Arguments.

(** ** Keys *)

Module Symbol.

(** [gtsam::Symbol]: a character and an index.  [gtsam::Key] is its packed
    64-bit form; the key [0] is the symbol with character NUL and index 0. *)
Record t : Type := make { chr : ascii; index : Z }.

Definition eqb (a b : t) : bool :=
  Ascii.eqb (chr a) (chr b) && (index a =? index b).

(** The null key, [gtsam::Key(0)]. *)
Definition null : t := make zero 0.

Definition is_null (k : t) : bool := eqb k null.

End Symbol.

Definition Key : Type := Symbol.t.

(** [gtsam::symbol_shorthand]. *)
Definition X (j : Z) : Key := Symbol.make "x" j.
Definition E (j : Z) : Key := Symbol.make "e" j.
Definition V (j : Z) : Key := Symbol.make "v" j.
Definition B (j : Z) : Key := Symbol.make "b" j.

Definition chr_is (c : ascii) (k : Key) : bool := Ascii.eqb (Symbol.chr k) c.

(** ** Outcomes of a call *)

Inductive Exception : Type :=
| IndeterminantLinearSystemException (nearbyVariable : Key)
| ValuesKeyDoesNotExist (k : Key)
| ValuesKeyAlreadyExists (k : Key)
| ValuesIncorrectType (k : Key)
| ArchiveException
| StdException.

Inductive Outcome (A : Type) : Type :=
| Returned (a : A)
| Thrown (e : Exception)
| Exited (status : Z)
| Undefined
| OutOfFuel.

Arguments Returned {A} a.
Arguments Thrown {A} e.
Arguments Exited {A} status.
Arguments Undefined {A}.
Arguments OutOfFuel {A}.

Definition bind {A B : Type} (m : Outcome A) (f : A -> Outcome B) : Outcome B :=
  match m with
  | Returned a => f a
  | Thrown e => Thrown e
  | Exited s => Exited s
  | Undefined => Undefined
  | OutOfFuel => OutOfFuel
  end.

Declare Scope outcome_scope.
Delimit Scope outcome_scope with outcome.
Notation "x <- m ;; k" := (bind m (fun x => k))
  (at level 61, m at next level, right associativity) : outcome_scope.
Notation "' p <- m ;; k" := (bind m (fun x => let p := x in k))
  (at level 61, p pattern, m at next level, right associativity) : outcome_scope.
Local Open Scope outcome_scope.

(** [v[i]] for an [int] index. *)
Definition at_index {A : Type} (v : list A) (i : Z) : Outcome A :=
  if i <? 0 then Undefined
  else match nth_error v (Z.to_nat i) with
       | Some a => Returned a
       | None => Undefined
       end.

(** [v.front()] and [v.back()]. *)
Definition front {A : Type} (v : list A) : Outcome A :=
  match v with
  | [] => Undefined
  | a :: _ => Returned a
  end.

Fixpoint back {A : Type} (v : list A) : Outcome A :=
  match v with
  | [] => Undefined
  | [a] => Returned a
  | _ :: v' => back v'
  end.

(** [v.size()] converted to [int]. *)
Definition size {A : Type} (v : list A) : Z := Z.of_nat (List.length v).

(** ** Numbers and rigid transforms *)

Definition double := Q.

Definition Qltb (a b : double) : bool := negb (Qle_bool b a).
Definition Qgtb (a b : double) : bool := Qltb b a.

(** [std::max(a, b)] is [(a < b) ? b : a]; [std::min(a, b)] is [(b < a) ? b : a]. *)
Definition std_max (a b : double) : double := if Qltb a b then b else a.
Definition std_min (a b : double) : double := if Qltb b a then b else a.

Record Vector3d : Type := vec3 { v3x : double; v3y : double; v3z : double }.
Record Vector4d : Type := vec4 { v4x : double; v4y : double; v4z : double; v4w : double }.
Record Matrix3d : Type := mat3 { row0 : Vector3d; row1 : Vector3d; row2 : Vector3d }.

Definition dot3 (a b : Vector3d) : double :=
  (v3x a * v3x b + v3y a * v3y b + v3z a * v3z b)%Q.
Definition add3 (a b : Vector3d) : Vector3d :=
  vec3 (v3x a + v3x b)%Q (v3y a + v3y b)%Q (v3z a + v3z b)%Q.
Definition sub3 (a b : Vector3d) : Vector3d :=
  vec3 (v3x a - v3x b)%Q (v3y a - v3y b)%Q (v3z a - v3z b)%Q.
Definition neg3 (a : Vector3d) : Vector3d := vec3 (- v3x a)%Q (- v3y a)%Q (- v3z a)%Q.
Definition zero3 : Vector3d := vec3 0%Q 0%Q 0%Q.

Definition col0 (m : Matrix3d) := vec3 (v3x (row0 m)) (v3x (row1 m)) (v3x (row2 m)).
Definition col1 (m : Matrix3d) := vec3 (v3y (row0 m)) (v3y (row1 m)) (v3y (row2 m)).
Definition col2 (m : Matrix3d) := vec3 (v3z (row0 m)) (v3z (row1 m)) (v3z (row2 m)).

Definition transpose (m : Matrix3d) : Matrix3d := mat3 (col0 m) (col1 m) (col2 m).
Definition mat_vec (m : Matrix3d) (v : Vector3d) : Vector3d :=
  vec3 (dot3 (row0 m) v) (dot3 (row1 m) v) (dot3 (row2 m) v).
Definition mat_mul (a b : Matrix3d) : Matrix3d :=
  let r (x : Vector3d) := vec3 (dot3 x (col0 b)) (dot3 x (col1 b)) (dot3 x (col2 b)) in
  mat3 (r (row0 a)) (r (row1 a)) (r (row2 a)).
Definition mat_id : Matrix3d :=
  mat3 (vec3 1%Q 0%Q 0%Q) (vec3 0%Q 1%Q 0%Q) (vec3 0%Q 0%Q 1%Q).

(** [Eigen::Isometry3d]: a rotation block and a translation.  [gtsam::Pose3]
    is built from, and converted back to, the same 4x4 matrix, so the two
    types are identified. *)
Record Isometry3d : Type := iso { linear : Matrix3d; translation : Vector3d }.
Definition Pose3 : Type := Isometry3d.

Definition iso_identity : Isometry3d := iso mat_id zero3.

(** [a * b]. *)
Definition iso_mul (a b : Isometry3d) : Isometry3d :=
  iso (mat_mul (linear a) (linear b))
      (add3 (mat_vec (linear a) (translation b)) (translation a)).

(** [a.inverse()] in [Eigen::Isometry] mode: the rotation block is transposed. *)
Definition iso_inverse (a : Isometry3d) : Isometry3d :=
  iso (transpose (linear a)) (neg3 (mat_vec (transpose (linear a)) (translation a))).


(** [v.norm() > d], decided without the square root. *)
Definition norm_gt (v : Vector3d) (d : double) : bool :=
  Qltb d 0%Q || Qltb (d * d)%Q (dot3 v v).

(** [m.inverse()] of a 3x3 block: adjugate over determinant. *)
Definition det3 (m : Matrix3d) : double :=
  let a := row0 m in let b := row1 m in let c := row2 m in
  (v3x a * (v3y b * v3z c - v3z b * v3y c)
   - v3y a * (v3x b * v3z c - v3z b * v3x c)
   + v3z a * (v3x b * v3y c - v3y b * v3x c))%Q.

Definition mat_inverse (m : Matrix3d) : Matrix3d :=
  let a := row0 m in let b := row1 m in let c := row2 m in
  let d := det3 m in
  mat3 (vec3 ((v3y b * v3z c - v3z b * v3y c) / d)%Q
             ((v3z a * v3y c - v3y a * v3z c) / d)%Q
             ((v3y a * v3z b - v3z a * v3y b) / d)%Q)
       (vec3 ((v3z b * v3x c - v3x b * v3z c) / d)%Q
             ((v3x a * v3z c - v3z a * v3x c) / d)%Q
             ((v3z a * v3x b - v3x a * v3z b) / d)%Q)
       (vec3 ((v3x b * v3y c - v3y b * v3x c) / d)%Q
             ((v3y a * v3x c - v3x a * v3y c) / d)%Q
             ((v3x a * v3y b - v3y a * v3x b) / d)%Q).

Definition Matrix6d : Type := list (list double).

(** [H + s * Matrix6::Identity()]. *)
Definition add_ridge (s : double) (H : Matrix6d) : Matrix6d :=
  map (fun ir : nat * list double =>
         map (fun jx : nat * double =>
                if Nat.eqb (fst ir) (fst jx) then (snd jx + s)%Q else snd jx)
             (combine (seq 0 (List.length (snd ir))) (snd ir)))
      (combine (seq 0 (List.length H)) H).

(** ** Point clouds, voxel maps, frames and submaps *)

Record PointCloud : Type := mkPointCloud {
  points : list Vector4d;
  points_gpu : bool
}.

(** [gtsam_points::PointCloudGPU::clone]. *)
Definition PointCloudGPU_clone (c : PointCloud) : PointCloud :=
  mkPointCloud (points c) true.

Inductive Device : Type := CPU | GPU.

(** A Gaussian voxel map: where it lives, its resolution and the points
    that were inserted into it. *)
Record GaussianVoxelMap : Type := mkVoxelMap {
  vm_device : Device;
  vm_resolution : double;
  vm_inserted : list Vector4d
}.

Record ConstantBias : Type := mkBias { bias_acc : Vector3d; bias_gyro : Vector3d }.
Definition ConstantBias_zero : ConstantBias := mkBias zero3 zero3.

(** The fields of [EstimationFrame] that the back end reads;
    [T_world_sensor] is the value of the accessor of that name. *)
Record EstimationFrame : Type := mkFrame {
  stamp : double;
  T_world_sensor : Isometry3d;
  v_world_imu : Vector3d;
  imu_bias : ConstantBias
}.

Record SubMap : Type := mkSubMap {
  id : Z;
  T_world_origin : Isometry3d;
  T_origin_endpoint_L : Isometry3d;
  T_origin_endpoint_R : Isometry3d;
  merged_keyframe : PointCloud;
  voxelmaps : list GaussianVoxelMap;
  optim_odom_frames : list EstimationFrame;
  origin_odom_frames : list EstimationFrame
}.

Definition set_T_world_origin (T : Isometry3d) (s : SubMap) : SubMap :=
  mkSubMap (id s) T (T_origin_endpoint_L s) (T_origin_endpoint_R s)
           (merged_keyframe s) (voxelmaps s) (optim_odom_frames s) (origin_odom_frames s).
Definition set_merged_keyframe (c : PointCloud) (s : SubMap) : SubMap :=
  mkSubMap (id s) (T_world_origin s) (T_origin_endpoint_L s) (T_origin_endpoint_R s)
           c (voxelmaps s) (optim_odom_frames s) (origin_odom_frames s).
Definition set_voxelmaps (v : list GaussianVoxelMap) (s : SubMap) : SubMap :=
  mkSubMap (id s) (T_world_origin s) (T_origin_endpoint_L s) (T_origin_endpoint_R s)
           (merged_keyframe s) v (optim_odom_frames s) (origin_odom_frames s).

(** [SubMap::origin_odom_frame()]: note the size of [optim_odom_frames]. *)
Definition origin_odom_frame (s : SubMap) : Outcome EstimationFrame :=
  at_index (origin_odom_frames s) (size (optim_odom_frames s) / 2).

(** ** Factors, graphs and values *)

Inductive NoiseModel : Type :=
| Isotropic_Precision (dim : Z) (precision : double)
| Gaussian_Information (H : Matrix6d).

Record PreintegratedImuMeasurements : Type := mkPIM {
  deltaTij : double;
  deltaPij : Vector3d;
  deltaVij : Vector3d;
  deltaRij : Matrix3d
}.

Inductive Factor : Type :=
| LinearDampingFactor (k : Key) (dim : Z) (scale : double)
| BetweenFactor_Pose3 (k1 k2 : Key) (measured : Pose3) (noise : NoiseModel)
| BetweenFactor_Vector3 (k1 k2 : Key) (measured : Vector3d) (noise : NoiseModel)
| BetweenFactor_ConstantBias (k1 k2 : Key) (measured : ConstantBias) (noise : NoiseModel)
| PriorFactor_Pose3 (k : Key) (prior : Pose3) (noise : NoiseModel)
| PriorFactor_ConstantBias (k : Key) (prior : ConstantBias) (noise : NoiseModel)
| RotateVector3Factor (k1 k2 : Key) (v : Vector3d) (noise : NoiseModel)
| ImuFactor (pose_i vel_i pose_j vel_j bias : Key) (pim : PreintegratedImuMeasurements)
| IntegratedGICPFactor (k1 k2 : Key) (target source : PointCloud)
| IntegratedVGICPFactor (k1 k2 : Key) (target : GaussianVoxelMap) (source : PointCloud)
| IntegratedVGICPFactorGPU (k1 k2 : Key) (target : GaussianVoxelMap) (source : PointCloud).

(** [factor->keys()]. *)
Definition keys (f : Factor) : list Key :=
  match f with
  | LinearDampingFactor k _ _ => [k]
  | BetweenFactor_Pose3 k1 k2 _ _ => [k1; k2]
  | BetweenFactor_Vector3 k1 k2 _ _ => [k1; k2]
  | BetweenFactor_ConstantBias k1 k2 _ _ => [k1; k2]
  | PriorFactor_Pose3 k _ _ => [k]
  | PriorFactor_ConstantBias k _ _ => [k]
  | RotateVector3Factor k1 k2 _ _ => [k1; k2]
  | ImuFactor e1 v1 e2 v2 b _ => [e1; v1; e2; v2; b]
  | IntegratedGICPFactor k1 k2 _ _ => [k1; k2]
  | IntegratedVGICPFactor k1 k2 _ _ => [k1; k2]
  | IntegratedVGICPFactorGPU k1 k2 _ _ => [k1; k2]
  end.

Definition is_LinearDampingFactor (f : Factor) : bool :=
  match f with LinearDampingFactor _ _ _ => true | _ => false end.
Definition is_ImuFactor (f : Factor) : bool :=
  match f with ImuFactor _ _ _ _ _ _ => true | _ => false end.
Definition is_BetweenFactor_Pose3 (f : Factor) : bool :=
  match f with BetweenFactor_Pose3 _ _ _ _ => true | _ => false end.

(** [gtsam::NonlinearFactorGraph]: a vector of shared pointers; [None] is
    the null pointer. *)
Definition NonlinearFactorGraph : Type := list (option Factor).

Definition emplace_shared (f : Factor) (g : NonlinearFactorGraph) : NonlinearFactorGraph :=
  g ++ [Some f].
Definition graph_add (extra g : NonlinearFactorGraph) : NonlinearFactorGraph :=
  g ++ extra.

Inductive Value : Type :=
| Value_Pose3 (T : Pose3)
| Value_Vector3 (v : Vector3d)
| Value_ConstantBias (b : ConstantBias).

Inductive ValueKind : Type := Kind_Pose3 | Kind_Vector3 | Kind_ConstantBias.

Definition kind_of (v : Value) : ValueKind :=
  match v with
  | Value_Pose3 _ => Kind_Pose3
  | Value_Vector3 _ => Kind_Vector3
  | Value_ConstantBias _ => Kind_ConstantBias
  end.

(** [gtsam::Values] as an association list with at most one entry per key. *)
Definition Values : Type := list (Key * Value).

Fixpoint lookup (vs : Values) (k : Key) : option Value :=
  match vs with
  | [] => None
  | (k', v) :: vs' => if Symbol.eqb k' k then Some v else lookup vs' k
  end.

Definition values_exists (vs : Values) (k : Key) : bool :=
  match lookup vs k with Some _ => true | None => false end.

Definition kind_at (vs : Values) (k : Key) : option ValueKind :=
  option_map kind_of (lookup vs k).

(** [values.insert(k, v)] throws when the key is taken. *)
Definition values_insert (k : Key) (v : Value) (vs : Values) : Outcome Values :=
  if values_exists vs k then Thrown (ValuesKeyAlreadyExists k)
  else Returned (vs ++ [(k, v)]).

(** [values.at<Pose3>(k)]. *)
Definition at_Pose3 (vs : Values) (k : Key) : Outcome Pose3 :=
  match lookup vs k with
  | None => Thrown (ValuesKeyDoesNotExist k)
  | Some (Value_Pose3 T) => Returned T
  | Some _ => Thrown (ValuesIncorrectType k)
  end.

(** [values.insert_or_assign(k, v)] and its overload on a whole [Values]. *)
Fixpoint insert_or_assign1 (k : Key) (v : Value) (vs : Values) : Values :=
  match vs with
  | [] => [(k, v)]
  | (k', v') :: vs' =>
      if Symbol.eqb k' k then (k', v) :: vs' else (k', v') :: insert_or_assign1 k v vs'
  end.

Definition insert_or_assign (extra vs : Values) : Values :=
  fold_left (fun acc kv => insert_or_assign1 (fst kv) (snd kv) acc) extra vs.

Definition values_keys (vs : Values) : list Key := map fst vs.

(** ** Configuration *)

Record GlobalMappingParams : Type := mkParams {
  enable_gpu : bool;
  enable_imu : bool;
  enable_optimization : bool;
  enable_between_factors : bool;
  between_registration_type : string;
  registration_error_factor_type : string;
  submap_voxel_resolution : double;
  submap_voxel_resolution_max : double;
  submap_voxel_resolution_dmin : double;
  submap_voxel_resolution_dmax : double;
  submap_voxelmap_levels : Z;
  submap_voxelmap_scaling_factor : double;
  randomsampling_rate : double;
  max_implicit_loop_distance : double;
  min_implicit_loop_overlap : double;
  use_isam2_dogleg : bool;
  isam2_relinearize_skip : double;
  isam2_relinearize_thresh : double;
  init_pose_damping_scale : double
}.

Record ISAM2Params : Type := mkISAM2Params {
  optimizationParams_dogleg : bool;
  relinearizeSkip : double;
  relinearizeThreshold : double
}.

(** The solver parameters built in the constructor and again in
    [update_isam2]. *)
Definition make_isam2_params (params : GlobalMappingParams) : ISAM2Params :=
  mkISAM2Params (use_isam2_dogleg params) (isam2_relinearize_skip params)
                (isam2_relinearize_thresh params).

Record ISAM2ResultExt : Type := mkResult {
  variablesRelinearized : Z;
  variablesReeliminated : Z
}.

(** A default-constructed result. *)
Definition empty_result : ISAM2ResultExt := mkResult 0 0.

(** ** External collaborators *)

(** What [isam2->update] does: it returns a result, or throws and leaves the
    solver in some state. *)
Inductive UpdateOutcome (ISAM2 : Type) : Type :=
| Updated (s : ISAM2) (result : ISAM2ResultExt)
| UpdateThrows (s : ISAM2) (e : Exception).

Arguments Updated {ISAM2} s result.
Arguments UpdateThrows {ISAM2} s e.

Definition mt19937 : Type := N.

Class Collaborators (ISAM2 IMUIntegration : Type) : Type := {
  (** build option *)
  GTSAM_POINTS_USE_CUDA : bool;
  (** gtsam_points *)
  median_distance : PointCloud -> Z -> double;
  random_sampling : PointCloud -> double -> mt19937 -> PointCloud * mt19937;
  overlap_auto : GaussianVoxelMap -> PointCloud -> Isometry3d -> double;
  (** [LevenbergMarquardtOptimizerExt] on the two-pose scratch graph of
      [create_between_factors]: the optimised [X(1)] and the [X(1)] block of
      the GICP factor's Hessian there. *)
  optimize_gicp : PointCloud -> PointCloud -> Pose3 -> Pose3 * Matrix6d;
  (** [ISAM2Ext] when the flag is [true], [ISAM2ExtDummy] otherwise *)
  isam2_new : bool -> ISAM2Params -> ISAM2;
  isam2_update : ISAM2 -> NonlinearFactorGraph -> Values -> UpdateOutcome ISAM2;
  getFactorsUnsafe : ISAM2 -> NonlinearFactorGraph;
  getLinearizationPoint : ISAM2 -> Values;
  calculateEstimate : ISAM2 -> Values;
  isam2_empty : ISAM2 -> bool;
  (** [IMUIntegration] *)
  imu_insert_imu : IMUIntegration -> double -> Vector3d -> Vector3d -> IMUIntegration;
  (** returns the read cursor, the number of integrated samples and the
      integrator afterwards *)
  integrate_imu : IMUIntegration -> double -> double -> ConstantBias -> Z * Z * IMUIntegration;
  erase_imu_data : IMUIntegration -> Z -> IMUIntegration;
  integrated_measurements : IMUIntegration -> PreintegratedImuMeasurements
}.

(** ** The back end *)

(** The [Callbacks::] signals, recorded in call order. *)
Inductive CallbackEvent : Type :=
| on_insert_imu (stamp : double)
| on_insert_submap (submap : SubMap)
| on_smoother_update (new_factors : NonlinearFactorGraph) (new_values : Values)
| on_smoother_update_result (result : ISAM2ResultExt)
| on_update_submaps (submaps : list SubMap).

Section BackEnd.

Context {ISAM2 IMUIntegration : Type} {ext : Collaborators ISAM2 IMUIntegration}.

Record GlobalMapping : Type := mkGlobalMapping {
  params : GlobalMappingParams;
  mt : mt19937;
  imu_integration : IMUIntegration;
  submaps : list SubMap;
  subsampled_submaps : list PointCloud;
  new_values : Values;
  new_factors : NonlinearFactorGraph;
  isam2 : ISAM2;
  callbacks : list CallbackEvent
}.

Definition set_mt (x : mt19937) (gm : GlobalMapping) : GlobalMapping :=
  mkGlobalMapping (params gm) x (imu_integration gm) (submaps gm) (subsampled_submaps gm)
                  (new_values gm) (new_factors gm) (isam2 gm) (callbacks gm).
Definition set_imu_integration (x : IMUIntegration) (gm : GlobalMapping) : GlobalMapping :=
  mkGlobalMapping (params gm) (mt gm) x (submaps gm) (subsampled_submaps gm)
                  (new_values gm) (new_factors gm) (isam2 gm) (callbacks gm).
Definition set_submaps (x : list SubMap) (gm : GlobalMapping) : GlobalMapping :=
  mkGlobalMapping (params gm) (mt gm) (imu_integration gm) x (subsampled_submaps gm)
                  (new_values gm) (new_factors gm) (isam2 gm) (callbacks gm).
Definition set_subsampled_submaps (x : list PointCloud) (gm : GlobalMapping) : GlobalMapping :=
  mkGlobalMapping (params gm) (mt gm) (imu_integration gm) (submaps gm) x
                  (new_values gm) (new_factors gm) (isam2 gm) (callbacks gm).
Definition set_new_values (x : Values) (gm : GlobalMapping) : GlobalMapping :=
  mkGlobalMapping (params gm) (mt gm) (imu_integration gm) (submaps gm) (subsampled_submaps gm)
                  x (new_factors gm) (isam2 gm) (callbacks gm).
Definition set_new_factors (x : NonlinearFactorGraph) (gm : GlobalMapping) : GlobalMapping :=
  mkGlobalMapping (params gm) (mt gm) (imu_integration gm) (submaps gm) (subsampled_submaps gm)
                  (new_values gm) x (isam2 gm) (callbacks gm).
Definition set_isam2 (x : ISAM2) (gm : GlobalMapping) : GlobalMapping :=
  mkGlobalMapping (params gm) (mt gm) (imu_integration gm) (submaps gm) (subsampled_submaps gm)
                  (new_values gm) (new_factors gm) x (callbacks gm).
Definition notify (e : CallbackEvent) (gm : GlobalMapping) : GlobalMapping :=
  mkGlobalMapping (params gm) (mt gm) (imu_integration gm) (submaps gm) (subsampled_submaps gm)
                  (new_values gm) (new_factors gm) (isam2 gm) (callbacks gm ++ [e]).

(** [isam2->valueExists(k)] and [isam2->calculateEstimate<Pose3>(k)]. *)
Definition valueExists (s : ISAM2) (k : Key) : bool :=
  values_exists (getLinearizationPoint s) k.
Definition calculateEstimate_Pose3 (s : ISAM2) (k : Key) : Outcome Pose3 :=
  at_Pose3 (calculateEstimate s) k.

(** The constructor: a fresh back end. *)
Definition GlobalMapping_new (p : GlobalMappingParams) (seed : mt19937)
    (imu0 : IMUIntegration) : GlobalMapping :=
  mkGlobalMapping p seed imu0 [] [] [] []
                  (isam2_new (enable_optimization p) (make_isam2_params p)) [].

(** [GlobalMapping::insert_imu]. *)
Definition insert_imu (stamp : double) (linear_acc angular_vel : Vector3d)
    (gm : GlobalMapping) : GlobalMapping :=
  let gm := notify (on_insert_imu stamp) gm in
  if enable_imu (params gm)
  then set_imu_integration (imu_insert_imu (imu_integration gm) stamp linear_acc angular_vel) gm
  else gm.

(** *** Voxel maps *)

(** The loop [for (i = 0; i < levels; i++)] building one map per level from
    [cloud]. *)
Definition build_voxelmaps (dev : Device) (base_resolution : double)
    (p : GlobalMappingParams) (cloud : PointCloud) : list GaussianVoxelMap :=
  map (fun i : nat =>
         mkVoxelMap dev
           (base_resolution * Qpower (submap_voxelmap_scaling_factor p) (Z.of_nat i))%Q
           (points cloud))
      (seq 0 (Z.to_nat (submap_voxelmap_levels p))).

(** [std::max(0.0, std::min(1.0, num / den))] (line 235).  The exact
    quotient stands for the quotient of the doubles, except for [den = 0],
    where the doubles give [+inf], [-inf] or NaN as [num] is positive,
    negative or zero: [std::min(1.0, x)], that is [(x < 1.0) ? x : 1.0], and
    [std::max(0.0, y)], that is [(0.0 < y) ? y : 0.0], turn these into 1, 0
    and 1. *)
Definition clamped_ratio (num den : double) : double :=
  if Qeq_bool den 0%Q
  then if Qltb num 0%Q then 0%Q else 1%Q
  else std_max 0%Q (std_min 1%Q (num / den)%Q).

(** The adaptive base resolution (lines 233-236). *)
Definition base_resolution_of (p : GlobalMappingParams) (cloud : PointCloud) : double :=
  let max_scan_count := 256 in
  let dist_median := median_distance cloud max_scan_count in
  let q := clamped_ratio (dist_median - submap_voxel_resolution_dmin p)%Q
             (submap_voxel_resolution_dmax p - submap_voxel_resolution_dmin p)%Q in
  (submap_voxel_resolution p
   + q * (submap_voxel_resolution_max p - submap_voxel_resolution p))%Q.

Definition is_empty {A : Type} (l : list A) : bool :=
  match l with [] => true | _ => false end.

(** [GlobalMapping::insert_submap(int current, const SubMap::Ptr& submap)].
    The submap is shared with the caller: the function also returns it as
    it is after the call. *)
Definition insert_submap_at (current : Z) (submap : SubMap) (gm : GlobalMapping)
    : SubMap * GlobalMapping :=
  let p := params gm in
  let submap := set_voxelmaps [] submap in
  let base_resolution := base_resolution_of p (merged_keyframe submap) in
  let '(subsampled_submap, mt') :=
    if Qgtb (randomsampling_rate p) (99 # 100)
    then (merged_keyframe submap, mt gm)
    else random_sampling (merged_keyframe submap) (randomsampling_rate p) (mt gm) in
  (* #ifdef GTSAM_POINTS_USE_CUDA *)
  let submap :=
    if GTSAM_POINTS_USE_CUDA && enable_gpu p && negb (points_gpu (merged_keyframe submap))
    then set_merged_keyframe (PointCloudGPU_clone (merged_keyframe submap)) submap
    else submap in
  let subsampled_submap :=
    if GTSAM_POINTS_USE_CUDA && enable_gpu p
    then (if Qgtb (randomsampling_rate p) (99 # 100)
          then merged_keyframe submap
          else PointCloudGPU_clone subsampled_submap)
    else subsampled_submap in
  let submap :=
    if GTSAM_POINTS_USE_CUDA && enable_gpu p
    then set_voxelmaps (build_voxelmaps GPU base_resolution p (merged_keyframe submap)) submap
    else submap in
  (* #endif *)
  let submap :=
    if is_empty (voxelmaps submap)
    then set_voxelmaps (build_voxelmaps CPU base_resolution p subsampled_submap) submap
    else submap in
  (submap,
   set_subsampled_submaps (subsampled_submaps gm ++ [subsampled_submap])
     (set_submaps (submaps gm ++ [submap]) (set_mt mt' gm))).

(** *** Loops *)

(** [for (x : l) body], threading the loop state. *)
Fixpoint for_each {A St : Type} (body : A -> St -> Outcome St) (l : list A) (s : St)
    : Outcome St :=
  match l with
  | [] => Returned s
  | a :: l' => s' <- body a s;; for_each body l' s'
  end.

(** The values of [i] in [for (int i = lo; i < hi; i++)]. *)
Definition range (lo hi : Z) : list Z :=
  map (fun k : nat => lo + Z.of_nat k) (seq 0 (Z.to_nat (hi - lo))).

(** *** Between and matching-cost factors *)

Definition relative_pose (a b : SubMap) : Isometry3d :=
  iso_mul (iso_inverse (T_world_origin a)) (T_world_origin b).

(** [GlobalMapping::create_between_factors]. *)
Definition create_between_factors (current : Z) (gm : GlobalMapping)
    : Outcome NonlinearFactorGraph :=
  if (current =? 0) || negb (enable_between_factors (params gm)) then Returned []
  else
    let last := current - 1 in
    sl <- at_index (submaps gm) last;;
    sc <- at_index (submaps gm) current;;
    let init_delta := relative_pose sl sc in
    if String.eqb (between_registration_type (params gm)) "NONE"
    then Returned [Some (BetweenFactor_Pose3 (X last) (X current) init_delta
                           (Isotropic_Precision 6 1000000%Q))]
    else
      let '(estimated_delta, H) :=
        optimize_gicp (merged_keyframe sl) (merged_keyframe sc) init_delta in
      Returned [Some (BetweenFactor_Pose3 (X last) (X current) estimated_delta
                        (Gaussian_Information (add_ridge 1000000%Q H)))].

(** One factor per voxel map of the target submap. *)
Definition vgicp_factors (gpu : bool) (i j : Z) (target : SubMap) (source : PointCloud)
    : NonlinearFactorGraph :=
  map (fun voxelmap =>
         Some (if gpu
               then IntegratedVGICPFactorGPU (X i) (X j) voxelmap source
               else IntegratedVGICPFactor (X i) (X j) voxelmap source))
      (voxelmaps target).

(** The body of the loop of [create_matching_cost_factors]; the loop state is
    the factors so far and [previous_overlap]. *)
Definition matching_cost_body (current : Z) (current_submap : SubMap) (gm : GlobalMapping)
    (i : Z) (st : NonlinearFactorGraph * double) : Outcome (NonlinearFactorGraph * double) :=
  let '(factors, previous_overlap) := st in
  si <- at_index (submaps gm) i;;
  if norm_gt (sub3 (translation (T_world_origin si))
                   (translation (T_world_origin current_submap)))
             (max_implicit_loop_distance (params gm))
  then Returned (factors, previous_overlap)
  else
    let delta := relative_pose si current_submap in
    voxelmap <- back (voxelmaps si);;
    let overlap := overlap_auto voxelmap (merged_keyframe current_submap) delta in
    let previous_overlap := if i =? current - 1 then overlap else previous_overlap in
    if Qltb overlap (min_implicit_loop_overlap (params gm))
    then Returned (factors, previous_overlap)
    else if String.eqb (registration_error_factor_type (params gm)) "VGICP"
    then source <- at_index (subsampled_submaps gm) current;;
         Returned (factors ++ vgicp_factors false i current si source, previous_overlap)
    else if GTSAM_POINTS_USE_CUDA
            && String.eqb (registration_error_factor_type (params gm)) "VGICP_GPU"
    then source <- at_index (subsampled_submaps gm) current;;
         Returned (factors ++ vgicp_factors true i current si source, previous_overlap)
    else Returned (factors, previous_overlap).

(** [GlobalMapping::create_matching_cost_factors]. *)
Definition create_matching_cost_factors (current : Z) (gm : GlobalMapping)
    : Outcome NonlinearFactorGraph :=
  if current =? 0 then Returned []
  else
    current_submap <- back (submaps gm);;
    '(factors, previous_overlap) <-
      for_each (matching_cost_body current current_submap gm) (range 0 current) ([], 0%Q);;
    if Qltb previous_overlap (std_max (1 # 4) (min_implicit_loop_overlap (params gm)))
    then
      let last := current - 1 in
      sl <- at_index (submaps gm) last;;
      sc <- at_index (submaps gm) current;;
      let init_delta := relative_pose sl sc in
      Returned (factors ++ [Some (BetweenFactor_Pose3 (X last) (X current) init_delta
                                    (Isotropic_Precision 6 1000000%Q))])
    else Returned factors.

(** *** The smoother driver *)

(** [GlobalMapping::update_submaps]; [i] is the index of the head of [l]. *)
Fixpoint update_submaps_from (s : ISAM2) (i : Z) (l : list SubMap) : Outcome (list SubMap) :=
  match l with
  | [] => Returned []
  | sm :: l' =>
      T <- calculateEstimate_Pose3 s (X i);;
      rest <- update_submaps_from s (i + 1) l';;
      Returned (set_T_world_origin T sm :: rest)
  end.

Definition update_submaps (gm : GlobalMapping) : Outcome GlobalMapping :=
  l <- update_submaps_from (isam2 gm) 0 (submaps gm);;
  Returned (set_submaps l gm).

(** The [try] block of [update_isam2]: the solver afterwards, the result and
    [indeterminant_nearby_key].  In the handler of the indeterminate system
    [exit(1)] comes before the assignment of the nearby variable. *)
Definition try_update (s : ISAM2) (factors : NonlinearFactorGraph) (values : Values)
    : Outcome (ISAM2 * ISAM2ResultExt * Key) :=
  match isam2_update s factors values with
  | Updated s' result => Returned (s', result, Symbol.null)
  | UpdateThrows s' (IndeterminantLinearSystemException _) => Exited 1
  | UpdateThrows s' _ => Returned (s', empty_result, Symbol.null)
  end.

(** [GlobalMapping::update_isam2]; [fuel] bounds the depth of its recursion. *)
Fixpoint update_isam2 (fuel : nat) (factors : NonlinearFactorGraph) (values : Values)
    (gm : GlobalMapping) : Outcome (ISAM2ResultExt * GlobalMapping) :=
  '(s, result, indeterminant_nearby_key) <- try_update (isam2 gm) factors values;;
  let gm := set_isam2 s gm in
  if negb (Symbol.is_null indeterminant_nearby_key)
  then
    let symbol := indeterminant_nearby_key in
    let indeterminant_nearby_key :=
      if chr_is "v" symbol || chr_is "b" symbol || chr_is "e" symbol
      then X (Symbol.index symbol / 2)
      else indeterminant_nearby_key in
    let values := getLinearizationPoint (isam2 gm) in
    let factors := emplace_shared (LinearDampingFactor indeterminant_nearby_key 6 10000%Q)
                                  (getFactorsUnsafe (isam2 gm)) in
    let gm := set_isam2 (isam2_new (enable_optimization (params gm))
                                   (make_isam2_params (params gm))) gm in
    match fuel with
    | O => OutOfFuel
    | S fuel' => update_isam2 fuel' factors values gm
    end
  else Returned (result, gm).

(** *** Insertion of a submap *)

Definition set_back {A : Type} (a : A) (l : list A) : list A := removelast l ++ [a].

Definition prior_noise3 : NoiseModel := Isotropic_Precision 3 1000000%Q.
Definition prior_noise6 : NoiseModel := Isotropic_Precision 6 1000000%Q.

(** The pose predicted for the inserted submap (lines 131-149). *)
Definition predict_pose (current last : Z) (submap : SubMap) (gm : GlobalMapping)
    : Outcome Pose3 :=
  if negb (current =? 0)
  then
    last_T_world_submap <-
      (if valueExists (isam2 gm) (X last)
       then calculateEstimate_Pose3 (isam2 gm) (X last)
       else at_Pose3 (new_values gm) (X last));;
    sl <- at_index (submaps gm) last;;
    sc <- at_index (submaps gm) current;;
    let T_origin0_endpointR0 := T_origin_endpoint_R sl in
    let T_origin1_endpointL1 := T_origin_endpoint_L sc in
    bl <- back (origin_odom_frames sl);;
    fc <- front (origin_odom_frames sc);;
    let T_endpointR0_endpointL1 :=
      iso_mul (iso_inverse (T_world_sensor bl)) (T_world_sensor fc) in
    let T_origin0_origin1 :=
      iso_mul (iso_mul T_origin0_endpointR0 T_endpointR0_endpointL1)
              (iso_inverse T_origin1_endpointL1) in
    Returned (iso_mul last_T_world_submap T_origin0_origin1)
  else Returned (T_world_origin submap).

(** The IMU block of [insert_submap] (lines 165-216), on the pending values
    and factors. *)
Definition imu_chain (current last : Z) (submap : SubMap) (gm : GlobalMapping)
    : Outcome GlobalMapping :=
  _ <- front (origin_odom_frames submap);;
  fL <- front (optim_odom_frames submap);;
  fR <- back (optim_odom_frames submap);;
  let imu_biasL := imu_bias fL in
  let imu_biasR := imu_bias fR in
  let R := linear (T_world_origin submap) in
  let v_origin_imuL := mat_vec (mat_inverse R) (v_world_imu fL) in
  let v_origin_imuR := mat_vec (mat_inverse R) (v_world_imu fR) in
  '(values, factors) <-
    (if 0 <? current
     then
       v <- values_insert (E (current * 2))
              (Value_Pose3 (iso_mul (T_world_origin submap) (T_origin_endpoint_L submap)))
              (new_values gm);;
       v <- values_insert (V (current * 2)) (Value_Vector3 (mat_vec R v_origin_imuL)) v;;
       v <- values_insert (B (current * 2)) (Value_ConstantBias imu_biasL) v;;
       Returned (v,
         new_factors gm ++
         [Some (BetweenFactor_Pose3 (X current) (E (current * 2))
                  (T_origin_endpoint_L submap) prior_noise6);
          Some (RotateVector3Factor (X current) (V (current * 2)) v_origin_imuL prior_noise3);
          Some (PriorFactor_ConstantBias (B (current * 2)) imu_biasL prior_noise6);
          Some (BetweenFactor_ConstantBias (B (current * 2)) (B (current * 2 + 1))
                  ConstantBias_zero prior_noise6)])
     else Returned (new_values gm, new_factors gm));;
  v <- values_insert (E (current * 2 + 1))
         (Value_Pose3 (iso_mul (T_world_origin submap) (T_origin_endpoint_R submap))) values;;
  v <- values_insert (V (current * 2 + 1)) (Value_Vector3 (mat_vec R v_origin_imuR)) v;;
  v <- values_insert (B (current * 2 + 1)) (Value_ConstantBias imu_biasR) v;;
  let factors := factors ++
    [Some (BetweenFactor_Pose3 (X current) (E (current * 2 + 1))
             (T_origin_endpoint_R submap) prior_noise6);
     Some (RotateVector3Factor (X current) (V (current * 2 + 1)) v_origin_imuR prior_noise3);
     Some (PriorFactor_ConstantBias (B (current * 2 + 1)) imu_biasR prior_noise6)] in
  let gm := set_new_factors factors (set_new_values v gm) in
  if negb (current =? 0)
  then
    sl <- at_index (submaps gm) last;;
    bl <- back (optim_odom_frames sl);;
    sc <- at_index (submaps gm) current;;
    fc <- front (optim_odom_frames sc);;
    let stampL := stamp bl in
    let stampR := stamp fc in
    let '(imu_read_cursor, num_integrated, imu) :=
      integrate_imu (imu_integration gm) stampL stampR imu_biasL in
    let imu := erase_imu_data imu imu_read_cursor in
    let gm := set_imu_integration imu gm in
    if num_integrated <? 2
    then Returned (set_new_factors
           (emplace_shared (BetweenFactor_Vector3 (V (last * 2 + 1)) (V (current * 2)) zero3
                              (Isotropic_Precision 3 1%Q)) (new_factors gm)) gm)
    else Returned (set_new_factors
           (emplace_shared (ImuFactor (E (last * 2 + 1)) (V (last * 2 + 1)) (E (current * 2))
                              (V (current * 2)) (B (last * 2 + 1))
                              (integrated_measurements imu)) (new_factors gm)) gm)
  else Returned gm.

(** [insert_submap] up to the smoother update (lines 124-216): the pending
    values and factors are assembled. *)
Definition insert_submap_assemble (submap : SubMap) (gm : GlobalMapping)
    : Outcome (SubMap * GlobalMapping) :=
  let current := size (submaps gm) in
  let last := current - 1 in
  let '(submap, gm) := insert_submap_at current submap gm in
  current_T_world_submap <- predict_pose current last submap gm;;
  v <- values_insert (X current) (Value_Pose3 current_T_world_submap) (new_values gm);;
  let gm := set_new_values v gm in
  let submap := set_T_world_origin current_T_world_submap submap in
  let gm := set_submaps (set_back submap (submaps gm)) gm in
  let gm := notify (on_insert_submap submap) gm in
  (* submap->drop_frame_points(): the points of the odometry frames are not modelled *)
  gm <-
    (if current =? 0
     then Returned (set_new_factors
            (emplace_shared (LinearDampingFactor (X 0) 6 (init_pose_damping_scale (params gm)))
                            (new_factors gm)) gm)
     else
       between <- create_between_factors current gm;;
       let gm := set_new_factors (graph_add between (new_factors gm)) gm in
       matching <- create_matching_cost_factors current gm;;
       Returned (set_new_factors (graph_add matching (new_factors gm)) gm));;
  gm <- (if enable_imu (params gm) then imu_chain current last submap gm else Returned gm);;
  Returned (submap, gm).

(** [GlobalMapping::insert_submap(const SubMap::Ptr& submap)]. *)
Definition insert_submap (fuel : nat) (submap : SubMap) (gm : GlobalMapping)
    : Outcome GlobalMapping :=
  '(_, gm) <- insert_submap_assemble submap gm;;
  let gm := notify (on_smoother_update (new_factors gm) (new_values gm)) gm in
  '(result, gm) <- update_isam2 fuel (new_factors gm) (new_values gm) gm;;
  let gm := notify (on_smoother_update_result result) gm in
  let gm := set_new_factors [] (set_new_values [] gm) in
  gm <- update_submaps gm;;
  Returned (notify (on_update_submaps (submaps gm)) gm).

(** *** Overlap search *)

(** A 64-bit index converted to [int]: the value wraps around. *)
Definition to_int (z : Z) : Z := (z + 2147483648) mod 4294967296 - 2147483648.

(** [Eigen::Vector3i(a, b, 0)]: the components are [int]s; the third one is
    always 0 and is left out. *)
Definition Vector3i (a b : Z) : Z * Z := (to_int a, to_int b).

(** The scan of the solver's factors in [find_overlapping_submaps]
    (lines 286-299); the indices of the two symbols, 64-bit integers, become
    the components of a [Vector3i]. *)
Definition scan_existing (factor : option Factor) (existing_factors : list (Z * Z))
    : Outcome (list (Z * Z)) :=
  match factor with
  | None => Undefined
  | Some f =>
      match keys f with
      | [sym1; sym2] =>
          if negb (chr_is "x" sym1) || negb (chr_is "x" sym2)
          then Returned existing_factors
          else Returned (existing_factors
                         ++ [Vector3i (Symbol.index sym1) (Symbol.index sym2)])
      | _ => Returned existing_factors
      end
  end.

(** [existing_factors.count(Eigen::Vector3i(i, j, 0))]. *)
Definition count_pair (existing_factors : list (Z * Z)) (i j : Z) : bool :=
  existsb (fun p => (fst p =? fst (Vector3i i j)) && (snd p =? snd (Vector3i i j)))
          existing_factors.

Definition is_gpu_voxelmap (v : GaussianVoxelMap) : bool :=
  match vm_device v with GPU => true | CPU => false end.

(** The body of the inner loop over [j]. *)
Definition overlap_body (min_overlap : double) (existing_factors : list (Z * Z))
    (gm : GlobalMapping) (i j : Z) (factors : NonlinearFactorGraph)
    : Outcome NonlinearFactorGraph :=
  if count_pair existing_factors i j then Returned factors
  else
    si <- at_index (submaps gm) i;;
    sj <- at_index (submaps gm) j;;
    let delta := relative_pose si sj in
    if norm_gt (translation delta) (max_implicit_loop_distance (params gm))
    then Returned factors
    else
      voxelmap <- back (voxelmaps si);;
      source <- at_index (subsampled_submaps gm) j;;
      let overlap := overlap_auto voxelmap source delta in
      if Qltb overlap min_overlap then Returned factors
      else if GTSAM_POINTS_USE_CUDA && is_gpu_voxelmap voxelmap && points_gpu source
      then Returned (factors ++ vgicp_factors true i j si source)
      else Returned (factors ++ vgicp_factors false i j si source).

(** The factors found by the two nested loops. *)
Definition overlap_factors (min_overlap : double) (existing_factors : list (Z * Z))
    (gm : GlobalMapping) : Outcome NonlinearFactorGraph :=
  let n := size (submaps gm) in
  for_each (fun i factors =>
              for_each (overlap_body min_overlap existing_factors gm i) (range (i + 1) n) factors)
           (range 0 n) [].

(** The factors to add (lines 285-338): the scan of the solver's factors,
    then the loops. *)
Definition new_overlap_factors (min_overlap : double) (gm : GlobalMapping)
    : Outcome NonlinearFactorGraph :=
  existing_factors <- for_each scan_existing (getFactorsUnsafe (isam2 gm)) [];;
  overlap_factors min_overlap existing_factors gm.

(** [GlobalMapping::find_overlapping_submaps]. *)
Definition find_overlapping_submaps (fuel : nat) (min_overlap : double) (gm : GlobalMapping)
    : Outcome GlobalMapping :=
  if is_empty (submaps gm) then Returned gm
  else
    factors <- new_overlap_factors min_overlap gm;;
    let values : Values := [] in
    let gm := notify (on_smoother_update factors values) gm in
    '(result, gm) <- update_isam2 fuel factors values gm;;
    let gm := notify (on_smoother_update_result result) gm in
    gm <- update_submaps gm;;
    Returned (notify (on_update_submaps (submaps gm)) gm).

(** [GlobalMapping::optimize]. *)
Definition optimize (fuel : nat) (gm : GlobalMapping) : Outcome GlobalMapping :=
  if isam2_empty (isam2 gm) then Returned gm
  else
    let factors : NonlinearFactorGraph := [] in
    let values : Values := [] in
    let gm := notify (on_smoother_update factors values) gm in
    '(result, gm) <- update_isam2 fuel factors values gm;;
    let gm := notify (on_smoother_update_result result) gm in
    gm <- update_submaps gm;;
    Returned (notify (on_update_submaps (submaps gm)) gm).

(** *** Export *)



(** *** Graph repair *)

(** [connectivity_map[k]]: the keys that share a factor with [k]. *)
Definition connectivity_map (graph : NonlinearFactorGraph) (k : Key) : list Key :=
  flat_map (fun factor : option Factor =>
              match factor with
              | None => []
              | Some f => if existsb (Symbol.eqb k) (keys f) then keys f else []
              end) graph.

Definition count (s : list Key) (k : Key) : bool := existsb (Symbol.eqb k) s.

(** The scan for a unary [LinearDampingFactor] on [X(0)]. *)
Definition prior_exists (graph : NonlinearFactorGraph) : bool :=
  existsb (fun factor : option Factor =>
             match factor with
             | None => false
             | Some f =>
                 match keys f with
                 | [k] => Symbol.eqb k (X 0) && is_LinearDampingFactor f
                 | _ => false
                 end
             end) graph.

Definition graph_enable_imu (graph : NonlinearFactorGraph) (values : Values) : bool :=
  existsb (fun kv : Key * Value =>
             chr_is "e" (fst kv) || chr_is "v" (fst kv) || chr_is "b" (fst kv)) values
  || existsb (fun factor : option Factor =>
                match factor with Some f => is_ImuFactor f | None => false end) graph.

(** Adds [f] when the guard holds. *)
Definition emplace_if (guard : bool) (f : Factor) (g : NonlinearFactorGraph)
    : NonlinearFactorGraph :=
  if guard then emplace_shared f g else g.

Definition insert_if (guard : bool) (k : Key) (v : Value) (vs : Values) : Outcome Values :=
  if guard then values_insert k v vs else Returned vs.

(** The body of the loop over the submaps in [recover_graph]; the loop state
    is the local [new_factors] and [new_values]. *)
Definition recover_body (graph : NonlinearFactorGraph) (values : Values) (imu : bool)
    (gm : GlobalMapping) (i : Z) (st : NonlinearFactorGraph * Values)
    : Outcome (NonlinearFactorGraph * Values) :=
  let '(factors, vals) := st in
  let conn := connectivity_map graph in
  submap <- at_index (submaps gm) i;;
  vals <- insert_if (negb (values_exists values (X i))) (X i)
            (Value_Pose3 (T_world_origin submap)) vals;;
  factors <-
    (if negb (count (conn (X i)) (X (i + 1))) && negb (i =? size (submaps gm) - 1)
     then
       fi <- origin_odom_frame submap;;
       next <- at_index (submaps gm) (i + 1);;
       fj <- origin_odom_frame next;;
       let delta := iso_mul (iso_inverse (T_world_sensor fi)) (T_world_sensor fj) in
       Returned (emplace_shared (BetweenFactor_Pose3 (X i) (X (i + 1)) delta prior_noise6)
                                factors)
     else Returned factors);;
  if negb imu then Returned (factors, vals)
  else
    fL <- front (optim_odom_frames submap);;
    fR <- back (optim_odom_frames submap);;
    let imu_biasL := imu_bias fL in
    let imu_biasR := imu_bias fR in
    let R := linear (T_world_origin submap) in
    let v_origin_imuL := mat_vec (mat_inverse R) (v_world_imu fL) in
    let v_origin_imuR := mat_vec (mat_inverse R) (v_world_imu fR) in
    '(factors, vals) <-
      (if negb (i =? 0)
       then
         vals <- insert_if (negb (values_exists values (E (i * 2)))) (E (i * 2))
                   (Value_Pose3 (iso_mul (T_world_origin submap) (T_origin_endpoint_L submap)))
                   vals;;
         vals <- insert_if (negb (values_exists values (V (i * 2)))) (V (i * 2))
                   (Value_Vector3 (mat_vec R v_origin_imuL)) vals;;
         vals <- insert_if (negb (values_exists values (B (i * 2)))) (B (i * 2))
                   (Value_ConstantBias imu_biasL) vals;;
         let factors :=
           emplace_if (negb (count (conn (X i)) (E (i * 2))))
             (BetweenFactor_Pose3 (X i) (E (i * 2)) (T_origin_endpoint_L submap) prior_noise6)
             factors in
         let factors :=
           emplace_if (negb (count (conn (X i)) (V (i * 2))))
             (RotateVector3Factor (X i) (V (i * 2)) v_origin_imuL prior_noise3) factors in
         let factors :=
           emplace_if (negb (count (conn (B (i * 2))) (B (i * 2))))
             (PriorFactor_ConstantBias (B (i * 2)) imu_biasL prior_noise6) factors in
         let factors :=
           emplace_if (negb (count (conn (B (i * 2))) (B (i * 2 + 1))))
             (BetweenFactor_ConstantBias (B (i * 2)) (B (i * 2 + 1)) ConstantBias_zero
                prior_noise6) factors in
         Returned (factors, vals)
       else Returned (factors, vals));;
    vals <- insert_if (negb (values_exists values (E (i * 2 + 1)))) (E (i * 2 + 1))
              (Value_Pose3 (iso_mul (T_world_origin submap) (T_origin_endpoint_R submap)))
              vals;;
    vals <- insert_if (negb (values_exists values (V (i * 2 + 1)))) (V (i * 2 + 1))
              (Value_Vector3 (mat_vec R v_origin_imuR)) vals;;
    vals <- insert_if (negb (values_exists values (B (i * 2 + 1)))) (B (i * 2 + 1))
              (Value_ConstantBias imu_biasR) vals;;
    let factors :=
      emplace_if (negb (count (conn (X i)) (E (i * 2 + 1))))
        (BetweenFactor_Pose3 (X i) (E (i * 2 + 1)) (T_origin_endpoint_R submap) prior_noise6)
        factors in
    let factors :=
      emplace_if (negb (count (conn (X i)) (V (i * 2 + 1))))
        (RotateVector3Factor (X i) (V (i * 2 + 1)) v_origin_imuR prior_noise3) factors in
    let factors :=
      emplace_if (negb (count (conn (B (i * 2 + 1))) (B (i * 2 + 1))))
        (PriorFactor_ConstantBias (B (i * 2 + 1)) imu_biasR prior_noise6) factors in
    Returned (factors, vals).

(** [GlobalMapping::recover_graph(graph, values) const].  Where the missing
    prior on [X(0)] is handled (line 1551) the locals [new_factors] and
    [new_values] are not declared yet (lines 1558-1559): the name
    [new_factors] there is the member, the pending graph of the back end,
    reached through its pointer. *)
Definition recover_graph (graph : NonlinearFactorGraph) (values : Values) (gm : GlobalMapping)
    : Outcome (NonlinearFactorGraph * Values * GlobalMapping) :=
  let imu := graph_enable_imu graph values in
  let gm :=
    if negb (prior_exists graph)
    then set_new_factors
           (emplace_shared (LinearDampingFactor (X 0) 6 (init_pose_damping_scale (params gm)))
                           (new_factors gm)) gm
    else gm in
  '(factors, vals) <-
    for_each (recover_body graph values imu gm) (range 0 (size (submaps gm))) ([], []);;
  Returned (factors, vals, gm).

(** [GlobalMapping::recover_graph()]. *)
Definition recover_graph_now (fuel : nat) (gm : GlobalMapping) : Outcome GlobalMapping :=
  '(factors, vals, gm) <-
    recover_graph (getFactorsUnsafe (isam2 gm)) (calculateEstimate (isam2 gm)) gm;;
  '(_, gm) <- update_isam2 fuel factors vals gm;;
  Returned gm.

(** *** Reload *)

(** A dump directory as [load] reads it: the parsed [graph.txt] (or [None]
    when it cannot be opened), what [SubMap::load] gives for each index, and
    what deserialising the two archives does. *)
Record GraphTxt : Type := mkGraphTxt {
  num_submaps : Z;
  num_all_frames : Z;
  matching_cost_factors : list (string * Z * Z)
}.

(** Deserialisation fills the object passed by reference, and may throw
    having filled part of it. *)
Inductive Deserialized (A : Type) : Type :=
| Loaded (a : A)
| LoadThrows (e : Exception) (partial : A).

Arguments Loaded {A} a.
Arguments LoadThrows {A} e partial.

Record DumpDirectory : Type := mkDump {
  graph_txt : option GraphTxt;
  submap_dir : Z -> option SubMap;
  graph_bin : Deserialized NonlinearFactorGraph;
  values_bin : Deserialized Values
}.

(** One [try] block of [load]: the first handler takes
    [boost::archive::archive_exception] and only logs, the second takes any
    other [std::exception] and sets [needs_recover]. *)
Definition deserializeFromBinaryFile {A : Type} (file : Deserialized A) (needs_recover : bool)
    : A * bool :=
  match file with
  | Loaded a => (a, needs_recover)
  | LoadThrows ArchiveException partial => (partial, needs_recover)
  | LoadThrows _ partial => (partial, true)
  end.

(** The submap loop of [load] (lines 1377-1424); [None] is [return false]. *)
Fixpoint load_submaps (dir : Z -> option SubMap) (indices : list Z) (gm : GlobalMapping)
    : option GlobalMapping :=
  match indices with
  | [] => Some gm
  | i :: rest =>
      match dir i with
      | None => None
      | Some submap =>
          let p := params gm in
          let base_resolution := base_resolution_of p (merged_keyframe submap) in
          let '(subsampled_submap, mt') :=
            if Qgtb (randomsampling_rate p) (99 # 100)
            then (merged_keyframe submap, mt gm)
            else random_sampling (merged_keyframe submap) (randomsampling_rate p) (mt gm) in
          let submap := set_voxelmaps [] submap in
          let '(submap, subsampled_submap) :=
            if enable_gpu p
            then (if GTSAM_POINTS_USE_CUDA
                  then let c := PointCloudGPU_clone subsampled_submap in
                       (set_voxelmaps (build_voxelmaps GPU base_resolution p c) submap, c)
                  else (submap, subsampled_submap))
            else (set_voxelmaps (build_voxelmaps CPU base_resolution p subsampled_submap)
                                submap, subsampled_submap) in
          let gm := set_subsampled_submaps (subsampled_submaps gm ++ [subsampled_submap])
                      (set_submaps (submaps gm ++ [submap]) (set_mt mt' gm)) in
          load_submaps dir rest (notify (on_insert_submap submap) gm)
      end
  end.

(** The loop that recreates the matching-cost factors (lines 1455-1481). *)
Definition load_matching_cost (gm : GlobalMapping) (line : string * Z * Z)
    (graph : NonlinearFactorGraph) : Outcome NonlinearFactorGraph :=
  let '(type, first, second) := line in
  if String.eqb type "vgicp" || String.eqb type "vgicp_gpu"
  then
    if enable_gpu (params gm) && negb GTSAM_POINTS_USE_CUDA then Returned graph
    else
      target <- at_index (submaps gm) first;;
      if is_empty (voxelmaps target) then Returned graph
      else
        source <- at_index (subsampled_submaps gm) second;;
        Returned (graph ++ vgicp_factors (enable_gpu (params gm)) first second target source)
  else Returned graph.

Definition not_null (factor : option Factor) : bool :=
  match factor with Some _ => true | None => false end.

(** What [load] hands to the smoother: the graph, the values and whether the
    repair ran (lines 1426-1496). *)
Definition load_graph (dump : DumpDirectory) (lines : list (string * Z * Z))
    (gm : GlobalMapping)
    : Outcome (NonlinearFactorGraph * Values * bool * GlobalMapping) :=
  let needs_recover := false in
  let '(graph, needs_recover) := deserializeFromBinaryFile (graph_bin dump) needs_recover in
  let '(values, needs_recover) := deserializeFromBinaryFile (values_bin dump) needs_recover in
  graph <- for_each (load_matching_cost gm) lines graph;;
  let num_factors_before := size graph in
  let graph := filter not_null graph in
  let needs_recover :=
    if negb (size graph =? num_factors_before) then true else needs_recover in
  if needs_recover
  then
    '(patch_factors, patch_values, gm) <- recover_graph graph values gm;;
    Returned (graph_add patch_factors graph, insert_or_assign patch_values values,
              needs_recover, gm)
  else Returned (graph, values, needs_recover, gm).

(** [GlobalMapping::load].  When a submap fails to load the source returns
    [false] with the slots of the later submaps still null; the model keeps
    the back end as it was before the call in that case. *)
Definition load (fuel : nat) (dump : DumpDirectory) (gm : GlobalMapping)
    : Outcome (bool * GlobalMapping) :=
  match graph_txt dump with
  | None => Returned (false, gm)
  | Some txt =>
      if num_submaps txt <? 0 then Thrown StdException
      else
        match load_submaps (submap_dir dump) (range 0 (num_submaps txt))
                (set_subsampled_submaps [] (set_submaps [] gm)) with
        | None => Returned (false, gm)
        | Some gm =>
            '(graph, values, _, gm) <- load_graph dump (matching_cost_factors txt) gm;;
            let gm := notify (on_smoother_update graph values) gm in
            '(result, gm) <- update_isam2 fuel graph values gm;;
            let gm := notify (on_smoother_update_result result) gm in
            gm <- update_submaps gm;;
            Returned (true, notify (on_update_submaps (submaps gm)) gm)
        end
  end.

(** *** Export for LAS *)


(** [v.at(i)]: throws [std::out_of_range] outside the vector. *)
Definition vector_at {A : Type} (v : list A) (i : Z) : Outcome A :=
  if i <? 0 then Thrown StdException
  else match nth_error v (Z.to_nat i) with
       | Some a => Returned a
       | None => Thrown StdException
       end.

(** [v[i] = x] for [i] inside the vector. *)
Fixpoint assign {A : Type} (v : list A) (i : nat) (x : A) : list A :=
  match v, i with
  | [], _ => []
  | _ :: v', O => x :: v'
  | a :: v', S i' => a :: assign v' i' x
  end.

(** The body of the loop over [k] (lines 780-786); the loop state is
    [point_time], [submap_times_cursor] and [submap_times]. *)
Definition las_point_time (k : Z) (st : double * Z * list double)
    : Outcome (double * Z * list double) :=
  let '(point_time, submap_times_cursor, submap_times) := st in
  let point_time := (point_time + (2 # 100000))%Q in
  if submap_times_cursor <? size submap_times
  then Returned (point_time, submap_times_cursor + 1,
                 assign submap_times (Z.to_nat submap_times_cursor) point_time)
  else Returned (point_time, submap_times_cursor, submap_times).

(** The times of one submap (lines 768-787): [submap_times], cleared by the
    iteration before, is resized to [points_count] zeros and filled from
    the stamps. *)
Definition las_submap_times (points_count : Z) (stamps : list double) (point_time : double)
    : Outcome (double * list double) :=
  let submap_times := repeat 0%Q (Z.to_nat points_count) in
  let stamps_count := size stamps in
  '(point_time, _, submap_times) <-
    for_each (fun i (st : double * Z * list double) =>
                let '(_, submap_times_cursor, submap_times) := st in
                point_time <- vector_at stamps i;;
                for_each las_point_time (range 0 (Z.quot points_count stamps_count + 1))
                         (point_time, submap_times_cursor, submap_times))
             (range 0 stamps_count) (point_time, 0, submap_times);;
  Returned (point_time, submap_times).



(** *** Save *)

(** [std::to_string] of a symbol index. *)
Definition to_string (i : Z) : string := NilEmpty.string_of_uint (N.to_uint (Z.to_N i)).

(** The factors that [save] does not serialise (line 545): those derived
    from [IntegratedMatchingCostFactor] and, in a CUDA build, the GPU
    factor. *)
Definition is_matching_cost (f : Factor) : bool :=
  match f with
  | IntegratedGICPFactor _ _ _ _ => true
  | IntegratedVGICPFactor _ _ _ _ => true
  | IntegratedVGICPFactorGPU _ _ _ _ => GTSAM_POINTS_USE_CUDA
  | _ => false
  end.

(** The key of a factor in the map [matching_cost_factors] (lines 554-556). *)
Definition matching_cost_key (f : Factor) : Outcome string :=
  match keys f with
  | symbol0 :: symbol1 :: _ =>
      Returned (to_string (Symbol.index symbol0) ++ "_" ++ to_string (Symbol.index symbol1))%string
  | _ => Undefined
  end.

(** [m[key] = factor] on the entries of a [std::unordered_map]. *)
Fixpoint map_assign (key : string) (factor : Factor) (m : list (string * Factor))
    : list (string * Factor) :=
  match m with
  | [] => [(key, factor)]
  | (k, f) :: m' =>
      if String.eqb k key then (k, factor) :: m' else (k, f) :: map_assign key factor m'
  end.

(** The body of the loop over the solver's factors (lines 544-560); the
    loop state is [serializable_factors] and [matching_cost_factors]. *)
Definition save_scan (factor : option Factor)
    (st : NonlinearFactorGraph * list (string * Factor))
    : Outcome (NonlinearFactorGraph * list (string * Factor)) :=
  let '(serializable_factors, matching_cost_factors) := st in
  let serializable :=
    match factor with
    | Some f => negb (is_matching_cost f)
    | None => true
    end in
  if serializable then Returned (serializable_factors ++ [factor], matching_cost_factors)
  else
    match factor with
    | Some f =>
        key <- matching_cost_key f;;
        Returned (serializable_factors, map_assign key f matching_cost_factors)
    | None => Undefined
    end.

(** The type written for a matching-cost factor (lines 572-583). *)
Definition factor_type (f : Factor) : string :=
  match f with
  | IntegratedGICPFactor _ _ _ _ => "gicp"
  | IntegratedVGICPFactor _ _ _ _ => "vgicp"
  | IntegratedVGICPFactorGPU _ _ _ _ => if GTSAM_POINTS_USE_CUDA then "vgicp_gpu" else ""
  | _ => ""
  end.

(** One [matching_cost] line of [graph.txt] (lines 585-587). *)
Definition graph_txt_line (entry : string * Factor) (lines : list (string * Z * Z))
    : Outcome (list (string * Z * Z)) :=
  match keys (snd entry) with
  | symbol0 :: symbol1 :: _ =>
      Returned (lines ++ [(factor_type (snd entry), Symbol.index symbol0, Symbol.index symbol1)])
  | _ => Undefined
  end.

(** What [save] writes of the graph. *)
Record SavedGraph : Type := mkSavedGraph {
  saved_graph_bin : NonlinearFactorGraph;
  saved_values_bin : Values;
  saved_graph_txt : GraphTxt
}.

(** [GlobalMapping::save] up to [graph.txt] (lines 536-588): the
    optimisation, the split of the solver's factors, the two archives and
    [graph.txt].  [iteration_order] is the order in which the
    [std::unordered_map] hands out its entries. *)
Definition save_graph
    (iteration_order : list (string * Factor) -> list (string * Factor))
    (fuel : nat) (gm : GlobalMapping) : Outcome (SavedGraph * GlobalMapping) :=
  gm <- optimize fuel gm;;
  '(serializable_factors, matching_cost_factors) <-
    for_each save_scan (getFactorsUnsafe (isam2 gm)) ([], []);;
  lines <- for_each graph_txt_line (iteration_order matching_cost_factors) [];;
  Returned
    (mkSavedGraph serializable_factors (calculateEstimate (isam2 gm))
       (mkGraphTxt (size (submaps gm))
          (fold_left (fun sum submap => sum + size (optim_odom_frames submap)) (submaps gm) 0)
          lines),
     gm).

End BackEnd.

(** ** Reference collaborators

    A solver that only stores what it is given, the behaviour of
    [ISAM2ExtDummy], whose estimate is its linearisation point; the update
    itself is left open so that solvers that throw or that move their
    estimates are instances too; a sampler that keeps every other point; an
    IMU buffer of stamps. *)

Record StoredSolver : Type := mkStored {
  stored_factors : NonlinearFactorGraph;
  stored_theta : Values
}.

(** The update of the storing solver. *)
Definition store_update (s : StoredSolver) (g : NonlinearFactorGraph) (v : Values)
    : UpdateOutcome StoredSolver :=
  Updated (mkStored (stored_factors s ++ g) (stored_theta s ++ v)) empty_result.

Fixpoint every_other {A : Type} (l : list A) : list A :=
  match l with
  | a :: _ :: l' => a :: every_other l'
  | l' => l'
  end.

Definition count_between (stamps : list double) (lo hi : double) : Z :=
  size (filter (fun t => Qle_bool lo t && Qle_bool t hi) stamps).

Definition reference_collaborators (cuda : bool)
    (overlap : GaussianVoxelMap -> PointCloud -> Isometry3d -> double)
    (update : StoredSolver -> NonlinearFactorGraph -> Values -> UpdateOutcome StoredSolver)
    : Collaborators StoredSolver (list double) :=
  {| GTSAM_POINTS_USE_CUDA := cuda;
     median_distance := fun _ _ => 10%Q;
     random_sampling := fun c _ g => (mkPointCloud (every_other (points c)) false, N.succ g);
     overlap_auto := overlap;
     optimize_gicp := fun _ _ init => (init, []);
     isam2_new := fun _ _ => mkStored [] [];
     isam2_update := update;
     getFactorsUnsafe := stored_factors;
     getLinearizationPoint := stored_theta;
     calculateEstimate := stored_theta;
     isam2_empty := fun s => is_empty (stored_theta s);
     imu_insert_imu := fun imu t _ _ => imu ++ [t];
     integrate_imu := fun imu lo hi _ => (size imu, count_between imu lo hi, imu);
     erase_imu_data := fun imu _ => imu;
     integrated_measurements := fun _ => mkPIM 0%Q zero3 zero3 mat_id |}.

(** The configuration defaults of [GlobalMappingParams::GlobalMappingParams]. *)
Definition default_params : GlobalMappingParams :=
  {| enable_gpu := false;
     enable_imu := true;
     enable_optimization := true;
     enable_between_factors := false;
     between_registration_type := "GICP";
     registration_error_factor_type := "VGICP";
     submap_voxel_resolution := 1%Q;
     submap_voxel_resolution_max := 1%Q;
     submap_voxel_resolution_dmin := 5%Q;
     submap_voxel_resolution_dmax := 20%Q;
     submap_voxelmap_levels := 2;
     submap_voxelmap_scaling_factor := 2%Q;
     randomsampling_rate := 1%Q;
     max_implicit_loop_distance := 100%Q;
     min_implicit_loop_overlap := (1 # 10)%Q;
     use_isam2_dogleg := false;
     isam2_relinearize_skip := 1%Q;
     isam2_relinearize_thresh := (1 # 10)%Q;
     init_pose_damping_scale := 10000000000%Q |}.

Definition set_enable_imu (b : bool) (p : GlobalMappingParams) : GlobalMappingParams :=
  mkParams (enable_gpu p) b (enable_optimization p) (enable_between_factors p)
    (between_registration_type p) (registration_error_factor_type p)
    (submap_voxel_resolution p) (submap_voxel_resolution_max p)
    (submap_voxel_resolution_dmin p) (submap_voxel_resolution_dmax p)
    (submap_voxelmap_levels p) (submap_voxelmap_scaling_factor p) (randomsampling_rate p)
    (max_implicit_loop_distance p) (min_implicit_loop_overlap p) (use_isam2_dogleg p)
    (isam2_relinearize_skip p) (isam2_relinearize_thresh p) (init_pose_damping_scale p).

Definition set_randomsampling_rate (r : double) (p : GlobalMappingParams)
    : GlobalMappingParams :=
  mkParams (enable_gpu p) (enable_imu p) (enable_optimization p) (enable_between_factors p)
    (between_registration_type p) (registration_error_factor_type p)
    (submap_voxel_resolution p) (submap_voxel_resolution_max p)
    (submap_voxel_resolution_dmin p) (submap_voxel_resolution_dmax p)
    (submap_voxelmap_levels p) (submap_voxelmap_scaling_factor p) r
    (max_implicit_loop_distance p) (min_implicit_loop_overlap p) (use_isam2_dogleg p)
    (isam2_relinearize_skip p) (isam2_relinearize_thresh p) (init_pose_damping_scale p).

Definition set_max_implicit_loop_distance (d : double) (p : GlobalMappingParams)
    : GlobalMappingParams :=
  mkParams (enable_gpu p) (enable_imu p) (enable_optimization p) (enable_between_factors p)
    (between_registration_type p) (registration_error_factor_type p)
    (submap_voxel_resolution p) (submap_voxel_resolution_max p)
    (submap_voxel_resolution_dmin p) (submap_voxel_resolution_dmax p)
    (submap_voxelmap_levels p) (submap_voxelmap_scaling_factor p) (randomsampling_rate p)
    d (min_implicit_loop_overlap p) (use_isam2_dogleg p)
    (isam2_relinearize_skip p) (isam2_relinearize_thresh p) (init_pose_damping_scale p).

(** A translation along x, two sample points, and a submap standing at
    [x] whose frames carry the stamps [t0] and [t1]. *)
Definition shift_x (x : double) : Isometry3d := iso mat_id (vec3 x 0%Q 0%Q).

Definition sample_cloud : PointCloud :=
  mkPointCloud [vec4 1%Q 0%Q 0%Q 1%Q; vec4 0%Q 2%Q 0%Q 1%Q] false.

Definition sample_frame (x t : double) : EstimationFrame :=
  mkFrame t (shift_x x) zero3 ConstantBias_zero.

Definition sample_submap (n : Z) (x t0 t1 : double) : SubMap :=
  {| id := n;
     T_world_origin := shift_x x;
     T_origin_endpoint_L := iso_identity;
     T_origin_endpoint_R := iso_identity;
     merged_keyframe := sample_cloud;
     voxelmaps := [];
     optim_odom_frames := [sample_frame x t0; sample_frame x t1];
     origin_odom_frames := [sample_frame x t0; sample_frame x t1] |}.

(** An overlap evaluation that answers [q] whatever the clouds. *)
Definition constant_overlap (q : double) (_ : GaussianVoxelMap) (_ : PointCloud)
    (_ : Isometry3d) : double := q.

(** The storing solver with every overlap at 0.5, CPU build. *)
Definition storing : Collaborators StoredSolver (list double) :=
  reference_collaborators false (constant_overlap (1 # 2)) store_update.

(** A fresh back end on the storing solver. *)
Definition fresh_backend (p : GlobalMappingParams) : GlobalMapping (ISAM2 := StoredSolver) :=
  mkGlobalMapping p 0%N ([] : list double) [] [] [] [] (mkStored [] []) [].

(** A back end holding one submap at the origin, as the first insertion
    leaves it. *)
Definition one_submap_backend : GlobalMapping (ISAM2 := StoredSolver) :=
  mkGlobalMapping (set_enable_imu false default_params) 0%N ([] : list double)
    [set_voxelmaps (build_voxelmaps CPU 1%Q default_params sample_cloud)
                   (sample_submap 0 0%Q 0%Q 1%Q)]
    [sample_cloud] [] []
    (mkStored [Some (LinearDampingFactor (X 0) 6 10000000000%Q)]
              [(X 0, Value_Pose3 (shift_x 0%Q))])
    [].

Unset Implicit Arguments.

(** ** Vocabulary of the properties *)

Section Vocabulary.

Context {ISAM2 IMUIntegration : Type} {ext : Collaborators ISAM2 IMUIntegration}.

Implicit Types gm : GlobalMapping (ISAM2 := ISAM2) (IMUIntegration := IMUIntegration).



(** The copy that [insert_submap] keeps as registration source. *)
Definition retained_source (submap : SubMap) gm : PointCloud :=
  let sampled := fst (random_sampling (merged_keyframe submap)
                        (randomsampling_rate (params gm)) (mt gm)) in
  if GTSAM_POINTS_USE_CUDA && enable_gpu (params gm)
  then PointCloudGPU_clone sampled else sampled.

(** VGICP matching-cost factors, on either device. *)
Definition is_vgicp (f : Factor) : bool :=
  match f with
  | IntegratedVGICPFactor _ _ _ _ | IntegratedVGICPFactorGPU _ _ _ _ => true
  | _ => false
  end.

(** Every entry is a VGICP matching-cost factor. *)
Definition all_vgicp (g : NonlinearFactorGraph) : Prop :=
  forallb (fun factor : option Factor =>
             match factor with
             | Some f => is_vgicp f
             | None => false
             end) g = true.

(** What one iteration leaves in [previous_overlap]. *)
Definition overlap_seen (current : Z) (cur : SubMap) gm (i : Z) (si : SubMap)
    (voxelmap : GaussianVoxelMap) (previous_overlap : double) : double :=
  if norm_gt (sub3 (translation (T_world_origin si)) (translation (T_world_origin cur)))
             (max_implicit_loop_distance (params gm))
  then previous_overlap
  else if i =? current - 1
       then overlap_auto voxelmap (merged_keyframe cur) (relative_pose si cur)
       else previous_overlap.

(** The submaps are voxelised: each holds at least one voxel map. *)
Definition voxelized gm : Prop :=
  Forall (fun s => voxelmaps s <> []) (submaps gm).

(** No entry is a [LinearDampingFactor]. *)
Definition no_damping (g : NonlinearFactorGraph) : Prop :=
  forallb (fun factor : option Factor =>
             match factor with
             | Some f => negb (is_LinearDampingFactor f)
             | None => true
             end) g = true.

(** What deserialisation leaves in the object it was given. *)
Definition deserialized {A : Type} (file : Deserialized A) : A :=
  match file with
  | Loaded a => a
  | LoadThrows _ partial => partial
  end.

(** Deserialisation succeeded, or failed with an archive exception. *)
Definition archive_only {A : Type} (file : Deserialized A) : Prop :=
  match file with
  | Loaded _ => True
  | LoadThrows ArchiveException _ => True
  | LoadThrows _ _ => False
  end.

(** The submap comes with its odometry frames. *)
Definition has_frames (s : SubMap) : Prop :=
  optim_odom_frames s <> [] /\ origin_odom_frames s <> [].

(** The variables of a back end holding [n] submaps, with their types. *)
Definition expected_kind (imu : bool) (n : Z) (k : Key) : option ValueKind :=
  let i := Symbol.index k in
  if chr_is "x" k
  then (if (0 <=? i) && (i <? n) then Some Kind_Pose3 else None)
  else if imu && (1 <=? i) && (i <? 2 * n)
       then (if chr_is "e" k then Some Kind_Pose3
             else if chr_is "v" k then Some Kind_Vector3
             else if chr_is "b" k then Some Kind_ConstantBias
             else None)
       else None.

(** The state between two calls of the façade: the vectors agree in size,
    every submap is voxelised and has its odometry frames, nothing is
    pending, and the solver holds the expected variables. *)
Record consistent gm : Prop := {
  c_subsampled : size (subsampled_submaps gm) = size (submaps gm);
  c_voxelized : voxelized gm;
  c_frames : Forall has_frames (submaps gm);
  c_new_values : new_values gm = [];
  c_theta : forall k,
    kind_at (getLinearizationPoint (isam2 gm)) k
    = expected_kind (enable_imu (params gm)) (size (submaps gm)) k;
  c_estimate : forall i,
    0 <= i < size (submaps gm) ->
    kind_at (calculateEstimate (isam2 gm)) (X i) = Some Kind_Pose3
}.

(** Every entry is a factor between submap poses: a pose between-factor or a
    VGICP factor. *)
Definition pose_chain (g : NonlinearFactorGraph) : Prop :=
  forallb (fun factor : option Factor =>
             match factor with
             | Some f => is_vgicp f || is_BetweenFactor_Pose3 f
             | None => false
             end) g = true.

(** Velocity between-factors. *)
Definition is_BetweenFactor_Vector3 (f : Factor) : bool :=
  match f with BetweenFactor_Vector3 _ _ _ _ => true | _ => false end.

(** No entry is an [ImuFactor] or a velocity between-factor. *)
Definition no_gap_factor (g : NonlinearFactorGraph) : Prop :=
  forallb (fun factor : option Factor =>
             match factor with
             | Some f => negb (is_ImuFactor f || is_BetweenFactor_Vector3 f)
             | None => true
             end) g = true.

(** The factor that links the right endpoint of submap [current - 1] to the
    left endpoint of submap [current] (lines 208-214). *)
Definition imu_gap_factor (current num_integrated : Z) (pim : PreintegratedImuMeasurements)
    : Factor :=
  let last := current - 1 in
  if num_integrated <? 2
  then BetweenFactor_Vector3 (V (last * 2 + 1)) (V (current * 2)) zero3
         (Isotropic_Precision 3 1%Q)
  else ImuFactor (E (last * 2 + 1)) (V (last * 2 + 1)) (E (current * 2)) (V (current * 2))
         (B (last * 2 + 1)) pim.

(** The variables that the insertion of submap [current] adds, with their
    types. *)
Definition pending_kinds (imu : bool) (current : Z) : list (Key * ValueKind) :=
  (X current, Kind_Pose3) ::
  (if imu
   then (if 0 <? current
         then [(E (current * 2), Kind_Pose3); (V (current * 2), Kind_Vector3);
               (B (current * 2), Kind_ConstantBias)]
         else [])
        ++ [(E (current * 2 + 1), Kind_Pose3); (V (current * 2 + 1), Kind_Vector3);
            (B (current * 2 + 1), Kind_ConstantBias)]
   else []).

(** The keys of a [Values] with the types of their values. *)
Definition kinds_of (vs : Values) : list (Key * ValueKind) :=
  map (fun kv => (fst kv, kind_of (snd kv))) vs.

(** The factors that tie the endpoint variables of submap [current] to
    [X(current)] (lines 186-198). *)
Definition imu_endpoint_factors (current : Z) (submap : SubMap) (fL fR : EstimationFrame)
    : NonlinearFactorGraph :=
  let R := linear (T_world_origin submap) in
  let v_origin_imuL := mat_vec (mat_inverse R) (v_world_imu fL) in
  let v_origin_imuR := mat_vec (mat_inverse R) (v_world_imu fR) in
  (if 0 <? current
   then [Some (BetweenFactor_Pose3 (X current) (E (current * 2))
                 (T_origin_endpoint_L submap) prior_noise6);
         Some (RotateVector3Factor (X current) (V (current * 2)) v_origin_imuL prior_noise3);
         Some (PriorFactor_ConstantBias (B (current * 2)) (imu_bias fL) prior_noise6);
         Some (BetweenFactor_ConstantBias (B (current * 2)) (B (current * 2 + 1))
                 ConstantBias_zero prior_noise6)]
   else [])
  ++ [Some (BetweenFactor_Pose3 (X current) (E (current * 2 + 1))
              (T_origin_endpoint_R submap) prior_noise6);
      Some (RotateVector3Factor (X current) (V (current * 2 + 1)) v_origin_imuR prior_noise3);
      Some (PriorFactor_ConstantBias (B (current * 2 + 1)) (imu_bias fR) prior_noise6)].

(** Lookup in such a list of typed keys. *)
Fixpoint lookup_kind (ks : list (Key * ValueKind)) (k : Key) : option ValueKind :=
  match ks with
  | [] => None
  | (k', c) :: ks' => if Symbol.eqb k' k then Some c else lookup_kind ks' k
  end.

(** The contract assumed of the solver for the variable-set invariant: a
    new solver holds no variable; an update that brings only new
    variables succeeds and the solver then holds its old variables and
    the new ones, with their types; the estimate covers the same
    variables as the linearisation point. *)
Record stores_values : Prop := {
  stores_new : forall b p k, kind_at (getLinearizationPoint (isam2_new b p)) k = None;
  stores_update : forall s g v,
    (forall k, kind_at (getLinearizationPoint s) k <> None -> kind_at v k = None) ->
    exists s' r,
      isam2_update s g v = Updated s' r
      /\ forall k,
           kind_at (getLinearizationPoint s') k
           = match kind_at (getLinearizationPoint s) k with
             | Some x => Some x
             | None => kind_at v k
             end;
  stores_estimate : forall s k,
    kind_at (calculateEstimate s) k = kind_at (getLinearizationPoint s) k
}.

(** The fields of a submap that [update_submaps] leaves alone. *)
Definition shape (s : SubMap) :=
  (voxelmaps s, optim_odom_frames s, origin_odom_frames s).

(** The variables of the specification: [X(0..n-1)] and, with IMU,
    [E(j)], [V(j)], [B(j)] for [1 <= j < 2n]. *)
Definition solver_variable (imu : bool) (n : Z) (k : Key) : Prop :=
  (exists i, 0 <= i < n /\ k = X i)
  \/ (imu = true /\ exists j, 1 <= j < 2 * n /\ (k = E j \/ k = V j \/ k = B j)).

(** The pair a factor contributes to [existing_factors]. *)
Definition xx_pair (f : Factor) : list (Z * Z) :=
  match keys f with
  | [sym1; sym2] =>
      if negb (chr_is "x" sym1) || negb (chr_is "x" sym2) then []
      else [Vector3i (Symbol.index sym1) (Symbol.index sym2)]
  | _ => []
  end.

(** The pairs recorded by the scan of a graph without null entries. *)
Definition pairs_of (g : NonlinearFactorGraph) : list (Z * Z) :=
  flat_map (fun factor : option Factor =>
              match factor with Some f => xx_pair f | None => [] end) g.

End Vocabulary.

(** *** Scenarios *)

Definition unwrap {A : Type} (d : A) (o : Outcome A) : A :=
  match o with Returned a => a | _ => d end.

(** The overlap of the low-overlap guard scenario. *)
Definition low_overlap : Collaborators StoredSolver (list double) :=
  reference_collaborators false (constant_overlap (1 # 20)) store_update.

(** A solver that reports an indeterminate system near [V(3)] as long as no
    damping factor sits on [X(1)], and stores otherwise. *)
Definition damped_at_X1 (factor : option Factor) : bool :=
  match factor with
  | Some (LinearDampingFactor k _ _) => Symbol.eqb k (X 1)
  | _ => false
  end.

Definition needs_damping_update (s : StoredSolver) (g : NonlinearFactorGraph) (v : Values)
    : UpdateOutcome StoredSolver :=
  if existsb damped_at_X1 (stored_factors s ++ g)
  then store_update s g v
  else UpdateThrows s (IndeterminantLinearSystemException (V 3)).

Definition needs_damping : Collaborators StoredSolver (list double) :=
  reference_collaborators false (constant_overlap (1 # 2)) needs_damping_update.

(** A solver that stores what it is given and whose estimate of [X(2)]
    moves to 2.5 along x with every update. *)
Definition drift_update (s : StoredSolver) (g : NonlinearFactorGraph) (v : Values)
    : UpdateOutcome StoredSolver :=
  Updated (mkStored (stored_factors s ++ g)
             (insert_or_assign [(X 2, Value_Pose3 (shift_x (5 # 2)))] (stored_theta s ++ v)))
          empty_result.

Definition drifting : Collaborators StoredSolver (list double) :=
  reference_collaborators false (constant_overlap (1 # 2)) drift_update.



Definition three_submaps : list SubMap :=
  [sample_submap 0 0%Q 0%Q 1%Q; sample_submap 1 2%Q 2%Q 3%Q; sample_submap 2 4%Q 4%Q 5%Q].

Definition two_submaps : list SubMap :=
  [sample_submap 0 0%Q 0%Q 1%Q; sample_submap 1 2%Q 2%Q 3%Q].

Definition no_imu_params : GlobalMappingParams := set_enable_imu false default_params.

(** Two submaps inserted with IMU, on the storing solver. *)
Definition two_submaps_backend : GlobalMapping (ISAM2 := StoredSolver) :=
  unwrap (fresh_backend default_params)
    (for_each (insert_submap (ext := storing) 0) two_submaps (fresh_backend default_params)).

(** One submap inserted with IMU, on the storing solver. *)
Definition first_submap_backend : GlobalMapping (ISAM2 := StoredSolver) :=
  unwrap (fresh_backend default_params)
    (insert_submap (ext := storing) 0 (sample_submap 0 0%Q 0%Q 1%Q)
       (fresh_backend default_params)).


(** Three submaps 2 m apart, inserted without IMU with every overlap at 0.05:
    only the safety-net between-factors link them. *)
Definition sparse_backend : GlobalMapping (ISAM2 := StoredSolver) :=
  unwrap (fresh_backend no_imu_params)
    (for_each (insert_submap (ext := low_overlap) 0) three_submaps
       (fresh_backend no_imu_params)).

(** The same three submaps with loops searched up to 3 m only: [X(0)] and
    [X(2)], 4 m apart, are not linked. *)
Definition short_range_backend : GlobalMapping (ISAM2 := StoredSolver) :=
  unwrap (fresh_backend (set_max_implicit_loop_distance 3%Q no_imu_params))
    (for_each (insert_submap (ext := storing) 0) three_submaps
       (fresh_backend (set_max_implicit_loop_distance 3%Q no_imu_params))).

(** The state inside the insertion of the second submap, after the private
    [insert_submap]: both submaps voxelised. *)
Definition second_inserted : GlobalMapping (ISAM2 := StoredSolver) :=
  snd (insert_submap_at (ext := low_overlap) 1 (sample_submap 1 2%Q 2%Q 3%Q)
         (snd (insert_submap_at (ext := low_overlap) 0 (sample_submap 0 0%Q 0%Q 1%Q)
                 (fresh_backend no_imu_params)))).

(** A quarter turn about the z axis, and a submap turned by it that stands
    at [(x, y, 0)]. *)
Definition quarter_turn : Matrix3d :=
  mat3 (vec3 0%Q (-1)%Q 0%Q) (vec3 1%Q 0%Q 0%Q) (vec3 0%Q 0%Q 1%Q).

Definition turned_submap (n : Z) (x y : double) (cloud : PointCloud) (t0 t1 : double)
    : SubMap :=
  {| id := n;
     T_world_origin := iso quarter_turn (vec3 x y 0%Q);
     T_origin_endpoint_L := iso_identity;
     T_origin_endpoint_R := iso_identity;
     merged_keyframe := cloud;
     voxelmaps := [];
     optim_odom_frames := [sample_frame x t0; sample_frame x t1];
     origin_odom_frames := [sample_frame x t0; sample_frame x t1] |}.

(** Inside the insertion of the second submap, both submaps voxelised: the
    first one turned and standing at [(1, 0, 0)], the second one at
    [(2, 0, 0)], 1 m away. *)
Definition turned_pair (p : GlobalMappingParams) : GlobalMapping (ISAM2 := StoredSolver) :=
  snd (insert_submap_at (ext := low_overlap) 1 (sample_submap 1 2%Q 2%Q 3%Q)
         (snd (insert_submap_at (ext := low_overlap) 0
                (turned_submap 0 1%Q 0%Q sample_cloud 0%Q 1%Q)
                 (fresh_backend p)))).



(** The pose of the second submap of [turned_pair] seen from the first. *)
Definition turned_pair_delta : Isometry3d :=
  iso (mat3 (vec3 0%Q 1%Q 0%Q) (vec3 (-1)%Q 0%Q 0%Q) (vec3 0%Q 0%Q 1%Q))
      (vec3 0%Q (-1)%Q 0%Q).

(** A dump of two submaps whose [graph.bin] cannot be deserialised; [e] is
    the exception thrown. *)
Definition sample_values : Values :=
  [(X 0, Value_Pose3 (shift_x 0%Q)); (X 1, Value_Pose3 (shift_x 2%Q))].

Definition broken_dump (e : Exception) : DumpDirectory :=
  {| graph_txt := Some (mkGraphTxt 2 4 []);
     submap_dir := fun i => if i =? 0 then Some (sample_submap 0 0%Q 0%Q 1%Q)
                            else if i =? 1 then Some (sample_submap 1 2%Q 2%Q 3%Q)
                            else None;
     graph_bin := LoadThrows e [];
     values_bin := Loaded sample_values |}.

(** The back end of [load] once the submaps of the dump are in. *)
Definition reloaded_submaps : GlobalMapping (ISAM2 := StoredSolver) :=
  match load_submaps (ext := storing) (submap_dir (broken_dump StdException)) (range 0 2)
          (fresh_backend no_imu_params) with
  | Some gm => gm
  | None => fresh_backend no_imu_params
  end.

(** ** Vocabulary of the further properties *)

Section FurtherVocabulary.

Context {ISAM2 IMUIntegration : Type} {ext : Collaborators ISAM2 IMUIntegration}.

Implicit Types gm : GlobalMapping (ISAM2 := ISAM2) (IMUIntegration := IMUIntegration).

(** The device of the matching-cost factors that the configured
    [registration_error_factor_type] selects in this build, if any. *)
Definition registration_device gm : option bool :=
  if String.eqb (registration_error_factor_type (params gm)) "VGICP" then Some false
  else if GTSAM_POINTS_USE_CUDA
          && String.eqb (registration_error_factor_type (params gm)) "VGICP_GPU"
       then Some true
       else None.

(** One VGICP factor per voxel map of [target], in the order of the voxel
    maps, between [X(i)] and [X(j)], with [source] as source cloud; the
    factors are GPU factors when [gpu] is set. *)
Definition one_per_voxelmap (gpu : bool) (i j : Z) (target : SubMap) (source : PointCloud)
    : NonlinearFactorGraph :=
  map (fun voxelmap : GaussianVoxelMap =>
         Some (if gpu
               then IntegratedVGICPFactorGPU (X i) (X j) voxelmap source
               else IntegratedVGICPFactor (X i) (X j) voxelmap source))
      (voxelmaps target).

(** Submap [si] passes the distance and the overlap test of
    [create_matching_cost_factors] against the inserted submap [cur]. *)
Definition implicit_loop (cur si : SubMap) (voxelmap : GaussianVoxelMap) gm : Prop :=
  norm_gt (sub3 (translation (T_world_origin si)) (translation (T_world_origin cur)))
          (max_implicit_loop_distance (params gm)) = false
  /\ (min_implicit_loop_overlap (params gm)
      <= overlap_auto voxelmap (merged_keyframe cur)
           (iso_mul (iso_inverse (T_world_origin si)) (T_world_origin cur)))%Q.

(** The between-factor that keeps the inserted submap attached to its
    predecessor. *)
Definition safety_net_factor (current : Z) (sl sc : SubMap) : Factor :=
  BetweenFactor_Pose3 (X (current - 1)) (X current)
                      (iso_mul (iso_inverse (T_world_origin sl)) (T_world_origin sc))
                      (Isotropic_Precision 6 1000000%Q).

(** What one iteration of the loop of [create_matching_cost_factors] adds. *)
Definition matching_cost_piece (current : Z) (cur : SubMap) gm (i : Z)
    (extra : NonlinearFactorGraph) : Prop :=
  exists si,
    at_index (submaps gm) i = Returned si
    /\ ((extra = []
         /\ forall voxelmap gpu,
              back (voxelmaps si) = Returned voxelmap ->
              registration_device gm = Some gpu ->
              ~ implicit_loop cur si voxelmap gm)
        \/ exists voxelmap source gpu,
             back (voxelmaps si) = Returned voxelmap
             /\ at_index (subsampled_submaps gm) current = Returned source
             /\ registration_device gm = Some gpu
             /\ implicit_loop cur si voxelmap gm
             /\ extra = one_per_voxelmap gpu i current si source).

(** Submaps [si] and [sj] pass the distance and the overlap test of
    [find_overlapping_submaps]. *)
Definition explicit_loop (min_overlap : double) gm (si sj : SubMap)
    (voxelmap : GaussianVoxelMap) (source : PointCloud) : Prop :=
  norm_gt (translation (iso_mul (iso_inverse (T_world_origin si)) (T_world_origin sj)))
          (max_implicit_loop_distance (params gm)) = false
  /\ (min_overlap
      <= overlap_auto voxelmap source
           (iso_mul (iso_inverse (T_world_origin si)) (T_world_origin sj)))%Q.

(** The device of the factors that [find_overlapping_submaps] creates for a
    target voxel map and a source cloud. *)
Definition overlap_device (voxelmap : GaussianVoxelMap) (source : PointCloud) : bool :=
  GTSAM_POINTS_USE_CUDA && is_gpu_voxelmap voxelmap && points_gpu source.

(** What the pair [(i, j)] contributes to the factors of
    [find_overlapping_submaps]. *)
Definition overlap_piece (min_overlap : double) (existing_factors : list (Z * Z)) gm
    (i j : Z) (extra : NonlinearFactorGraph) : Prop :=
  (extra = []
   /\ (count_pair existing_factors i j = true
       \/ forall si sj voxelmap source,
            at_index (submaps gm) i = Returned si ->
            at_index (submaps gm) j = Returned sj ->
            back (voxelmaps si) = Returned voxelmap ->
            at_index (subsampled_submaps gm) j = Returned source ->
            ~ explicit_loop min_overlap gm si sj voxelmap source))
  \/ (count_pair existing_factors i j = false
      /\ exists si sj voxelmap source,
           at_index (submaps gm) i = Returned si
           /\ at_index (submaps gm) j = Returned sj
           /\ back (voxelmaps si) = Returned voxelmap
           /\ at_index (subsampled_submaps gm) j = Returned source
           /\ explicit_loop min_overlap gm si sj voxelmap source
           /\ extra = one_per_voxelmap (overlap_device voxelmap source) i j si source).

(** The pairs [(i, j)] that the two nested loops of
    [find_overlapping_submaps] visit on [n] submaps, in the order of the
    visit. *)
Definition loop_pairs (n : Z) : list (Z * Z) :=
  flat_map (fun i => map (pair i) (range (i + 1) n)) (range 0 n).

(** A second contract of the solver, on its factors: a new solver holds
    none, and an update appends the factors it is given. *)
Record appends_factors : Prop := {
  appends_new : forall b p, getFactorsUnsafe (isam2_new b p) = [];
  appends_update : forall s g v s' r,
    isam2_update s g v = Updated s' r -> getFactorsUnsafe s' = getFactorsUnsafe s ++ g
}.

(** The calls of the façade and a run of them. *)
Inductive Call : Type :=
| call_insert_imu (stamp : double) (linear_acc angular_vel : Vector3d)
| call_insert_submap (submap : SubMap)
| call_find_overlapping_submaps (min_overlap : double)
| call_optimize.

Definition run_call (fuel : nat) (c : Call) gm : Outcome GlobalMapping :=
  match c with
  | call_insert_imu stamp linear_acc angular_vel =>
      Returned (insert_imu stamp linear_acc angular_vel gm)
  | call_insert_submap submap => insert_submap fuel submap gm
  | call_find_overlapping_submaps min_overlap => find_overlapping_submaps fuel min_overlap gm
  | call_optimize => optimize fuel gm
  end.

(** The submaps that a run inserts. *)
Definition inserted_submaps (calls : list Call) : list SubMap :=
  flat_map (fun c => match c with call_insert_submap submap => [submap] | _ => [] end) calls.

(** The solver's graph links every submap pose to the next one. *)
Definition chained gm : Prop :=
  forall i, 0 <= i -> i + 1 < size (submaps gm) ->
    exists f, In (Some f) (getFactorsUnsafe (isam2 gm)) /\ keys f = [X i; X (i + 1)].

(** The damping factors of a graph. *)
Definition damping_factors (g : NonlinearFactorGraph) : NonlinearFactorGraph :=
  filter (fun factor : option Factor =>
            match factor with
            | Some f => is_LinearDampingFactor f
            | None => false
            end) g.

(** Between-factors are enabled or the registration factor type is one the
    build supports. *)
Definition links_enabled gm : Prop :=
  enable_between_factors (params gm) = true \/ registration_device gm <> None.

(** The state between two calls of the façade on a solver that honours
    both contracts. *)
Record well_formed gm : Prop := {
  wf_consistent : consistent gm;
  wf_pending : new_factors gm = [];
  wf_not_null : Forall (fun factor => not_null factor = true) (getFactorsUnsafe (isam2 gm));
  wf_anchor :
    damping_factors (getFactorsUnsafe (isam2 gm))
    = if size (submaps gm) =? 0 then []
      else [Some (LinearDampingFactor (X 0) 6 (init_pose_damping_scale (params gm)))];
  wf_chained : links_enabled gm -> chained gm
}.

(** A line of [graph.txt] that [load] turns into factors. *)
Definition supported_line (type : string) : bool :=
  String.eqb type "vgicp" || String.eqb type "vgicp_gpu".

(** What one line of [graph.txt] contributes to the graph that [load]
    builds: nothing when the type is not supported, when the GPU is asked
    for in a build without CUDA or when the target submap has no voxel map;
    otherwise one VGICP factor per voxel map of the target submap. *)
Definition line_piece gm (line : string * Z * Z) (extra : NonlinearFactorGraph) : Prop :=
  (extra = []
   /\ (supported_line (fst (fst line)) = false
       \/ enable_gpu (params gm) && negb GTSAM_POINTS_USE_CUDA = true
       \/ exists target, at_index (submaps gm) (snd (fst line)) = Returned target
                         /\ voxelmaps target = []))
  \/ exists target source,
       supported_line (fst (fst line)) = true
       /\ enable_gpu (params gm) && negb GTSAM_POINTS_USE_CUDA = false
       /\ at_index (submaps gm) (snd (fst line)) = Returned target
       /\ at_index (subsampled_submaps gm) (snd line) = Returned source
       /\ extra = one_per_voxelmap (enable_gpu (params gm)) (snd (fst line)) (snd line)
                    target source.

(** What [load] makes of the stored submap [stored]: the submap it keeps
    and the source cloud it retains.  Only the voxel maps differ from the
    stored submap; they are built from the retained source, on the device
    that [enable_gpu] selects, and there is none when the GPU is asked for
    in a build without CUDA. *)
Definition loaded_from (p : GlobalMappingParams) (stored submap : SubMap)
    (source : PointCloud) : Prop :=
  submap = set_voxelmaps (voxelmaps submap) stored
  /\ (if enable_gpu p
      then if GTSAM_POINTS_USE_CUDA
           then points_gpu source = true
                /\ List.length (voxelmaps submap) = Z.to_nat (submap_voxelmap_levels p)
                /\ forall vm, In vm (voxelmaps submap) ->
                     vm_inserted vm = points source /\ vm_device vm = GPU
           else voxelmaps submap = []
      else List.length (voxelmaps submap) = Z.to_nat (submap_voxelmap_levels p)
           /\ forall vm, In vm (voxelmaps submap) ->
                vm_inserted vm = points source /\ vm_device vm = CPU)
  /\ (Qgtb (randomsampling_rate p) (99 # 100) = true ->
      points source = points (merged_keyframe stored)).

(** One step of 20 microseconds, and the times that follow a stamp:
    [count] steps accumulated one by one, as the loop does. *)
Definition las_step (t : double) : double := (t + (2 # 100000))%Q.

Definition stamp_times (count : nat) (stamp : double) : list double :=
  map (fun k : nat => Nat.iter (S k) las_step stamp) (seq 0 count).

(** The times of a submap of [n] points: every stamp is followed by
    [n / stamps_count + 1] times; the first [n] of them are kept, and the
    rest of the vector, if any, stays zero. *)
Definition las_times (n : Z) (stamps : list double) : list double :=
  let per_stamp := Z.to_nat (Z.quot n (size stamps) + 1) in
  let times := List.concat (map (stamp_times per_stamp) stamps) in
  firstn (Z.to_nat n) times ++ repeat 0%Q (Z.to_nat n - List.length times).

(** The factors that [save] serialises, null slots included. *)
Definition serializable (factor : option Factor) : bool :=
  match factor with
  | Some f => negb (is_matching_cost f)
  | None => true
  end.

(** The two indices of a line of [graph.txt]. *)
Definition line_pair (line : string * Z * Z) : Z * Z := (snd (fst line), snd line).

(** Symbol indices are unsigned in the code. *)
Definition unsigned_keys (g : NonlinearFactorGraph) : Prop :=
  forall f k, In (Some f) g -> In k (keys f) -> 0 <= Symbol.index k.

(** No underscore in a string. *)
Fixpoint no_underscore (s : string) : Prop :=
  match s with
  | EmptyString => True
  | String c s' => c <> "_"%char /\ no_underscore s'
  end.

(** The patch values of a repair so far: distinct keys, none of them held
    by the values under repair. *)
Definition fresh_patch (values vals : Values) : Prop :=
  NoDup (values_keys vals)
  /\ forall k, In k (values_keys vals) -> values_exists values k = false.

(** A repair so far that adds nothing an IMU graph is recognised by: no
    [ImuFactor], and no [E], [V] or [B] value unless the graph under repair
    is an IMU graph already. *)
Definition imu_free (imu : bool) (st : NonlinearFactorGraph * Values) : Prop :=
  graph_enable_imu (fst st) (if imu then [] else snd st) = false.

End FurtherVocabulary.


(** *** Scenarios of the further properties *)

(** A run of the façade: IMU data, two submaps, a loop search and an
    optimisation, on the storing solver. *)
Definition sample_calls : list Call :=
  [call_insert_imu 0%Q zero3 zero3;
   call_insert_submap (sample_submap 0 0%Q 0%Q 1%Q);
   call_insert_submap (sample_submap 1 2%Q 2%Q 3%Q);
   call_find_overlapping_submaps (1 # 10);
   call_optimize].

Definition sample_run : GlobalMapping (ISAM2 := StoredSolver) :=
  unwrap (fresh_backend default_params)
    (for_each (run_call (ext := storing) 1) sample_calls
       (GlobalMapping_new (ext := storing) default_params 0%N [])).

Definition set_registration_error_factor_type (type : string) (p : GlobalMappingParams)
    : GlobalMappingParams :=
  mkParams (enable_gpu p) (enable_imu p) (enable_optimization p) (enable_between_factors p)
    (between_registration_type p) type
    (submap_voxel_resolution p) (submap_voxel_resolution_max p)
    (submap_voxel_resolution_dmin p) (submap_voxel_resolution_dmax p)
    (submap_voxelmap_levels p) (submap_voxelmap_scaling_factor p) (randomsampling_rate p)
    (max_implicit_loop_distance p) (min_implicit_loop_overlap p) (use_isam2_dogleg p)
    (isam2_relinearize_skip p) (isam2_relinearize_thresh p) (init_pose_damping_scale p).



(** Two voxelised submaps, as inside the insertion of the second one, with
    the registration factor type VGICP. *)
Definition second_voxelized : GlobalMapping (ISAM2 := StoredSolver) :=
  snd (insert_submap_at (ext := storing) 1 (sample_submap 1 2%Q 2%Q 3%Q)
         (snd (insert_submap_at (ext := storing) 0 (sample_submap 0 0%Q 0%Q 1%Q)
                 (fresh_backend no_imu_params)))).

(** The same with the registration factor type GICP, which
    [create_matching_cost_factors] does not know. *)
Definition unknown_type_backend : GlobalMapping (ISAM2 := StoredSolver) :=
  snd (insert_submap_at (ext := storing) 1 (sample_submap 1 2%Q 2%Q 3%Q)
         (snd (insert_submap_at (ext := storing) 0 (sample_submap 0 0%Q 0%Q 1%Q)
                 (fresh_backend
                    (set_registration_error_factor_type "GICP" no_imu_params))))).

(** The two voxelised submaps with a solver whose only factor links
    [X(2^32)] and [X(2^32 + 1)]. *)
Definition wrapped_backend : GlobalMapping (ISAM2 := StoredSolver) :=
  set_isam2 (mkStored [Some (BetweenFactor_Pose3 (X 4294967296) (X 4294967297) iso_identity
                               (Isotropic_Precision 6 1000000%Q))] [])
            second_voxelized.

(** One submap and a solver whose graph has a null slot. *)
Definition null_slot_backend : GlobalMapping (ISAM2 := StoredSolver) :=
  set_isam2 (mkStored [None] [(X 0, Value_Pose3 (shift_x 0%Q))]) one_submap_backend.



(** What [save] writes of the graph of [two_submaps_backend], and a dump
    directory that holds it together with the two submaps. *)
Definition saved_backend : SavedGraph * GlobalMapping (ISAM2 := StoredSolver) :=
  unwrap (mkSavedGraph [] [] (mkGraphTxt 0 0 []), two_submaps_backend)
    (save_graph (ext := storing) (fun m => m) 1 two_submaps_backend).


(** ** Basic facts *)

Lemma Qltb_lt (a b : double) : Qltb a b = true <-> (a < b)%Q.
Proof.
  unfold Qltb. rewrite negb_true_iff. split; intro H.
  - apply Qnot_le_lt. intro Hle. apply Qle_bool_iff in Hle. congruence.
  - destruct (Qle_bool b a) eqn:Hb; [|reflexivity].
    apply Qle_bool_iff in Hb. exfalso. exact (Qlt_not_le _ _ H Hb).
Qed.

Lemma Qltb_ge (a b : double) : Qltb a b = false <-> (b <= a)%Q.
Proof.
  unfold Qltb. rewrite negb_false_iff. apply Qle_bool_iff.
Qed.

Lemma Symbol_eqb_spec (a b : Key) : reflect (a = b) (Symbol.eqb a b).
Proof.
  destruct a as [c i], b as [d j]; unfold Symbol.eqb; cbn [Symbol.chr Symbol.index].
  destruct (Ascii.eqb_spec c d) as [->|Hc]; cbn [andb].
  - destruct (Z.eqb_spec i j) as [->|Hi]; constructor; congruence.
  - constructor; congruence.
Qed.

Lemma Symbol_eqb_refl (a : Key) : Symbol.eqb a a = true.
Proof. destruct (Symbol_eqb_spec a a); congruence. Qed.

Lemma bind_Returned_inv {A B : Type} (m : Outcome A) (f : A -> Outcome B) (b : B) :
  bind m f = Returned b -> exists a, m = Returned a /\ f a = Returned b.
Proof. destruct m; cbn; intro H; try discriminate. eauto. Qed.

Lemma for_each_app {A St : Type} (body : A -> St -> Outcome St) (l1 l2 : list A) (s : St) :
  for_each body (l1 ++ l2) s = (s' <- for_each body l1 s;; for_each body l2 s').
Proof.
  revert s; induction l1 as [|a l1 IH]; intro s; cbn; [reflexivity|].
  destruct (body a s); cbn; auto.
Qed.

Lemma range_nil (lo hi : Z) : hi <= lo -> range lo hi = [].
Proof.
  intro H. unfold range. replace (Z.to_nat (hi - lo)) with O by lia. reflexivity.
Qed.

Lemma range_snoc (lo hi : Z) : lo <= hi -> range lo (hi + 1) = range lo hi ++ [hi].
Proof.
  intro H. unfold range.
  replace (Z.to_nat (hi + 1 - lo)) with (S (Z.to_nat (hi - lo))) by lia.
  rewrite seq_S, map_app. cbn. do 2 f_equal. lia.
Qed.

Lemma range_cons (lo hi : Z) : lo < hi -> range lo hi = lo :: range (lo + 1) hi.
Proof.
  intro H. unfold range.
  replace (Z.to_nat (hi - lo)) with (S (Z.to_nat (hi - (lo + 1)))) by lia.
  cbn [seq map]. f_equal; [lia|].
  rewrite <- seq_shift, map_map. apply map_ext. intro k. lia.
Qed.

Lemma In_range (lo hi i : Z) : In i (range lo hi) <-> lo <= i < hi.
Proof.
  unfold range. rewrite in_map_iff. split.
  - intros [k [<- Hk]]. apply in_seq in Hk. lia.
  - intro H. exists (Z.to_nat (i - lo)). split; [lia|]. apply in_seq. lia.
Qed.

Section Properties.

Context {ISAM2 IMUIntegration : Type} {ext : Collaborators ISAM2 IMUIntegration}.

Implicit Types gm : GlobalMapping (ISAM2 := ISAM2) (IMUIntegration := IMUIntegration).

(** The key left by the [try] block is always the null key. *)
Lemma try_update_key (s s' : ISAM2) factors values result k :
  try_update s factors values = Returned (s', result, k) -> k = Symbol.null.
Proof.
  unfold try_update. destruct (isam2_update s factors values) as [s1 r|s1 e].
  - intro H; inversion H; reflexivity.
  - destruct e; intro H; inversion H; reflexivity.
Qed.

(** [update_isam2] never enters its repair branch: whatever the budget, it
    is one solver update. *)
Lemma update_isam2_eq fuel factors values gm :
  update_isam2 fuel factors values gm =
  match isam2_update (isam2 gm) factors values with
  | Updated s result => Returned (result, set_isam2 s gm)
  | UpdateThrows _ (IndeterminantLinearSystemException _) => Exited 1
  | UpdateThrows s _ => Returned (empty_result, set_isam2 s gm)
  end.
Proof.
  destruct fuel; cbn [update_isam2]; unfold try_update;
    destruct (isam2_update (isam2 gm) factors values) as [s r|s e];
    try destruct e; reflexivity.
Qed.

Lemma update_isam2_frame fuel factors values gm result gm' :
  update_isam2 fuel factors values gm = Returned (result, gm') ->
  exists s, gm' = set_isam2 s gm.
Proof.
  rewrite update_isam2_eq.
  destruct (isam2_update (isam2 gm) factors values) as [s r|s e];
    try destruct e; intro H; inversion H; eauto.
Qed.

(** *** The empty back end *)

(** C10: with no submap, [find_overlapping_submaps] returns at once for every
    [min_overlap]: the state it returns is the state it was given, so the
    solver, the pending graph and values, the submap list and the trace of
    callbacks are all unchanged. *)
Theorem find_overlapping_submaps_no_submaps fuel min_overlap gm :
  submaps gm = [] ->
  find_overlapping_submaps fuel min_overlap gm = Returned gm.
Proof.
  intro H. unfold find_overlapping_submaps. rewrite H. reflexivity.
Qed.

(** *** Indeterminate systems *)

(** C1 (as the code has it): when the solver update raises the
    indeterminate-system exception, [update_isam2] terminates the process
    with status 1, and so do [optimize] and [insert_submap]; the nearby
    variable is never read, no damping factor is added and nothing is
    retried.  Any other exception of the update is swallowed and the empty
    result is returned. *)
Theorem update_isam2_indeterminate_exits fuel gm k :
  (forall factors values s,
     isam2_update (isam2 gm) factors values
       = UpdateThrows s (IndeterminantLinearSystemException k) ->
     update_isam2 fuel factors values gm = Exited 1)
  /\ (forall s,
        isam2_empty (isam2 gm) = false ->
        isam2_update (isam2 gm) [] [] = UpdateThrows s (IndeterminantLinearSystemException k) ->
        optimize fuel gm = Exited 1)
  /\ (forall submap submap' gm' s,
        insert_submap_assemble submap gm = Returned (submap', gm') ->
        isam2_update (isam2 gm') (new_factors gm') (new_values gm')
          = UpdateThrows s (IndeterminantLinearSystemException k) ->
        insert_submap fuel submap gm = Exited 1)
  /\ (forall factors values s e,
        isam2_update (isam2 gm) factors values = UpdateThrows s e ->
        (forall k', e <> IndeterminantLinearSystemException k') ->
        update_isam2 fuel factors values gm = Returned (empty_result, set_isam2 s gm)).
Proof.
  repeat split.
  - intros factors values s H. rewrite update_isam2_eq, H. reflexivity.
  - intros s He H. unfold optimize. rewrite He, update_isam2_eq. cbn [notify isam2].
    rewrite H. reflexivity.
  - intros submap submap' gm' s Ha H. unfold insert_submap. rewrite Ha. cbn [bind].
    rewrite update_isam2_eq. unfold notify. cbn [isam2 new_factors new_values].
    rewrite H. reflexivity.
  - intros factors values s e H He. rewrite update_isam2_eq, H.
    destruct e; try reflexivity. now elim (He nearbyVariable).
Qed.

(** *** Export *)





(** [update_submaps] rewrites the poses and nothing else. *)
Lemma update_submaps_from_spec (s : ISAM2) (l : list SubMap) : forall i l',
  update_submaps_from s i l = Returned l' ->
  List.length l' = List.length l
  /\ forall n sm, nth_error l n = Some sm ->
      exists T, calculateEstimate_Pose3 s (X (i + Z.of_nat n)) = Returned T
                /\ nth_error l' n = Some (set_T_world_origin T sm).
Proof.
  induction l as [|a l IH]; intros i l' H; cbn in H.
  - inversion H; subst. split; [reflexivity|]. intros [|n] sm Hn; discriminate.
  - apply bind_Returned_inv in H as [T [HT H]].
    apply bind_Returned_inv in H as [rest [Hrest H]].
    inversion H; subst; clear H.
    destruct (IH _ _ Hrest) as [Hlen Hnth]. split; [cbn; congruence|].
    intros [|n] sm Hn; cbn in Hn.
    + inversion Hn; subst. exists T. rewrite Z.add_0_r. split; [assumption|reflexivity].
    + destruct (Hnth n sm Hn) as [T' [HT' Hn']]. exists T'.
      replace (i + Z.of_nat (S n)) with (i + 1 + Z.of_nat n) by lia. split; assumption.
Qed.






(** *** Subsampling and voxel maps *)

Lemma build_voxelmaps_inserted dev base p cloud vm :
  In vm (build_voxelmaps dev base p cloud) ->
  vm_inserted vm = points cloud /\ vm_device vm = dev.
Proof.
  unfold build_voxelmaps. rewrite in_map_iff. intros [i [<- _]]. split; reflexivity.
Qed.

Lemma build_voxelmaps_length dev base p cloud :
  List.length (build_voxelmaps dev base p cloud) = Z.to_nat (submap_voxelmap_levels p).
Proof. unfold build_voxelmaps. now rewrite length_map, length_seq. Qed.

Lemma build_voxelmaps_nonempty dev base p cloud :
  0 < submap_voxelmap_levels p -> build_voxelmaps dev base p cloud <> [].
Proof.
  intros H E0. apply (f_equal (@List.length _)) in E0.
  rewrite build_voxelmaps_length in E0. cbn in E0. lia.
Qed.

Lemma is_empty_true {A : Type} (l : list A) : is_empty l = true <-> l = [].
Proof. destruct l; cbn; split; congruence. Qed.

(** C2 (as the code has it): with [randomsampling_rate < 0.99] the inserted
    submap's registration source is the random-subsampled copy of the merged
    keyframe (cloned to the device in a CUDA build with [enable_gpu]); every
    voxel map of the submap, the coarsest included, is built from that
    subsampled copy, and from the full merged keyframe only in a CUDA build
    with [enable_gpu]. *)
Theorem insert_submap_at_subsampled current submap gm :
  (randomsampling_rate (params gm) < 99 # 100)%Q ->
  let submap' := fst (insert_submap_at current submap gm) in
  let gm' := snd (insert_submap_at current submap gm) in
  subsampled_submaps gm' = subsampled_submaps gm ++ [retained_source submap gm]
  /\ submaps gm' = submaps gm ++ [submap']
  /\ List.length (voxelmaps submap') = Z.to_nat (submap_voxelmap_levels (params gm))
  /\ forall vm, In vm (voxelmaps submap') ->
       vm_inserted vm
       = if GTSAM_POINTS_USE_CUDA && enable_gpu (params gm)
         then points (merged_keyframe submap)
         else points (retained_source submap gm).
Proof.
  intros Hrate.
  assert (Hg : Qgtb (randomsampling_rate (params gm)) (99 # 100) = false).
  { unfold Qgtb. apply Qltb_ge. now apply Qlt_le_weak. }
  unfold insert_submap_at, retained_source. rewrite Hg.
  destruct (random_sampling (merged_keyframe (set_voxelmaps [] submap))
              (randomsampling_rate (params gm)) (mt gm)) as [sampled mt'] eqn:Hs.
  cbn [set_voxelmaps merged_keyframe] in Hs. rewrite Hs. cbn [fst snd].
  destruct (GTSAM_POINTS_USE_CUDA && enable_gpu (params gm)) eqn:Hgpu; cbn [andb].
  - destruct (negb (points_gpu (merged_keyframe (set_voxelmaps [] submap))));
      cbn [set_voxelmaps set_merged_keyframe merged_keyframe voxelmaps
           subsampled_submaps submaps set_subsampled_submaps set_submaps set_mt].
    + destruct (is_empty (build_voxelmaps GPU _ (params gm)
                            (PointCloudGPU_clone (merged_keyframe submap)))) eqn:He;
        cbn [voxelmaps set_voxelmaps];
        (split; [reflexivity|split; [reflexivity|split]]).
      * apply is_empty_true in He. rewrite build_voxelmaps_length.
        rewrite <- (build_voxelmaps_length GPU
          (base_resolution_of (params gm) (merged_keyframe submap)) (params gm)
          (PointCloudGPU_clone (merged_keyframe submap))). now rewrite He.
      * intros vm Hvm. apply is_empty_true in He.
        assert (Hl := build_voxelmaps_length CPU
          (base_resolution_of (params gm) (merged_keyframe submap)) (params gm)
          (PointCloudGPU_clone sampled)).
        rewrite <- (build_voxelmaps_length GPU
          (base_resolution_of (params gm) (merged_keyframe submap)) (params gm)
          (PointCloudGPU_clone (merged_keyframe submap))) in Hl.
        rewrite He in Hl. cbn in Hl.
        destruct (build_voxelmaps CPU _ (params gm) (PointCloudGPU_clone sampled));
          [destruct Hvm|discriminate].
      * apply build_voxelmaps_length.
      * intros vm Hvm. now apply build_voxelmaps_inserted in Hvm as [-> _].
    + destruct (is_empty (build_voxelmaps GPU _ (params gm) (merged_keyframe submap))) eqn:He;
        cbn [voxelmaps set_voxelmaps];
        (split; [reflexivity|split; [reflexivity|split]]).
      * apply build_voxelmaps_length.
      * intros vm Hvm. apply is_empty_true in He.
        assert (Hl := build_voxelmaps_length CPU
          (base_resolution_of (params gm) (merged_keyframe submap)) (params gm)
          (PointCloudGPU_clone sampled)).
        rewrite <- (build_voxelmaps_length GPU
          (base_resolution_of (params gm) (merged_keyframe submap)) (params gm)
          (merged_keyframe submap)) in Hl.
        rewrite He in Hl. cbn in Hl.
        destruct (build_voxelmaps CPU _ (params gm) (PointCloudGPU_clone sampled));
          [destruct Hvm|discriminate].
      * apply build_voxelmaps_length.
      * intros vm Hvm. now apply build_voxelmaps_inserted in Hvm as [-> _].
  - cbn [set_voxelmaps set_merged_keyframe merged_keyframe voxelmaps is_empty
         subsampled_submaps submaps set_subsampled_submaps set_submaps set_mt].
    split; [reflexivity|split; [reflexivity|split]].
    + apply build_voxelmaps_length.
    + intros vm Hvm. now apply build_voxelmaps_inserted in Hvm as [-> _].
Qed.

(** *** Vectors *)

Lemma at_index_Returned {A : Type} (l : list A) (i : Z) :
  0 <= i < size l -> exists a, at_index l i = Returned a.
Proof.
  intros [H0 H1]. unfold at_index. destruct (Z.ltb_spec i 0); [lia|].
  destruct (nth_error l (Z.to_nat i)) eqn:Hn; [eauto|].
  apply nth_error_None in Hn. unfold size in H1. lia.
Qed.

Lemma at_index_inv {A : Type} (l : list A) (i : Z) (a : A) :
  at_index l i = Returned a -> 0 <= i < size l /\ nth_error l (Z.to_nat i) = Some a.
Proof.
  unfold at_index. destruct (Z.ltb_spec i 0); [discriminate|].
  destruct (nth_error l (Z.to_nat i)) eqn:Hn; [|discriminate].
  intro E0; inversion E0; subst. split; [|reflexivity].
  assert (Hlt : (Z.to_nat i < List.length l)%nat) by (apply nth_error_Some; congruence).
  unfold size. lia.
Qed.

Lemma at_index_In {A : Type} (l : list A) (i : Z) (a : A) :
  at_index l i = Returned a -> In a l.
Proof. intro H. apply at_index_inv in H as [_ H]. eapply nth_error_In; eauto. Qed.

Lemma at_index_app_last {A : Type} (l : list A) (a : A) :
  at_index (l ++ [a]) (size l) = Returned a.
Proof.
  unfold at_index, size. destruct (Z.ltb_spec (Z.of_nat (List.length l)) 0); [lia|].
  rewrite Nat2Z.id, nth_error_app2, Nat.sub_diag by lia. reflexivity.
Qed.

Lemma at_index_app_first {A : Type} (l : list A) (a : A) (i : Z) :
  i < size l -> at_index (l ++ [a]) i = at_index l i.
Proof.
  intro H. unfold at_index. destruct (Z.ltb_spec i 0); [reflexivity|].
  rewrite nth_error_app1; [reflexivity|]. unfold size in H. lia.
Qed.

Lemma back_app {A : Type} (l : list A) (a : A) : back (l ++ [a]) = Returned a.
Proof.
  induction l as [|b l IH]; [reflexivity|].
  cbn [app back]. destruct (l ++ [a]) eqn:E0; [destruct l; discriminate|]. exact IH.
Qed.

Lemma back_Returned {A : Type} (l : list A) : l <> [] -> exists a, back l = Returned a.
Proof.
  intro H. destruct (exists_last H) as [l' [a ->]]. exists a. apply back_app.
Qed.

Lemma front_Returned {A : Type} (l : list A) : l <> [] -> exists a, front l = Returned a.
Proof. destruct l; [congruence|]. cbn. eauto. Qed.

Lemma size_app {A : Type} (l1 l2 : list A) : size (l1 ++ l2) = size l1 + size l2.
Proof. unfold size. rewrite length_app. lia. Qed.

(** *** The matching-cost chain *)

Lemma all_vgicp_app g1 g2 : all_vgicp g1 -> all_vgicp g2 -> all_vgicp (g1 ++ g2).
Proof. unfold all_vgicp. rewrite forallb_app. intros -> ->. reflexivity. Qed.

Lemma all_vgicp_vgicp gpu i j target source :
  all_vgicp (vgicp_factors gpu i j target source).
Proof.
  unfold all_vgicp, vgicp_factors. apply forallb_forall. intros x Hx.
  apply in_map_iff in Hx as [vm [<- _]]. destruct gpu; reflexivity.
Qed.

Lemma matching_cost_body_spec current cur gm i factors po si voxelmap source :
  at_index (submaps gm) i = Returned si ->
  back (voxelmaps si) = Returned voxelmap ->
  at_index (subsampled_submaps gm) current = Returned source ->
  exists extra,
    matching_cost_body current cur gm i (factors, po)
    = Returned (factors ++ extra, overlap_seen current cur gm i si voxelmap po)
    /\ all_vgicp extra.
Proof.
  intros Hsi Hvm Hsrc. unfold matching_cost_body, overlap_seen. rewrite Hsi. cbn [bind].
  destruct (norm_gt _ _).
  - exists []. rewrite app_nil_r. split; reflexivity.
  - rewrite Hvm. cbn [bind]. destruct (Qltb _ _).
    + exists []. rewrite app_nil_r. split; reflexivity.
    + destruct (String.eqb _ "VGICP").
      * rewrite Hsrc. cbn [bind]. eexists. split; [reflexivity|apply all_vgicp_vgicp].
      * destruct (GTSAM_POINTS_USE_CUDA && _).
        -- rewrite Hsrc. cbn [bind]. eexists. split; [reflexivity|apply all_vgicp_vgicp].
        -- exists []. rewrite app_nil_r. split; reflexivity.
Qed.

Lemma matching_cost_loop current cur gm pred voxelmap :
  1 <= current ->
  size (submaps gm) = current + 1 ->
  size (subsampled_submaps gm) = size (submaps gm) ->
  voxelized gm ->
  at_index (submaps gm) (current - 1) = Returned pred ->
  back (voxelmaps pred) = Returned voxelmap ->
  forall n, (n <= Z.to_nat current)%nat ->
  exists factors,
    for_each (matching_cost_body current cur gm) (range 0 (Z.of_nat n)) ([], 0%Q)
    = Returned (factors,
                if Z.of_nat n =? current
                then overlap_seen current cur gm (current - 1) pred voxelmap 0%Q
                else 0%Q)
    /\ all_vgicp factors.
Proof.
  intros Hc Hsize Hsub Hvox Hpred Hvm n. induction n as [|n IH]; intro Hn.
  - exists []. change (Z.of_nat 0) with 0.
    destruct (Z.eqb_spec 0 current); [lia|]. split; reflexivity.
  - destruct IH as [factors [Hloop Hnb]]; [lia|].
    replace (Z.of_nat (S n)) with (Z.of_nat n + 1) by lia.
    rewrite range_snoc, for_each_app, Hloop by lia. cbn [bind for_each].
    destruct (Z.eqb_spec (Z.of_nat n) current) as [|_]; [lia|].
    destruct (at_index_Returned (submaps gm) (Z.of_nat n)) as [si Hsi]; [lia|].
    assert (Hsi' : exists vmi, back (voxelmaps si) = Returned vmi).
    { apply back_Returned. unfold voxelized in Hvox. rewrite Forall_forall in Hvox.
      apply Hvox. eapply at_index_In; eauto. }
    destruct Hsi' as [vmi Hvmi].
    destruct (at_index_Returned (subsampled_submaps gm) current) as [src Hsrc]; [lia|].
    destruct (matching_cost_body_spec current cur gm (Z.of_nat n) factors 0%Q si vmi src
                Hsi Hvmi Hsrc) as [extra [Hbody Hex]].
    rewrite Hbody. cbn [bind]. exists (factors ++ extra).
    split; [|now apply all_vgicp_app]. f_equal. f_equal.
    destruct (Z.eqb_spec (Z.of_nat n + 1) current) as [E1|E1].
    + replace (Z.of_nat n) with (current - 1) in * by lia.
      rewrite Hpred in Hsi. inversion Hsi; subst si.
      rewrite Hvm in Hvmi. inversion Hvmi; subst vmi. reflexivity.
    + unfold overlap_seen. destruct (Z.eqb_spec (Z.of_nat n) (current - 1)); [lia|].
      now destruct (norm_gt _ _).
Qed.

Lemma std_max_quarter_pos (x : double) : (0 < std_max (1 # 4) x)%Q.
Proof.
  unfold std_max. destruct (Qltb (1 # 4) x) eqn:H.
  - apply Qltb_lt in H. eapply Qlt_trans; [|exact H]. reflexivity.
  - reflexivity.
Qed.

(** C3: when the predecessor is beyond [max_implicit_loop_distance], so that
    its overlap is never evaluated, or when the overlap between the
    predecessor's coarsest voxel map and the current submap is below
    [max(0.25, min_implicit_loop_overlap)], [create_matching_cost_factors]
    returns the matching-cost factors followed by one [BetweenFactor] from
    [X(last)] to [X(current)] whose measurement is their current relative
    pose, the inverse of the predecessor's [T_world_origin] times the
    [T_world_origin] of the current submap, with isotropic precision 1e6 on
    6 DoF; everything before it is a VGICP matching-cost factor, so it is
    the only between-factor. *)
Theorem create_matching_cost_factors_safety_net current gm pred cur voxelmap :
  1 <= current ->
  size (submaps gm) = current + 1 ->
  size (subsampled_submaps gm) = size (submaps gm) ->
  voxelized gm ->
  at_index (submaps gm) (current - 1) = Returned pred ->
  at_index (submaps gm) current = Returned cur ->
  back (voxelmaps pred) = Returned voxelmap ->
  norm_gt (sub3 (translation (T_world_origin pred)) (translation (T_world_origin cur)))
          (max_implicit_loop_distance (params gm)) = true
  \/ (overlap_auto voxelmap (merged_keyframe cur)
        (iso_mul (iso_inverse (T_world_origin pred)) (T_world_origin cur))
      < std_max (1 # 4) (min_implicit_loop_overlap (params gm)))%Q ->
  exists factors,
    create_matching_cost_factors current gm
    = Returned (factors ++
                [Some (BetweenFactor_Pose3 (X (current - 1)) (X current)
                         (iso_mul (iso_inverse (T_world_origin pred)) (T_world_origin cur))
                         (Isotropic_Precision 6 1000000%Q))])
    /\ all_vgicp factors.
Proof.
  intros Hc Hsize Hsub Hvox Hpred Hcur Hvm Hov.
  unfold create_matching_cost_factors.
  destruct (Z.eqb_spec current 0); [lia|].
  assert (Hback : back (submaps gm) = Returned cur).
  { apply at_index_inv in Hcur as [_ Hn].
    destruct (submaps gm) as [|s0 l] eqn:El using rev_ind; [destruct (Z.to_nat current); discriminate|].
    clear IHl. rewrite size_app in Hsize. cbn in Hsize.
    rewrite nth_error_app2 in Hn by (unfold size in Hsize; lia).
    replace (Z.to_nat current - List.length l)%nat with O in Hn
      by (unfold size in Hsize; lia).
    cbn in Hn. inversion Hn; subst. apply back_app. }
  rewrite Hback. cbn [bind].
  destruct (matching_cost_loop current cur gm pred voxelmap Hc Hsize Hsub Hvox Hpred Hvm
              (Z.to_nat current))
    as [factors [Hloop Hnb]]; [lia|].
  rewrite Z2Nat.id in Hloop by lia. rewrite Hloop. cbn [bind].
  rewrite Z.eqb_refl.
  assert (Hlt : Qltb (overlap_seen current cur gm (current - 1) pred voxelmap 0%Q)
                     (std_max (1 # 4) (min_implicit_loop_overlap (params gm))) = true).
  { apply Qltb_lt. unfold overlap_seen. rewrite Z.eqb_refl.
    destruct Hov as [Hgate|Hov]; [rewrite Hgate; apply std_max_quarter_pos|].
    destruct (norm_gt _ _); [apply std_max_quarter_pos|exact Hov]. }
  rewrite Hlt, Hpred, Hcur. cbn [bind]. exists factors. split; [reflexivity|exact Hnb].
Qed.

(** *** Graph repair *)

Ltac invert_run :=
  repeat match goal with
         | H : bind ?m _ = Returned _ |- _ =>
             let a := fresh "a" in
             let Ha := fresh "Ha" in
             apply bind_Returned_inv in H as [a [Ha H]]
         | H : (let '(_, _) := ?p in _) = Returned _ |- _ => destruct p
         | H : Returned _ = Returned _ |- _ => inversion H; subst; clear H
         | H : (if ?b then _ else _) = Returned _ |- _ => destruct b
         | H : insert_if ?b _ _ _ = Returned _ |- _ => clear H
         end.

Lemma no_damping_emplace f g :
  is_LinearDampingFactor f = false -> no_damping g -> no_damping (emplace_shared f g).
Proof.
  unfold no_damping, emplace_shared. intros Hf Hg. rewrite forallb_app, Hg.
  cbn. now rewrite Hf.
Qed.

Lemma no_damping_emplace_if b f g :
  is_LinearDampingFactor f = false -> no_damping g -> no_damping (emplace_if b f g).
Proof. destruct b; cbn [emplace_if]; auto using no_damping_emplace. Qed.

Lemma for_each_invariant {A St : Type} (P : St -> Prop) (body : A -> St -> Outcome St) :
  (forall a s s', P s -> body a s = Returned s' -> P s') ->
  forall l s s', P s -> for_each body l s = Returned s' -> P s'.
Proof.
  intros Hbody l. induction l as [|a l IH]; intros s s' Hs H; cbn in H.
  - inversion H; subst; assumption.
  - apply bind_Returned_inv in H as [s1 [H1 H]]. eauto.
Qed.

Lemma recover_body_no_damping graph values imu gm i st st' :
  no_damping (fst st) ->
  recover_body graph values imu gm i st = Returned st' ->
  no_damping (fst st').
Proof.
  destruct st as [factors vals]. cbn [fst]. intros Hnd H. unfold recover_body in H.
  invert_run; cbn [fst];
    repeat first [ assumption
                 | apply no_damping_emplace_if; [reflexivity|]
                 | apply no_damping_emplace; [reflexivity|] ].
Qed.

(** The patch returned by [recover_graph] holds no damping factor at all;
    the prior it adds for [X(0)] is appended to the pending graph of the
    back end. *)
Lemma recover_graph_patch graph values gm factors vals gm' :
  recover_graph graph values gm = Returned (factors, vals, gm') ->
  no_damping factors
  /\ submaps gm' = submaps gm /\ isam2 gm' = isam2 gm
  /\ new_factors gm'
     = if prior_exists graph then new_factors gm
       else new_factors gm ++ [Some (LinearDampingFactor (X 0) 6
                                       (init_pose_damping_scale (params gm)))].
Proof.
  unfold recover_graph. intro H.
  apply bind_Returned_inv in H as [[f v] [Hloop H]]. inversion H; subst; clear H.
  split.
  - apply (for_each_invariant (fun st => no_damping (fst st)) _
             (fun a s s' => recover_body_no_damping _ _ _ _ a s s')
             _ ([], []) (factors, vals) eq_refl Hloop).
  - destruct (prior_exists graph); cbn; auto.
Qed.

(** *** Reload *)

Lemma deserialize_fst {A : Type} (file : Deserialized A) b :
  fst (deserializeFromBinaryFile file b) = deserialized file.
Proof. destruct file as [a|e p]; [reflexivity|]. destruct e; reflexivity. Qed.

Lemma deserialize_snd_throws {A : Type} e (p : A) b :
  e <> ArchiveException -> snd (deserializeFromBinaryFile (LoadThrows e p) b) = true.
Proof. destruct e; cbn; congruence. Qed.

Lemma deserialize_snd_mono {A : Type} (file : Deserialized A) :
  snd (deserializeFromBinaryFile file true) = true.
Proof. destruct file as [a|e p]; [reflexivity|]. destruct e; reflexivity. Qed.

Lemma load_graph_eq dump lines gm :
  load_graph dump lines gm =
  (let needs_recover :=
     snd (deserializeFromBinaryFile (values_bin dump)
            (snd (deserializeFromBinaryFile (graph_bin dump) false))) in
   graph <- for_each (load_matching_cost gm) lines (deserialized (graph_bin dump));;
   let values := deserialized (values_bin dump) in
   let needs_recover :=
     if negb (size (filter not_null graph) =? size graph) then true else needs_recover in
   let graph := filter not_null graph in
   if needs_recover
   then
     r <- recover_graph graph values gm;;
     Returned (graph_add (fst (fst r)) graph, insert_or_assign (snd (fst r)) values,
               needs_recover, snd r)
   else Returned (graph, values, needs_recover, gm)).
Proof.
  unfold load_graph.
  rewrite <- (deserialize_fst (graph_bin dump) false).
  destruct (deserializeFromBinaryFile (graph_bin dump) false) as [g b1]. cbn [fst snd].
  rewrite <- (deserialize_fst (values_bin dump) b1).
  destruct (deserializeFromBinaryFile (values_bin dump) b1) as [v b2]. cbn [fst snd].
  destruct (for_each (load_matching_cost gm) lines g); cbn [bind]; try reflexivity.
  destruct (if negb (size (filter not_null a) =? size a) then true else b2); [|reflexivity].
  destruct (recover_graph (filter not_null a) v gm) as [[[pf pv] g1]| | | |]; reflexivity.
Qed.

Lemma load_eq fuel dump txt gm0 gm graph values flag gm1 :
  graph_txt dump = Some txt ->
  0 <= num_submaps txt ->
  load_submaps (submap_dir dump) (range 0 (num_submaps txt))
    (set_subsampled_submaps [] (set_submaps [] gm0)) = Some gm ->
  load_graph dump (matching_cost_factors txt) gm = Returned (graph, values, flag, gm1) ->
  match isam2_update (isam2 gm1) graph values with
  | UpdateThrows _ (IndeterminantLinearSystemException _) => load fuel dump gm0 = Exited 1
  | Updated s _ | UpdateThrows s _ =>
      forall l, update_submaps_from s 0 (submaps gm1) = Returned l ->
      exists gm2, load fuel dump gm0 = Returned (true, gm2)
                  /\ submaps gm2 = l /\ isam2 gm2 = s
                  /\ In (on_smoother_update graph values) (callbacks gm2)
  end.
Proof.
  intros Htxt Hn Hsub Hgraph.
  assert (Hl : load fuel dump gm0 =
    (x <- update_isam2 fuel graph values (notify (on_smoother_update graph values) gm1);;
     let '(result, g) := x in
     g' <- update_submaps (notify (on_smoother_update_result result) g);;
     Returned (true, notify (on_update_submaps (submaps g')) g'))).
  { unfold load. rewrite Htxt. destruct (Z.ltb_spec (num_submaps txt) 0); [lia|].
    rewrite Hsub, Hgraph. reflexivity. }
  rewrite Hl, update_isam2_eq.
  change (isam2 (notify (on_smoother_update graph values) gm1)) with (isam2 gm1).
  destruct (isam2_update (isam2 gm1) graph values) as [s r|s e1].
  - intros l Hsm. cbn [bind]. unfold update_submaps. cbn [notify set_isam2 isam2 submaps].
    rewrite Hsm. cbn [bind]. eexists. split; [reflexivity|].
    cbn. split; [reflexivity|split; [reflexivity|]].
    rewrite !in_app_iff. cbn. auto.
  - destruct e1; try reflexivity;
      (intros l Hsm; cbn [bind]; unfold update_submaps;
       cbn [notify set_isam2 isam2 submaps]; rewrite Hsm; cbn [bind];
       eexists; split; [reflexivity|];
       cbn; split; [reflexivity|split; [reflexivity|]];
       rewrite !in_app_iff; cbn; auto).
Qed.

(** C8 (as the code has it): when deserialising [graph.bin] or [values.bin]
    throws an exception other than [boost::archive::archive_exception],
    [needs_recover] is set, [recover_graph] runs on the deserialised graph
    and values, its patch is appended to the graph and merged into the
    values handed to the final solver update, and [load] returns [true] when
    that update and the pose read-back complete; an indeterminate system in
    that update terminates the process.  When the only exceptions are archive
    exceptions and no null factor was removed, the flag stays unset and the
    graph and values go to the solver without the repair. *)
Theorem load_recovers_on_std_exception fuel dump txt gm0 gm graph1 :
  graph_txt dump = Some txt ->
  0 <= num_submaps txt ->
  load_submaps (submap_dir dump) (range 0 (num_submaps txt))
    (set_subsampled_submaps [] (set_submaps [] gm0)) = Some gm ->
  for_each (load_matching_cost gm) (matching_cost_factors txt) (deserialized (graph_bin dump))
    = Returned graph1 ->
  (forall e pf pv gm1,
     e <> ArchiveException ->
     (exists p, graph_bin dump = LoadThrows e p) \/ (exists p, values_bin dump = LoadThrows e p) ->
     recover_graph (filter not_null graph1) (deserialized (values_bin dump)) gm
       = Returned (pf, pv, gm1) ->
     let graph := filter not_null graph1 ++ pf in
     let values := insert_or_assign pv (deserialized (values_bin dump)) in
     load_graph dump (matching_cost_factors txt) gm = Returned (graph, values, true, gm1)
     /\ match isam2_update (isam2 gm1) graph values with
        | UpdateThrows _ (IndeterminantLinearSystemException _) =>
            load fuel dump gm0 = Exited 1
        | Updated s _ | UpdateThrows s _ =>
            forall l, update_submaps_from s 0 (submaps gm1) = Returned l ->
            exists gm2, load fuel dump gm0 = Returned (true, gm2)
                        /\ submaps gm2 = l /\ isam2 gm2 = s
                        /\ In (on_smoother_update graph values) (callbacks gm2)
        end)
  /\ (archive_only (graph_bin dump) ->
      archive_only (values_bin dump) ->
      filter not_null graph1 = graph1 ->
      load_graph dump (matching_cost_factors txt) gm
      = Returned (graph1, deserialized (values_bin dump), false, gm)).
Proof.
  intros Htxt Hn Hsub Hloop. split.
  - intros e pf pv gm1 He Hthrow Hrec graph values.
    assert (Hflag : snd (deserializeFromBinaryFile (values_bin dump)
                           (snd (deserializeFromBinaryFile (graph_bin dump) false))) = true).
    { destruct Hthrow as [[p Hp]|[p Hp]]; rewrite Hp.
      - rewrite deserialize_snd_throws by assumption. apply deserialize_snd_mono.
      - now apply deserialize_snd_throws. }
    assert (Hgraph : load_graph dump (matching_cost_factors txt) gm
                     = Returned (graph, values, true, gm1)).
    { rewrite load_graph_eq. cbv zeta. rewrite Hflag, Hloop. cbn [bind].
      replace (if negb (size (filter not_null graph1) =? size graph1) then true else true)
        with true by (now destruct (negb _)).
      rewrite Hrec. reflexivity. }
    split; [exact Hgraph|].
    exact (load_eq fuel dump txt gm0 gm graph values true gm1 Htxt Hn Hsub Hgraph).
  - intros Hg Hv Hnull. rewrite load_graph_eq. cbv zeta. rewrite Hloop. cbn [bind].
    rewrite Hnull, Z.eqb_refl. cbn [negb].
    assert (Hflag : snd (deserializeFromBinaryFile (values_bin dump)
                           (snd (deserializeFromBinaryFile (graph_bin dump) false))) = false).
    { destruct (graph_bin dump) as [a|e p]; [|destruct e; try contradiction];
        (destruct (values_bin dump) as [b|e' q]; [|destruct e'; try contradiction]);
        reflexivity. }
    rewrite Hflag. reflexivity.
Qed.

(** *** Consistent back ends *)

Lemma kind_at_Pose3 vs k :
  kind_at vs k = Some Kind_Pose3 -> exists T, at_Pose3 vs k = Returned T.
Proof.
  unfold kind_at, at_Pose3. destruct (lookup vs k) as [[T|v|b]|]; cbn; try discriminate.
  eauto.
Qed.

Lemma kind_at_exists vs k c : kind_at vs k = Some c -> values_exists vs k = true.
Proof. unfold kind_at, values_exists. destruct (lookup vs k); cbn; congruence. Qed.

Lemma insert_submap_at_eq current submap gm :
  exists sm' src mt',
    insert_submap_at current submap gm
    = (sm', set_subsampled_submaps (subsampled_submaps gm ++ [src])
              (set_submaps (submaps gm ++ [sm']) (set_mt mt' gm)))
    /\ T_world_origin sm' = T_world_origin submap
    /\ T_origin_endpoint_L sm' = T_origin_endpoint_L submap
    /\ T_origin_endpoint_R sm' = T_origin_endpoint_R submap
    /\ optim_odom_frames sm' = optim_odom_frames submap
    /\ origin_odom_frames sm' = origin_odom_frames submap
    /\ (0 < submap_voxelmap_levels (params gm) -> voxelmaps sm' <> []).
Proof.
  unfold insert_submap_at.
  destruct (if Qgtb _ _ then _ else _) as [src mt'].
  do 3 eexists. split; [reflexivity|].
  repeat match goal with
         | |- context [if ?b then _ else _] => destruct b eqn:?
         end; cbn in *; repeat split; auto using build_voxelmaps_nonempty;
    try congruence; try discriminate.
Qed.

Lemma set_back_app {A : Type} (l : list A) (a b : A) : set_back b (l ++ [a]) = l ++ [b].
Proof. unfold set_back. now rewrite removelast_last. Qed.

Lemma values_insert_fresh k v vs :
  ~ In k (values_keys vs) -> values_insert k v vs = Returned (vs ++ [(k, v)]).
Proof.
  intro H. unfold values_insert, values_exists.
  assert (Hl : lookup vs k = None).
  { induction vs as [|[k' v'] vs IH]; cbn; [reflexivity|].
    destruct (Symbol_eqb_spec k' k) as [->|Hne]; [exfalso; apply H; now left|].
    apply IH. intro Hin. apply H. now right. }
  now rewrite Hl.
Qed.

Ltac fresh_key :=
  cbn [values_keys map fst app In];
  let H := fresh in
  intro H;
  repeat match type of H with
         | _ \/ _ => destruct H as [H|H]
         end;
  solve [ contradiction | discriminate H | injection H; lia ].

Lemma predict_pose_returns c sm gm l :
  submaps gm = l ++ [sm] ->
  size l = c ->
  Forall has_frames l ->
  has_frames sm ->
  (0 < c -> kind_at (getLinearizationPoint (isam2 gm)) (X (c - 1)) = Some Kind_Pose3) ->
  (0 < c -> kind_at (calculateEstimate (isam2 gm)) (X (c - 1)) = Some Kind_Pose3) ->
  exists T, predict_pose c (c - 1) sm gm = Returned T.
Proof.
  intros Hs Hc Hfl Hfs Hth Hest. unfold predict_pose.
  destruct (Z.eqb_spec c 0) as [->|Hne]; cbn [negb]; [eauto|].
  assert (Hpos : 0 < c) by (unfold size in Hc; lia).
  unfold valueExists. rewrite (kind_at_exists _ _ _ (Hth Hpos)).
  destruct (kind_at_Pose3 _ _ (Hest Hpos)) as [T HT].
  unfold calculateEstimate_Pose3. rewrite HT. cbn [bind]. rewrite Hs.
  destruct (at_index_Returned l (c - 1)) as [sl Hsl]; [lia|].
  rewrite at_index_app_first, Hsl by lia. cbn [bind].
  rewrite <- Hc, at_index_app_last. cbn [bind].
  rewrite Forall_forall in Hfl. destruct (Hfl sl (at_index_In _ _ _ Hsl)) as [_ Ho].
  destruct (back_Returned _ Ho) as [bl ->]. cbn [bind].
  destruct Hfs as [_ Ho']. destruct (front_Returned _ Ho') as [fc ->]. cbn [bind].
  eauto.
Qed.

Lemma all_vgicp_no_between g : all_vgicp g -> forall f, In (Some f) g -> is_vgicp f = true.
Proof. unfold all_vgicp. rewrite forallb_forall. intros H f Hf. exact (H _ Hf). Qed.

Lemma pose_chain_app g1 g2 : pose_chain g1 -> pose_chain g2 -> pose_chain (g1 ++ g2).
Proof. unfold pose_chain. rewrite forallb_app. intros -> ->. reflexivity. Qed.

Lemma all_vgicp_pose_chain g : all_vgicp g -> pose_chain g.
Proof.
  unfold all_vgicp, pose_chain. rewrite !forallb_forall. intros H x Hx.
  specialize (H x Hx). destruct x as [f|]; [|discriminate]. now rewrite H.
Qed.

Lemma create_between_factors_returns c gm l sm :
  submaps gm = l ++ [sm] ->
  size l = c ->
  exists g, create_between_factors c gm = Returned g /\ pose_chain g.
Proof.
  intros Hs Hc. unfold create_between_factors.
  destruct ((c =? 0) || negb (enable_between_factors (params gm))) eqn:Hb.
  - exists []. split; reflexivity.
  - apply orb_false_iff in Hb as [Hc0 _]. apply Z.eqb_neq in Hc0.
    assert (Hpos : 0 < c) by (unfold size in Hc; lia).
    rewrite Hs. destruct (at_index_Returned l (c - 1)) as [sl Hsl]; [lia|].
    rewrite at_index_app_first, Hsl by lia. cbn [bind].
    rewrite <- Hc, at_index_app_last. cbn [bind].
    destruct (String.eqb _ _).
    + eexists. split; reflexivity.
    + destruct (optimize_gicp _ _ _). eexists. split; reflexivity.
Qed.

Lemma create_matching_cost_factors_returns c gm l sm :
  submaps gm = l ++ [sm] ->
  size l = c ->
  size (subsampled_submaps gm) = size (submaps gm) ->
  voxelized gm ->
  exists g, create_matching_cost_factors c gm = Returned g /\ pose_chain g.
Proof.
  intros Hs Hc Hsub Hvox.
  destruct (Z.eqb_spec c 0) as [Hc0|Hne].
  - unfold create_matching_cost_factors. rewrite Hc0. exists []. split; reflexivity.
  - assert (Hpos : 1 <= c) by (unfold size in Hc; lia).
    assert (Hsize : size (submaps gm) = c + 1) by (rewrite Hs, size_app; cbn; lia).
    destruct (at_index_Returned (submaps gm) (c - 1)) as [pred Hpred]; [lia|].
    assert (Hvm : exists vm, back (voxelmaps pred) = Returned vm).
    { apply back_Returned. unfold voxelized in Hvox. rewrite Forall_forall in Hvox.
      apply Hvox. eapply at_index_In; eauto. }
    destruct Hvm as [vm Hvm].
    destruct (matching_cost_loop c sm gm pred vm Hpos Hsize Hsub Hvox Hpred Hvm (Z.to_nat c))
      as [factors [Hloop Hv]]; [lia|].
    unfold create_matching_cost_factors.
    destruct (Z.eqb_spec c 0); [lia|].
    assert (Hback : back (submaps gm) = Returned sm) by (rewrite Hs; apply back_app).
    assert (Hcur : at_index (submaps gm) c = Returned sm)
      by (rewrite Hs, <- Hc; apply at_index_app_last).
    rewrite Hback. cbn [bind].
    rewrite Z2Nat.id in Hloop by lia. rewrite Hloop. cbn [bind].
    destruct (Qltb _ _).
    + rewrite Hpred. cbn [bind]. rewrite Hcur. cbn [bind].
      eexists. split; [reflexivity|]. apply pose_chain_app; [now apply all_vgicp_pose_chain|].
      reflexivity.
    + eexists. split; [reflexivity|now apply all_vgicp_pose_chain].
Qed.

(** *** The IMU chain *)

Lemma no_gap_factor_app g1 g2 :
  no_gap_factor g1 -> no_gap_factor g2 -> no_gap_factor (g1 ++ g2).
Proof. unfold no_gap_factor. rewrite forallb_app. intros -> ->. reflexivity. Qed.

Lemma pose_chain_no_gap_factor g : pose_chain g -> no_gap_factor g.
Proof.
  unfold pose_chain, no_gap_factor. rewrite !forallb_forall. intros H x Hx.
  specialize (H x Hx). destruct x as [f|]; [|discriminate]. now destruct f.
Qed.

Lemma imu_endpoint_factors_no_gap c sm fL fR :
  no_gap_factor (imu_endpoint_factors c sm fL fR).
Proof. unfold imu_endpoint_factors. destruct (0 <? c); reflexivity. Qed.

Lemma imu_chain_spec c sm gm l T :
  submaps gm = l ++ [sm] ->
  size l = c ->
  Forall has_frames l ->
  has_frames sm ->
  new_values gm = [(X c, Value_Pose3 T)] ->
  exists gm' fL fR,
    imu_chain c (c - 1) sm gm = Returned gm'
    /\ front (optim_odom_frames sm) = Returned fL
    /\ back (optim_odom_frames sm) = Returned fR
    /\ submaps gm' = submaps gm
    /\ subsampled_submaps gm' = subsampled_submaps gm
    /\ isam2 gm' = isam2 gm
    /\ params gm' = params gm
    /\ kinds_of (new_values gm') = pending_kinds true c
    /\ (c = 0 -> new_factors gm' = new_factors gm ++ imu_endpoint_factors c sm fL fR)
    /\ (0 < c ->
        exists prev bl,
          at_index l (c - 1) = Returned prev
          /\ back (optim_odom_frames prev) = Returned bl
          /\ let '(cursor, num_integrated, imu) :=
               integrate_imu (imu_integration gm) (stamp bl) (stamp fL) (imu_bias fL) in
             new_factors gm'
             = new_factors gm ++ imu_endpoint_factors c sm fL fR
               ++ [Some (imu_gap_factor c num_integrated
                           (integrated_measurements (erase_imu_data imu cursor)))]).
Proof.
  intros Hs Hc Hfl [Hopt Hori] Hnv. unfold imu_chain.
  destruct (front_Returned _ Hori) as [f0 ->]. cbn [bind].
  destruct (front_Returned _ Hopt) as [fL HfL]. rewrite HfL. cbn [bind].
  destruct (back_Returned _ Hopt) as [fR HfR]. rewrite HfR. cbn [bind].
  assert (Hc0 : 0 <= c) by (unfold size in Hc; lia).
  rewrite Hnv. unfold imu_endpoint_factors, pending_kinds.
  destruct (Z.ltb_spec 0 c) as [Hpos|Hzero].
  - rewrite (values_insert_fresh (E (c * 2))) by fresh_key. cbn [bind app].
    rewrite (values_insert_fresh (V (c * 2))) by fresh_key. cbn [bind app].
    rewrite (values_insert_fresh (B (c * 2))) by fresh_key. cbn [bind app].
    rewrite (values_insert_fresh (E (c * 2 + 1))) by fresh_key. cbn [bind app].
    rewrite (values_insert_fresh (V (c * 2 + 1))) by fresh_key. cbn [bind app].
    rewrite (values_insert_fresh (B (c * 2 + 1))) by fresh_key. cbn [bind app].
    destruct (Z.eqb_spec c 0) as [|_]; [lia|]. cbn [negb].
    cbn [submaps set_new_factors set_new_values]. rewrite Hs.
    destruct (at_index_Returned l (c - 1)) as [prev Hprev]; [lia|].
    rewrite at_index_app_first, Hprev by lia. cbn [bind].
    rewrite Forall_forall in Hfl. destruct (Hfl prev (at_index_In _ _ _ Hprev)) as [Ho _].
    destruct (back_Returned _ Ho) as [bl Hbl]. rewrite Hbl. cbn [bind].
    assert (Hcur : at_index (l ++ [sm]) c = Returned sm)
      by (rewrite <- Hc; apply at_index_app_last).
    rewrite Hcur. cbn [bind]. rewrite HfL. cbn [bind].
    cbn [imu_integration set_new_factors set_new_values].
    destruct (integrate_imu (imu_integration gm) (stamp bl) (stamp fL) (imu_bias fL))
      as [[cursor num] imu] eqn:Hint.
    destruct (num <? 2) eqn:Hn;
      (eexists; exists fL, fR; split; [reflexivity|]; cbn;
       do 2 (split; [reflexivity|]);
       (split; [exact Hs|]); do 4 (split; [reflexivity|]);
       (split; [lia|]);
       intros _; exists prev, bl; rewrite Hint;
       repeat split; try assumption;
       unfold imu_gap_factor, emplace_shared; rewrite Hn;
       rewrite <- !app_assoc; reflexivity).
  - assert (Hz : c = 0) by lia. revert Hc. subst c. intro Hc.
    cbn [bind]. change (0 * 2 + 1) with 1.
    rewrite (values_insert_fresh (E 1)) by fresh_key. cbn [bind app].
    rewrite (values_insert_fresh (V 1)) by fresh_key. cbn [bind app].
    rewrite (values_insert_fresh (B 1)) by fresh_key. cbn [bind app].
    cbn [Z.eqb negb]. eexists. exists fL, fR. split; [reflexivity|]. cbn.
    do 7 (split; [reflexivity|]).
    split; [intros _; reflexivity|lia].
Qed.

Lemma insert_submap_assemble_spec submap gm :
  consistent gm ->
  has_frames submap ->
  0 < submap_voxelmap_levels (params gm) ->
  exists sm' gm' chain,
    insert_submap_assemble submap gm = Returned (sm', gm')
    /\ submaps gm' = submaps gm ++ [sm']
    /\ size (subsampled_submaps gm') = size (submaps gm')
    /\ voxelmaps sm' <> []
    /\ optim_odom_frames sm' = optim_odom_frames submap
    /\ origin_odom_frames sm' = origin_odom_frames submap
    /\ isam2 gm' = isam2 gm
    /\ params gm' = params gm
    /\ kinds_of (new_values gm') = pending_kinds (enable_imu (params gm)) (size (submaps gm))
    /\ no_gap_factor chain
    /\ (enable_imu (params gm) = false -> new_factors gm' = new_factors gm ++ chain)
    /\ (enable_imu (params gm) = true ->
        exists fL fR,
          front (optim_odom_frames submap) = Returned fL
          /\ back (optim_odom_frames submap) = Returned fR
          /\ (size (submaps gm) = 0 ->
              new_factors gm'
              = new_factors gm ++ chain ++ imu_endpoint_factors 0 sm' fL fR)
          /\ (0 < size (submaps gm) ->
              exists prev bl,
                at_index (submaps gm) (size (submaps gm) - 1) = Returned prev
                /\ back (optim_odom_frames prev) = Returned bl
                /\ let '(cursor, num_integrated, imu) :=
                     integrate_imu (imu_integration gm) (stamp bl) (stamp fL) (imu_bias fL) in
                   new_factors gm'
                   = new_factors gm ++ chain
                     ++ imu_endpoint_factors (size (submaps gm)) sm' fL fR
                     ++ [Some (imu_gap_factor (size (submaps gm)) num_integrated
                                 (integrated_measurements (erase_imu_data imu cursor)))])).
Proof.
  intros Hok Hfr Hlev. destruct Hok as [Hsub Hvox Hframes Hnv Hth Hest].
  unfold insert_submap_assemble.
  destruct (insert_submap_at_eq (size (submaps gm)) submap gm)
    as [sm1 [src [mt' [Hat [HT [HL [HR [Hopt [Hori Hvm]]]]]]]]].
  rewrite Hat. clear Hat. specialize (Hvm Hlev).
  set (c := size (submaps gm)) in *.
  assert (Hc0 : 0 <= c) by (unfold c, size; lia).
  set (gm1 := set_subsampled_submaps _ _).
  assert (Hfr1 : has_frames sm1) by (unfold has_frames; rewrite Hopt, Hori; exact Hfr).
  destruct (predict_pose_returns c sm1 gm1 (submaps gm)) as [T HTp];
    [reflexivity|reflexivity|assumption|assumption| | |].
  { intro Hpos. cbn. rewrite Hth. unfold expected_kind. cbn.
    destruct (Z.leb_spec 0 (c - 1)); [|lia]. destruct (Z.ltb_spec (c - 1) c); [|lia].
    reflexivity. }
  { intro Hpos. cbn. apply Hest. lia. }
  rewrite HTp. cbn [bind].
  change (new_values gm1) with (new_values gm). rewrite Hnv.
  rewrite (values_insert_fresh (X c)) by fresh_key. cbn [bind app].
  change (submaps (set_new_values [(X c, Value_Pose3 T)] gm1)) with (submaps gm ++ [sm1]).
  rewrite set_back_app.
  set (sm2 := set_T_world_origin T sm1).
  set (gm4 := notify _ _).
  assert (Hvox4 : Forall (fun s => voxelmaps s <> []) (submaps gm ++ [sm2])).
  { apply Forall_app. split; [exact Hvox|]. constructor; [exact Hvm|constructor]. }
  assert (Hchain : exists chain,
    (if c =? 0
     then Returned (set_new_factors
            (emplace_shared (LinearDampingFactor (X 0) 6 (init_pose_damping_scale (params gm4)))
                            (new_factors gm4)) gm4)
     else
       between <- create_between_factors c gm4;;
       matching <- create_matching_cost_factors c
                     (set_new_factors (graph_add between (new_factors gm4)) gm4);;
       Returned (set_new_factors
                   (graph_add matching
                      (new_factors (set_new_factors (graph_add between (new_factors gm4)) gm4)))
                   (set_new_factors (graph_add between (new_factors gm4)) gm4)))
    = Returned (set_new_factors (new_factors gm ++ chain) gm4)
    /\ no_gap_factor chain).
  { destruct (Z.eqb_spec c 0) as [Hz|Hnz].
    - eexists. split; reflexivity.
    - destruct (create_between_factors_returns c gm4 (submaps gm) sm2 eq_refl eq_refl)
        as [between [Hb Hbp]].
      rewrite Hb. cbn [bind].
      destruct (create_matching_cost_factors_returns c
                  (set_new_factors (graph_add between (new_factors gm4)) gm4)
                  (submaps gm) sm2 eq_refl eq_refl) as [matching [Hm Hmp]].
      { cbn. rewrite !size_app. fold c. rewrite Hsub. reflexivity. }
      { exact Hvox4. }
      rewrite Hm. cbn [bind]. exists (between ++ matching). split.
      + unfold graph_add. cbn. now rewrite app_assoc.
      + apply pose_chain_no_gap_factor. now apply pose_chain_app. }
  destruct Hchain as [chain [Hch Hng]]. rewrite Hch. cbn [bind]. clear Hch.
  change (params (set_new_factors (new_factors gm ++ chain) gm4)) with (params gm).
  assert (Hfr2 : has_frames sm2) by exact Hfr1.
  destruct (enable_imu (params gm)) eqn:Himu.
  - destruct (imu_chain_spec c sm2 (set_new_factors (new_factors gm ++ chain) gm4)
                (submaps gm) T eq_refl eq_refl Hframes Hfr2 eq_refl)
      as [gm' [fL [fR [Hrun [HfL [HfR [Hs' [Hss' [Hi' [Hp' [Hk' [Hz' Hpos']]]]]]]]]]]].
    rewrite Hrun. cbn [bind]. exists sm2, gm', chain.
    split; [reflexivity|]. split; [exact Hs'|].
    split; [rewrite Hs', Hss'; cbn; rewrite !size_app; fold c; rewrite Hsub; reflexivity|].
    split; [exact Hvm|]. split; [exact Hopt|]. split; [exact Hori|].
    split; [exact Hi'|]. split; [exact Hp'|]. split; [exact Hk'|]. split; [exact Hng|].
    split; [discriminate|]. intros _. exists fL, fR.
    change (optim_odom_frames sm2) with (optim_odom_frames sm1) in HfL, HfR.
    rewrite Hopt in HfL, HfR.
    split; [exact HfL|]. split; [exact HfR|]. split.
    + intro Hz. rewrite (Hz' Hz). cbn [new_factors set_new_factors].
      rewrite Hz, <- app_assoc. reflexivity.
    + intro Hpos. destruct (Hpos' Hpos) as [prev [bl [Hprev [Hbl Hnf]]]].
      exists prev, bl. split; [exact Hprev|]. split; [exact Hbl|].
      change (imu_integration (set_new_factors (new_factors gm ++ chain) gm4))
        with (imu_integration gm) in Hnf.
      destruct (integrate_imu (imu_integration gm) (stamp bl) (stamp fL) (imu_bias fL))
        as [[cursor num] imu].
      rewrite Hnf. cbn [new_factors set_new_factors]. now rewrite <- app_assoc.
  - exists sm2, (set_new_factors (new_factors gm ++ chain) gm4), chain.
    split; [reflexivity|]. cbn.
    split; [reflexivity|].
    split; [rewrite !size_app; fold c; rewrite Hsub; reflexivity|].
    split; [exact Hvm|]. split; [exact Hopt|]. split; [exact Hori|].
    do 3 (split; [reflexivity|]). split; [exact Hng|].
    split; [reflexivity|discriminate].
Qed.

(** C4: inserting a non-first submap with IMU enabled assembles, after the
    chain and endpoint factors, exactly one factor across the gap between
    the previous submap's right endpoint and the new submap's left endpoint:
    with fewer than 2 integrated IMU samples the zero-velocity between-factor
    [V(last*2+1) -> V(current*2)] of precision 1.0 on 3 DoF, otherwise the
    [ImuFactor] over [E(last*2+1), V(last*2+1), E(current*2), V(current*2),
    B(last*2+1)] with the preintegrated measurement; none of the factors
    before it is an [ImuFactor] or a velocity between-factor.  The pending
    graph of the assembled state is the graph handed to the solver. *)
Theorem insert_submap_imu_gap submap gm :
  consistent gm ->
  has_frames submap ->
  0 < submap_voxelmap_levels (params gm) ->
  enable_imu (params gm) = true ->
  0 < size (submaps gm) ->
  let current := size (submaps gm) in
  let last := current - 1 in
  exists submap' gm' prev bl fL before,
    insert_submap_assemble submap gm = Returned (submap', gm')
    /\ at_index (submaps gm) last = Returned prev
    /\ back (optim_odom_frames prev) = Returned bl
    /\ front (optim_odom_frames submap) = Returned fL
    /\ no_gap_factor before
    /\ let '(cursor, num_integrated, imu) :=
         integrate_imu (imu_integration gm) (stamp bl) (stamp fL) (imu_bias fL) in
       new_factors gm'
       = new_factors gm ++ before
         ++ [Some (if num_integrated <? 2
                   then BetweenFactor_Vector3 (V (last * 2 + 1)) (V (current * 2)) zero3
                          (Isotropic_Precision 3 1%Q)
                   else ImuFactor (E (last * 2 + 1)) (V (last * 2 + 1)) (E (current * 2))
                          (V (current * 2)) (B (last * 2 + 1))
                          (integrated_measurements (erase_imu_data imu cursor)))].
Proof.
  intros Hok Hfr Hlev Himu Hpos current last.
  destruct (insert_submap_assemble_spec submap gm Hok Hfr Hlev)
    as [sm' [gm' [chain [Hrun [_ [_ [_ [_ [_ [_ [_ [_ [Hng [_ Hi]]]]]]]]]]]]]].
  destruct (Hi Himu) as [fL [fR [HfL [_ [_ Hp]]]]].
  destruct (Hp Hpos) as [prev [bl [Hprev [Hbl Hnf]]]].
  exists sm', gm', prev, bl, fL, (chain ++ imu_endpoint_factors current sm' fL fR).
  split; [exact Hrun|]. split; [exact Hprev|]. split; [exact Hbl|]. split; [exact HfL|].
  split; [apply no_gap_factor_app; [exact Hng|apply imu_endpoint_factors_no_gap]|].
  destruct (integrate_imu (imu_integration gm) (stamp bl) (stamp fL) (imu_bias fL))
    as [[cursor num] imu].
  rewrite Hnf. unfold imu_gap_factor. fold current. fold last.
  rewrite <- !app_assoc. reflexivity.
Qed.

(** *** The variables of the solver *)

Lemma kind_at_kinds_of vs k : kind_at vs k = lookup_kind (kinds_of vs) k.
Proof.
  unfold kind_at. induction vs as [|[k' v] vs IH]; cbn; [reflexivity|].
  destruct (Symbol.eqb k' k); [reflexivity|exact IH].
Qed.

Lemma ascii_eqb_false (a b : ascii) : a <> b -> Ascii.eqb a b = false.
Proof. intro H. now apply Ascii.eqb_neq. Qed.

Lemma ascii_eqb_false' (a b : ascii) : a <> b -> Ascii.eqb b a = false.
Proof. intro H. apply Ascii.eqb_neq. congruence. Qed.

Ltac decide_Z :=
  repeat match goal with
         | |- context [?a =? ?b] => destruct (Z.eqb_spec a b)
         | |- context [?a <=? ?b] => destruct (Z.leb_spec a b)
         | |- context [?a <? ?b] => destruct (Z.ltb_spec a b)
         end;
  cbn [andb orb negb]; try reflexivity; try lia; try congruence.

Ltac split_chr ch :=
  let H := fresh "Hch" in
  destruct (Ascii.eqb_spec ch "x") as [->|H];
    [|rewrite ?(ascii_eqb_false _ _ H), ?(ascii_eqb_false' _ _ H);
      let H := fresh "Hch" in
      destruct (Ascii.eqb_spec ch "e") as [->|H];
        [|rewrite ?(ascii_eqb_false _ _ H), ?(ascii_eqb_false' _ _ H);
          let H := fresh "Hch" in
          destruct (Ascii.eqb_spec ch "v") as [->|H];
            [|rewrite ?(ascii_eqb_false _ _ H), ?(ascii_eqb_false' _ _ H);
              let H := fresh "Hch" in
              destruct (Ascii.eqb_spec ch "b") as [->|H];
                [|rewrite ?(ascii_eqb_false _ _ H), ?(ascii_eqb_false' _ _ H)]]]].

(** The variables after [c + 1] insertions are those after [c] insertions
    and the ones the insertion of submap [c] adds. *)
Lemma expected_kind_step imu c k :
  0 <= c ->
  match expected_kind imu c k with
  | Some x => Some x
  | None => lookup_kind (pending_kinds imu c) k
  end = expected_kind imu (c + 1) k.
Proof.
  intro Hc. destruct k as [ch i].
  unfold expected_kind, pending_kinds, chr_is, X, E, V, B.
  cbn [Symbol.chr Symbol.index].
  destruct imu; destruct (Z.ltb_spec 0 c);
    cbn [lookup_kind app]; unfold Symbol.eqb; cbn [Symbol.chr Symbol.index];
    split_chr ch;
    cbn [Ascii.eqb Bool.eqb andb orb];
    decide_Z.
Qed.

Lemma pending_kinds_fresh imu c k :
  0 <= c ->
  expected_kind imu c k <> None -> lookup_kind (pending_kinds imu c) k = None.
Proof.
  intro Hc. destruct k as [ch i].
  unfold expected_kind, pending_kinds, chr_is, X, E, V, B.
  cbn [Symbol.chr Symbol.index].
  destruct imu; destruct (Z.ltb_spec 0 c);
    cbn [lookup_kind app]; unfold Symbol.eqb; cbn [Symbol.chr Symbol.index];
    split_chr ch;
    cbn [Ascii.eqb Bool.eqb andb orb];
    decide_Z.
Qed.

Lemma update_submaps_from_returns (s : ISAM2) (l : list SubMap) : forall i,
  (forall n, (n < List.length l)%nat ->
             kind_at (calculateEstimate s) (X (i + Z.of_nat n)) = Some Kind_Pose3) ->
  exists l', update_submaps_from s i l = Returned l'
             /\ List.length l' = List.length l
             /\ map shape l' = map shape l.
Proof.
  induction l as [|a l IH]; intros i H; cbn [update_submaps_from].
  - exists []. repeat split.
  - destruct (kind_at_Pose3 _ _ (H O (Nat.lt_0_succ _))) as [T HT].
    rewrite Z.add_0_r in HT. unfold calculateEstimate_Pose3. rewrite HT. cbn [bind].
    destruct (IH (i + 1)) as [l' [Hl' [Hlen Hshape]]].
    { intros n Hn. replace (i + 1 + Z.of_nat n) with (i + Z.of_nat (S n)) by lia.
      apply H. cbn. lia. }
    rewrite Hl'. cbn [bind]. eexists. split; [reflexivity|]. cbn.
    split; [congruence|]. now rewrite Hshape.
Qed.

Lemma Forall_shape (P : SubMap -> Prop) (l l' : list SubMap) :
  (forall a b, shape a = shape b -> P a -> P b) ->
  map shape l' = map shape l -> Forall P l -> Forall P l'.
Proof.
  intros HP. revert l'. induction l as [|a l IH]; intros [|b l'] Hm Hf;
    try discriminate; [constructor|].
  assert (Hab : shape b = shape a /\ map shape l' = map shape l)
    by (cbn [map] in Hm; split; congruence).
  destruct Hab as [Hab Hm']. inversion Hf; subst. constructor.
  - apply (HP a b); [now symmetry|assumption].
  - now apply IH.
Qed.

(** One insertion takes a consistent back end to a consistent back end with
    one more submap. *)
Lemma insert_submap_consistent fuel submap gm :
  stores_values ->
  consistent gm ->
  has_frames submap ->
  0 < submap_voxelmap_levels (params gm) ->
  exists gm',
    insert_submap fuel submap gm = Returned gm'
    /\ consistent gm'
    /\ size (submaps gm') = size (submaps gm) + 1
    /\ params gm' = params gm.
Proof.
  intros [Lnew Lupd Lest] Hok Hfr Hlev.
  destruct (insert_submap_assemble_spec submap gm Hok Hfr Hlev)
    as [sm' [gm1 [chain [Hrun [Hs1 [Hss1 [Hvm [Hopt [Hori [Hi1 [Hp1 [Hk1 _]]]]]]]]]]]].
  destruct Hok as [Hsub Hvox Hframes Hnv Hth Hest].
  assert (Hc0 : 0 <= size (submaps gm)) by (unfold size; lia).
  unfold insert_submap. rewrite Hrun. cbn [bind]. rewrite update_isam2_eq.
  cbn [notify isam2 new_factors new_values].
  destruct (Lupd (isam2 gm1) (new_factors gm1) (new_values gm1)) as [s' [r [Hu Hk]]].
  { intros k Hk. rewrite kind_at_kinds_of, Hk1. apply pending_kinds_fresh; [exact Hc0|].
    rewrite Hi1, Hth in Hk. exact Hk. }
  rewrite Hu. cbn [bind]. unfold update_submaps.
  cbn [submaps isam2 set_new_factors set_new_values notify set_isam2].
  assert (Hkind : forall k, kind_at (getLinearizationPoint s') k
                  = expected_kind (enable_imu (params gm)) (size (submaps gm) + 1) k).
  { intro k. rewrite Hk, Hi1, Hth, kind_at_kinds_of, Hk1. now apply expected_kind_step. }
  assert (Hsize : size (submaps gm1) = size (submaps gm) + 1).
  { rewrite Hs1, size_app. reflexivity. }
  assert (HX : forall i, 0 <= i < size (submaps gm) + 1 ->
                         kind_at (calculateEstimate s') (X i) = Some Kind_Pose3).
  { intros i Hi. rewrite Lest, Hkind. unfold expected_kind, chr_is, X.
    cbn [Symbol.chr Symbol.index Ascii.eqb Bool.eqb]. decide_Z. }
  destruct (update_submaps_from_returns s' (submaps gm1) 0) as [l' [Hl' [Hlen Hshape]]].
  { intros n Hn. apply HX. unfold size in *. lia. }
  rewrite Hl'. cbn [bind]. eexists. split; [reflexivity|].
  assert (Hsz : size l' = size (submaps gm) + 1) by (unfold size in *; lia).
  split; [|split; [exact Hsz|cbn; exact Hp1]].
  constructor; cbn.
  - rewrite Hss1. unfold size in *. lia.
  - unfold voxelized. cbn.
    apply (Forall_shape (fun s => voxelmaps s <> []) (submaps gm1) l'); [|exact Hshape|].
    + intros a b Hab. unfold shape in Hab. now inversion Hab.
    + rewrite Hs1. apply Forall_app. split; [exact Hvox|]. constructor; [exact Hvm|constructor].
  - apply (Forall_shape has_frames (submaps gm1) l'); [|exact Hshape|].
    + intros a b Hab. unfold shape, has_frames in *. now inversion Hab.
    + rewrite Hs1. apply Forall_app. split; [exact Hframes|]. constructor; [|constructor].
      unfold has_frames. rewrite Hopt, Hori. exact Hfr.
  - reflexivity.
  - intro k. rewrite Hsz, Hp1. apply Hkind.
  - intros i Hi. apply HX. lia.
Qed.

Lemma In_values_keys vs k : In k (values_keys vs) <-> kind_at vs k <> None.
Proof.
  unfold kind_at, values_keys. induction vs as [|[k' v] vs IH]; cbn.
  - split; [contradiction|congruence].
  - destruct (Symbol_eqb_spec k' k) as [->|Hne]; cbn.
    + split; [discriminate|auto].
    + rewrite IH. split; [intros [H|H]; [contradiction|exact H]|auto].
Qed.

Lemma expected_kind_iff imu n k :
  expected_kind imu n k <> None <-> solver_variable imu n k.
Proof.
  unfold solver_variable. split.
  - destruct k as [ch i]. unfold expected_kind, chr_is, X, E, V, B.
    cbn [Symbol.chr Symbol.index].
    destruct imu; split_chr ch; cbn [Ascii.eqb Bool.eqb andb orb];
      repeat match goal with
             | |- context [?a <=? ?b] => destruct (Z.leb_spec a b)
             | |- context [?a <? ?b] => destruct (Z.ltb_spec a b)
             end; cbn [andb]; intro Hnone; try congruence;
      first [ left; exists i; split; [lia|reflexivity]
            | right; split; [reflexivity|]; exists i; split; [lia|]; auto ].
  - intros [[i [Hi ->]]|[-> [j [Hj [->|[->| ->]]]]]];
      unfold expected_kind, chr_is, X, E, V, B;
      cbn [Symbol.chr Symbol.index Ascii.eqb Bool.eqb andb orb];
      repeat match goal with
             | |- context [?a <=? ?b] => destruct (Z.leb_spec a b)
             | |- context [?a <? ?b] => destruct (Z.ltb_spec a b)
             end; cbn [andb]; try discriminate; lia.
Qed.

Lemma expected_kind_0 imu k : expected_kind imu 0 k = None.
Proof.
  destruct (expected_kind imu 0 k) eqn:H; [|reflexivity].
  assert (Hs : solver_variable imu 0 k) by (apply expected_kind_iff; congruence).
  destruct Hs as [[i [Hi _]]|[_ [j [Hj _]]]]; lia.
Qed.

Lemma GlobalMapping_new_consistent p seed imu0 :
  stores_values -> consistent (GlobalMapping_new p seed imu0).
Proof.
  intros [Lnew _ _]. constructor; cbn; try reflexivity.
  - constructor.
  - constructor.
  - intro k. rewrite Lnew. symmetry. apply expected_kind_0.
  - intros i Hi. lia.
Qed.



(** *** Overlap search *)

Lemma scan_existing_Some f acc : scan_existing (Some f) acc = Returned (acc ++ xx_pair f).
Proof.
  unfold scan_existing, xx_pair. destruct (keys f) as [|k1 [|k2 [|k3 r]]];
    try (now rewrite app_nil_r).
  destruct (negb (chr_is "x" k1) || negb (chr_is "x" k2)); [now rewrite app_nil_r|reflexivity].
Qed.

Lemma scan_all_vgicp g : forall acc,
  all_vgicp g -> for_each scan_existing g acc = Returned (acc ++ pairs_of g).
Proof.
  induction g as [|[f|] g IH]; intros acc H; cbn [for_each pairs_of flat_map].
  - now rewrite app_nil_r.
  - unfold all_vgicp in H. cbn [forallb] in H. apply andb_true_iff in H as [_ H].
    rewrite scan_existing_Some. cbn [bind]. rewrite (IH _ H), <- app_assoc. reflexivity.
  - discriminate H.
Qed.

Lemma count_pair_In e i j : count_pair e i j = true <-> In (Vector3i i j) e.
Proof.
  unfold count_pair. rewrite existsb_exists. split.
  - intros [[a b] [Hin H]]. cbn [fst snd Vector3i] in H. apply andb_true_iff in H as [Ha Hb].
    apply Z.eqb_eq in Ha, Hb. unfold Vector3i. now subst.
  - intro H. exists (Vector3i i j). split; [exact H|]. now rewrite !Z.eqb_refl.
Qed.

Lemma pairs_of_app g1 g2 : pairs_of (g1 ++ g2) = pairs_of g1 ++ pairs_of g2.
Proof. unfold pairs_of. apply flat_map_app. Qed.

Lemma pairs_of_vgicp gpu i j target source :
  voxelmaps target <> [] -> In (Vector3i i j) (pairs_of (vgicp_factors gpu i j target source)).
Proof.
  unfold vgicp_factors. destruct (voxelmaps target) as [|vm r]; [congruence|]. intros _.
  cbn [map pairs_of flat_map]. apply in_or_app. left. destruct gpu; cbn; auto.
Qed.

(** What one pair contributes: nothing, or one VGICP factor per voxel map of
    the target, which records the pair. *)
Lemma overlap_body_cases m e gm i j factors factors' :
  overlap_body m e gm i j factors = Returned factors' ->
  exists extra,
    factors' = factors ++ extra
    /\ overlap_body m e gm i j [] = Returned extra
    /\ all_vgicp extra
    /\ (extra = [] \/ In (Vector3i i j) (pairs_of extra)).
Proof.
  unfold overlap_body. destruct (count_pair e i j).
  { intro H; inversion H; subst. exists []. rewrite app_nil_r. repeat split. now left. }
  destruct (at_index (submaps gm) i) as [si| | | |]; cbn [bind]; try discriminate.
  destruct (at_index (submaps gm) j) as [sj| | | |]; cbn [bind]; try discriminate.
  destruct (norm_gt _ _).
  { intro H; inversion H; subst. exists []. rewrite app_nil_r. repeat split. now left. }
  destruct (back (voxelmaps si)) as [vm| | | |] eqn:Hvm; cbn [bind]; try discriminate.
  destruct (at_index (subsampled_submaps gm) j) as [src| | | |]; cbn [bind]; try discriminate.
  destruct (Qltb _ _).
  { intro H; inversion H; subst. exists []. rewrite app_nil_r. repeat split. now left. }
  assert (Hne : voxelmaps si <> []) by (destruct (voxelmaps si); [discriminate|congruence]).
  destruct (GTSAM_POINTS_USE_CUDA && is_gpu_voxelmap vm && points_gpu src);
    intro H; inversion H; subst; eexists; (split; [reflexivity|]);
    (split; [reflexivity|]); (split; [apply all_vgicp_vgicp|]);
    right; now apply pairs_of_vgicp.
Qed.

Lemma overlap_body_acc m e gm i j factors extra :
  overlap_body m e gm i j [] = Returned extra ->
  overlap_body m e gm i j factors = Returned (factors ++ extra).
Proof.
  unfold overlap_body. destruct (count_pair e i j).
  { intro H; inversion H; subst. now rewrite app_nil_r. }
  destruct (at_index (submaps gm) i) as [si| | | |]; cbn [bind]; try discriminate.
  destruct (at_index (submaps gm) j) as [sj| | | |]; cbn [bind]; try discriminate.
  destruct (norm_gt _ _).
  { intro H; inversion H; subst. now rewrite app_nil_r. }
  destruct (back (voxelmaps si)) as [vm| | | |]; cbn [bind]; try discriminate.
  destruct (at_index (subsampled_submaps gm) j) as [src| | | |]; cbn [bind]; try discriminate.
  destruct (Qltb _ _).
  { intro H; inversion H; subst. now rewrite app_nil_r. }
  destruct (GTSAM_POINTS_USE_CUDA && is_gpu_voxelmap vm && points_gpu src);
    intro H; inversion H; subst; reflexivity.
Qed.

(** The body reads the back end through its submaps, sources and
    parameters only. *)
Lemma overlap_body_ext m e gm gm' i j factors :
  submaps gm' = submaps gm ->
  subsampled_submaps gm' = subsampled_submaps gm ->
  params gm' = params gm ->
  overlap_body m e gm' i j factors = overlap_body m e gm i j factors.
Proof. intros H1 H2 H3. unfold overlap_body. now rewrite H1, H2, H3. Qed.

(** A pair that is recorded contributes nothing. *)
Lemma overlap_body_recorded m e gm i j factors :
  In (Vector3i i j) e -> overlap_body m e gm i j factors = Returned factors.
Proof.
  intro H. unfold overlap_body. apply count_pair_In in H. now rewrite H.
Qed.

(** With more pairs recorded, a pair that contributed nothing still
    contributes nothing. *)
Lemma overlap_body_more m e e' gm i j factors :
  (forall p, In p e -> In p e') ->
  overlap_body m e gm i j [] = Returned [] ->
  overlap_body m e' gm i j factors = Returned factors.
Proof.
  intros Hincl H. destruct (count_pair e' i j) eqn:Hc'.
  - apply overlap_body_recorded. now apply count_pair_In.
  - assert (Hc : count_pair e i j = false).
    { destruct (count_pair e i j) eqn:Hc; [|reflexivity].
      apply count_pair_In in Hc. apply Hincl in Hc. apply count_pair_In in Hc. congruence. }
    rewrite <- (app_nil_r factors) at 2. apply overlap_body_acc.
    unfold overlap_body in *. rewrite Hc in H. rewrite Hc'. exact H.
Qed.

Lemma inner_loop_cases m e gm i (js : list Z) : forall factors factors',
  for_each (overlap_body m e gm i) js factors = Returned factors' ->
  exists extras,
    factors' = factors ++ extras
    /\ all_vgicp extras
    /\ forall j, In j js ->
         exists extra, overlap_body m e gm i j [] = Returned extra
                       /\ (extra = [] \/ In (Vector3i i j) (pairs_of extras)).
Proof.
  induction js as [|j js IH]; intros factors factors' H; cbn [for_each] in H.
  - inversion H; subst. exists []. rewrite app_nil_r. repeat split. intros j [].
  - apply bind_Returned_inv in H as [f1 [Hb H]].
    apply overlap_body_cases in Hb as [extra [-> [Hb0 [Hv Hx]]]].
    apply IH in H as [extras [-> [Hvs Hjs]]].
    exists (extra ++ extras). split; [now rewrite app_assoc|].
    split; [now apply all_vgicp_app|].
    intros j' [<-|Hin].
    + exists extra. split; [exact Hb0|]. destruct Hx as [Hx|Hx]; [now left|right].
      rewrite pairs_of_app. apply in_or_app. now left.
    + destruct (Hjs j' Hin) as [ex [Hex Hc]]. exists ex. split; [exact Hex|].
      destruct Hc as [Hc|Hc]; [now left|right].
      rewrite pairs_of_app. apply in_or_app. now right.
Qed.

Lemma outer_loop_cases m e gm n (rows : list Z) : forall factors factors',
  for_each (fun i f => for_each (overlap_body m e gm i) (range (i + 1) n) f) rows factors
    = Returned factors' ->
  exists extras,
    factors' = factors ++ extras
    /\ all_vgicp extras
    /\ forall i j, In i rows -> In j (range (i + 1) n) ->
         exists extra, overlap_body m e gm i j [] = Returned extra
                       /\ (extra = [] \/ In (Vector3i i j) (pairs_of extras)).
Proof.
  induction rows as [|i rows IH]; intros factors factors' H; cbn [for_each] in H.
  - inversion H; subst. exists []. rewrite app_nil_r. repeat split. intros i j [].
  - apply bind_Returned_inv in H as [f1 [Hb H]].
    apply inner_loop_cases in Hb as [extra [-> [Hv Hx]]].
    apply IH in H as [extras [-> [Hvs Hjs]]].
    exists (extra ++ extras). split; [now rewrite app_assoc|].
    split; [now apply all_vgicp_app|].
    intros i' j [<-|Hin] Hj.
    + destruct (Hx j Hj) as [ex [Hex Hc]]. exists ex. split; [exact Hex|].
      destruct Hc as [Hc|Hc]; [now left|right].
      rewrite pairs_of_app. apply in_or_app. now left.
    + destruct (Hjs i' j Hin Hj) as [ex [Hex Hc]]. exists ex. split; [exact Hex|].
      destruct Hc as [Hc|Hc]; [now left|right].
      rewrite pairs_of_app. apply in_or_app. now right.
Qed.

Lemma for_each_fixed {A St : Type} (body : A -> St -> Outcome St) (l : list A) (s : St) :
  (forall a, In a l -> body a s = Returned s) -> for_each body l s = Returned s.
Proof.
  induction l as [|a l IH]; intro H; cbn [for_each]; [reflexivity|].
  rewrite (H a (or_introl eq_refl)). cbn [bind]. apply IH. intros b Hb. apply H. now right.
Qed.

Lemma set_T_world_origin_same (s : SubMap) : set_T_world_origin (T_world_origin s) s = s.
Proof. now destruct s. Qed.

Lemma update_submaps_from_same_poses (s : ISAM2) (l : list SubMap) : forall i l',
  update_submaps_from s i l = Returned l' ->
  map T_world_origin l' = map T_world_origin l ->
  l' = l.
Proof.
  induction l as [|a l IH]; intros i l' H Hp; cbn [update_submaps_from] in H.
  - now inversion H.
  - apply bind_Returned_inv in H as [T [HT H]].
    apply bind_Returned_inv in H as [rest [Hrest H]].
    inversion H; subst; clear H. cbn [map] in Hp.
    assert (HTa : T = T_world_origin a)
      by (destruct a; cbn [set_T_world_origin T_world_origin] in Hp |- *; congruence).
    assert (Hr : map T_world_origin rest = map T_world_origin l) by congruence.
    rewrite (IH _ _ Hrest Hr), HTa, set_T_world_origin_same. reflexivity.
Qed.

Lemma find_overlapping_submaps_inv fuel m gm gm1 :
  submaps gm <> [] ->
  find_overlapping_submaps fuel m gm = Returned gm1 ->
  exists new l',
    new_overlap_factors m gm = Returned new
    /\ update_submaps_from (isam2 gm1) 0 (submaps gm) = Returned l'
    /\ submaps gm1 = l'
    /\ subsampled_submaps gm1 = subsampled_submaps gm
    /\ params gm1 = params gm.
Proof.
  intros Hne H. unfold find_overlapping_submaps in H.
  destruct (submaps gm) as [|s0 r] eqn:Hs; [congruence|]. cbn [is_empty] in H.
  apply bind_Returned_inv in H as [new [Hnew H]].
  apply bind_Returned_inv in H as [[result g] [Hu H]].
  apply update_isam2_frame in Hu as [s ->].
  apply bind_Returned_inv in H as [g2 [Hsm H]].
  unfold update_submaps in Hsm. apply bind_Returned_inv in Hsm as [l' [Hl' Hsm]].
  inversion Hsm; subst; clear Hsm. inversion H; subst; clear H.
  cbn in Hl'. exists new, l'. cbn. rewrite Hs in Hl'. auto.
Qed.

(** The scan records every 2-key factor whose keys are both [X] variables. *)
Lemma scan_records (g : NonlinearFactorGraph) : forall acc existing,
  for_each scan_existing g acc = Returned existing ->
  (forall p, In p acc -> In p existing)
  /\ forall f i j, In (Some f) g -> keys f = [X i; X j] -> In (Vector3i i j) existing.
Proof.
  induction g as [|[f|] g IH]; intros acc existing H; cbn [for_each] in H.
  - inversion H; subst. split; [auto|]. intros f i j [].
  - rewrite scan_existing_Some in H. cbn [bind] in H. apply IH in H as [Hacc Hg].
    split.
    + intros p Hp. apply Hacc. apply in_or_app. now left.
    + intros f' i j [Hf|Hf] Hk; [|now apply (Hg f')].
      inversion Hf; subst f'. apply Hacc. apply in_or_app. right.
      unfold xx_pair. rewrite Hk. cbn. now left.
  - discriminate H.
Qed.

(** C5 (as the code has it): a pair already connected by a 2-key factor on
    [X] variables is recorded by the scan and receives no factor; and when
    the update of the first call stores the factors that call found and
    leaves the poses of the submaps as they were, a second call with the
    same [min_overlap] finds no factor to add: every pair the first call
    connected is recorded, and every pair it passed over is passed over
    again. *)
Theorem find_overlapping_submaps_twice fuel min_overlap gm :
  (forall existing f i j factors,
     for_each scan_existing (getFactorsUnsafe (isam2 gm)) [] = Returned existing ->
     In (Some f) (getFactorsUnsafe (isam2 gm)) ->
     keys f = [X i; X j] ->
     overlap_body min_overlap existing gm i j factors = Returned factors)
  /\ (forall gm1 new,
        submaps gm <> [] ->
        new_overlap_factors min_overlap gm = Returned new ->
        find_overlapping_submaps fuel min_overlap gm = Returned gm1 ->
        getFactorsUnsafe (isam2 gm1) = getFactorsUnsafe (isam2 gm) ++ new ->
        map T_world_origin (submaps gm1) = map T_world_origin (submaps gm) ->
        new_overlap_factors min_overlap gm1 = Returned []).
Proof.
  split.
  { intros existing f i j factors Hscan Hf Hk. apply overlap_body_recorded.
    exact (proj2 (scan_records _ _ _ Hscan) f i j Hf Hk). }
  intros gm1 new Hne Hnew Hrun Hstored Hposes.
  destruct (find_overlapping_submaps_inv fuel min_overlap gm gm1 Hne Hrun)
    as [new' [l' [Hnew' [Hl' [Hs1 [Hss1 Hp1]]]]]].
  assert (Hsame : submaps gm1 = submaps gm).
  { rewrite Hs1. apply (update_submaps_from_same_poses _ _ _ _ Hl'). now rewrite <- Hs1. }
  unfold new_overlap_factors in Hnew.
  apply bind_Returned_inv in Hnew as [existing [Hscan Hov]].
  unfold overlap_factors in Hov.
  apply outer_loop_cases in Hov as [extras [Hex [Hv Hpairs]]].
  cbn [app] in Hex. subst extras.
  unfold new_overlap_factors. rewrite Hstored, for_each_app, Hscan. cbn [bind].
  rewrite (scan_all_vgicp new existing Hv). cbn [bind].
  unfold overlap_factors. rewrite Hsame.
  apply for_each_fixed. intros i Hi. apply for_each_fixed. intros j Hj.
  rewrite (overlap_body_ext _ _ gm gm1 _ _ _ Hsame Hss1 Hp1).
  destruct (Hpairs i j Hi Hj) as [extra [Hbody [->|Hin]]].
  - apply (overlap_body_more _ existing); [|exact Hbody].
    intros p Hp. apply in_or_app. now left.
  - apply overlap_body_recorded. apply in_or_app. now right.
Qed.

End Properties.

(** ** The claims on concrete back ends *)

Lemma lookup_app vs1 vs2 k :
  lookup (vs1 ++ vs2) k = match lookup vs1 k with Some v => Some v | None => lookup vs2 k end.
Proof.
  induction vs1 as [|[k' v] vs1 IH]; cbn; [reflexivity|].
  destruct (Symbol.eqb k' k); [reflexivity|exact IH].
Qed.

(** The storing solver honours the contract of [stores_values]. *)
Lemma storing_stores_values cuda overlap :
  stores_values (ext := reference_collaborators cuda overlap store_update).
Proof.
  constructor; cbn.
  - reflexivity.
  - intros s g v _. do 2 eexists. split; [reflexivity|]. intro k. cbn.
    unfold kind_at. rewrite lookup_app. now destruct (lookup (stored_theta s) k).
  - reflexivity.
Qed.

Lemma sample_submap_has_frames n x t0 t1 : has_frames (sample_submap n x t0 t1).
Proof. split; discriminate. Qed.

Lemma first_submap_backend_consistent : consistent (ext := storing) first_submap_backend.
Proof.
  destruct (insert_submap_consistent (ext := storing) 0 (sample_submap 0 0%Q 0%Q 1%Q)
              (fresh_backend default_params) (storing_stores_values _ _)
              (GlobalMapping_new_consistent (ext := storing) default_params 0%N []
                 (storing_stores_values _ _))
              (sample_submap_has_frames _ _ _ _) eq_refl) as [gm [Hrun [Hok _]]].
  unfold first_submap_backend. rewrite Hrun. exact Hok.
Qed.

(** Witness of C10. *)
Lemma find_overlapping_submaps_no_submaps_witness :
  submaps (fresh_backend default_params) = []
  /\ find_overlapping_submaps (ext := storing) 0 (1 # 10) (fresh_backend default_params)
     = Returned (fresh_backend default_params).
Proof.
  split; [reflexivity|].
  apply (find_overlapping_submaps_no_submaps (ext := storing)). reflexivity.
Defined.

(** Witness of C1: the second update of a two-submap back end is
    indeterminate near [V(3)], and [optimize] terminates the process. *)
Lemma update_isam2_indeterminate_exits_witness :
  isam2_update (Collaborators := needs_damping) (isam2 two_submaps_backend) [] []
    = UpdateThrows (isam2 two_submaps_backend) (IndeterminantLinearSystemException (V 3))
  /\ optimize (ext := needs_damping) 1 two_submaps_backend = Exited 1.
Proof.
  split; [reflexivity|].
  apply (proj1 (proj2 (update_isam2_indeterminate_exits (ext := needs_damping) 1
                         two_submaps_backend (V 3))) (isam2 two_submaps_backend));
    reflexivity.
Defined.

(** C1, counterexample: the update raises the indeterminate-system exception
    near [V(3)]; the repair the claim describes (a damping factor on [X(1)]
    and a retry on a rebuilt solver) would be accepted by this solver, yet
    [optimize] does not return: the process has exited with status 1. *)
Lemma indeterminate_update_is_not_repaired :
  isam2_update (Collaborators := needs_damping) (isam2 two_submaps_backend) [] []
    = UpdateThrows (isam2 two_submaps_backend) (IndeterminantLinearSystemException (V 3))
  /\ (exists s r,
        isam2_update (Collaborators := needs_damping)
          (isam2_new (Collaborators := needs_damping) true
             (make_isam2_params default_params))
          (emplace_shared (LinearDampingFactor (X (3 / 2)) 6 10000%Q)
             (getFactorsUnsafe (Collaborators := needs_damping) (isam2 two_submaps_backend)))
          (getLinearizationPoint (Collaborators := needs_damping) (isam2 two_submaps_backend))
        = Updated s r)
  /\ optimize (ext := needs_damping) 1 two_submaps_backend = Exited 1
  /\ forall gm', optimize (ext := needs_damping) 1 two_submaps_backend <> Returned gm'.
Proof.
  split; [reflexivity|]. split; [do 2 eexists; reflexivity|].
  assert (H : optimize (ext := needs_damping) 1 two_submaps_backend = Exited 1)
    by (vm_compute; reflexivity).
  split; [exact H|]. intros gm'. rewrite H. discriminate.
Qed.

(** Witness of C2. *)
Lemma insert_submap_at_subsampled_witness :
  (randomsampling_rate (set_randomsampling_rate (1 # 2) default_params) < 99 # 100)%Q
  /\ subsampled_submaps
       (snd (insert_submap_at (ext := storing) 0 (sample_submap 0 0%Q 0%Q 1%Q)
               (fresh_backend (set_randomsampling_rate (1 # 2) default_params))))
     = [mkPointCloud [vec4 1%Q 0%Q 0%Q 1%Q] false].
Proof.
  split; [reflexivity|].
  exact (proj1 (insert_submap_at_subsampled (ext := storing) 0 (sample_submap 0 0%Q 0%Q 1%Q)
                  (fresh_backend (set_randomsampling_rate (1 # 2) default_params))
                  eq_refl)).
Defined.

(** C2, counterexample: with [randomsampling_rate = 0.5] on the CPU path the
    subsampled copy holds one of the two points of the merged keyframe, and
    the coarsest voxel map of the inserted submap is built from that one
    point, not from the full cloud. *)
Lemma coarsest_voxelmap_from_subsample :
  let gm := fresh_backend (set_randomsampling_rate (1 # 2) default_params) in
  let submap := sample_submap 0 0%Q 0%Q 1%Q in
  let inserted := fst (insert_submap_at (ext := storing) 0 submap gm) in
  (randomsampling_rate (params gm) < 99 # 100)%Q
  /\ exists coarsest,
       back (voxelmaps inserted) = Returned coarsest
       /\ vm_inserted coarsest = [vec4 1%Q 0%Q 0%Q 1%Q]
       /\ points (merged_keyframe inserted)
          = [vec4 1%Q 0%Q 0%Q 1%Q; vec4 0%Q 2%Q 0%Q 1%Q]
       /\ vm_inserted coarsest <> points (merged_keyframe inserted).
Proof.
  cbv zeta. split; [reflexivity|]. eexists. split; [vm_compute; reflexivity|].
  split; [reflexivity|]. split; [reflexivity|]. discriminate.
Qed.

(** Witness of C3, on two submaps 1 m apart, the first one turned by a
    quarter turn: with an overlap of 0.05, and with an overlap of 0.5 when
    loops are searched up to 0.5 m only, the between-factor is all that is
    returned, and its measurement is the pose of the second submap seen
    from the first. *)
Lemma create_matching_cost_factors_safety_net_witness :
  create_matching_cost_factors (ext := low_overlap) 1 (turned_pair no_imu_params)
  = Returned [Some (BetweenFactor_Pose3 (X 0) (X 1) turned_pair_delta
                      (Isotropic_Precision 6 1000000%Q))]
  /\ create_matching_cost_factors (ext := storing) 1
       (turned_pair (set_max_implicit_loop_distance (1 # 2) no_imu_params))
     = Returned [Some (BetweenFactor_Pose3 (X 0) (X 1) turned_pair_delta
                         (Isotropic_Precision 6 1000000%Q))]
  /\ (exists factors,
        create_matching_cost_factors (ext := low_overlap) 1 (turned_pair no_imu_params)
        = Returned (factors ++
                    [Some (BetweenFactor_Pose3 (X 0) (X 1) turned_pair_delta
                             (Isotropic_Precision 6 1000000%Q))])
        /\ all_vgicp factors)
  /\ exists factors,
       create_matching_cost_factors (ext := storing) 1
         (turned_pair (set_max_implicit_loop_distance (1 # 2) no_imu_params))
       = Returned (factors ++
                   [Some (BetweenFactor_Pose3 (X 0) (X 1) turned_pair_delta
                            (Isotropic_Precision 6 1000000%Q))])
       /\ all_vgicp factors.
Proof.
  split; [vm_compute; reflexivity|]. split; [vm_compute; reflexivity|]. split.
  - destruct (create_matching_cost_factors_safety_net (ext := low_overlap) 1
                (turned_pair no_imu_params)
                (unwrap (sample_submap 0 0%Q 0%Q 1%Q)
                   (at_index (submaps (turned_pair no_imu_params)) 0))
                (unwrap (sample_submap 0 0%Q 0%Q 1%Q)
                   (at_index (submaps (turned_pair no_imu_params)) 1))
                (mkVoxelMap CPU (30 # 15) (points sample_cloud)))
      as [factors [Hrun Hv]];
      [lia|reflexivity|reflexivity|repeat constructor; discriminate
      |reflexivity|reflexivity|reflexivity|right; reflexivity|].
    exists factors. split; [|exact Hv]. rewrite Hrun. reflexivity.
  - destruct (create_matching_cost_factors_safety_net (ext := storing) 1
                (turned_pair (set_max_implicit_loop_distance (1 # 2) no_imu_params))
                (unwrap (sample_submap 0 0%Q 0%Q 1%Q)
                   (at_index
                      (submaps (turned_pair
                                  (set_max_implicit_loop_distance (1 # 2) no_imu_params))) 0))
                (unwrap (sample_submap 0 0%Q 0%Q 1%Q)
                   (at_index
                      (submaps (turned_pair
                                  (set_max_implicit_loop_distance (1 # 2) no_imu_params))) 1))
                (mkVoxelMap CPU (30 # 15) (points sample_cloud)))
      as [factors [Hrun Hv]];
      [lia|reflexivity|reflexivity|repeat constructor; discriminate
      |reflexivity|reflexivity|reflexivity|left; reflexivity|].
    exists factors. split; [|exact Hv]. rewrite Hrun. reflexivity.
Defined.

(** Witness of C4: no IMU sample was inserted, so the gap between the two
    submaps is bridged by the zero-velocity between-factor. *)
Lemma insert_submap_imu_gap_witness :
  exists submap' gm' before,
    insert_submap_assemble (ext := storing) (sample_submap 1 2%Q 2%Q 3%Q) first_submap_backend
    = Returned (submap', gm')
    /\ no_gap_factor before
    /\ new_factors gm'
       = new_factors first_submap_backend ++ before
         ++ [Some (BetweenFactor_Vector3 (V 1) (V 2) zero3 (Isotropic_Precision 3 1%Q))].
Proof.
  destruct (insert_submap_imu_gap (ext := storing) (sample_submap 1 2%Q 2%Q 3%Q)
              first_submap_backend first_submap_backend_consistent
              (sample_submap_has_frames _ _ _ _) eq_refl eq_refl eq_refl)
    as [sm' [gm' [prev [bl [fL [before [Hrun [Hprev [Hbl [HfL [Hng Hnf]]]]]]]]]]].
  exists sm', gm', before. split; [exact Hrun|]. split; [exact Hng|].
  exact Hnf.
Defined.

(** The other branch on the same back end: with two IMU samples between the
    stamps 1 and 2 the last pending factor is the [ImuFactor]. *)
Example insert_submap_imu_factor_with_samples :
  let gm := insert_imu (ext := storing) (3 # 2) zero3 zero3
              (insert_imu (ext := storing) (5 # 4) zero3 zero3 first_submap_backend) in
  let assembled :=
    unwrap (sample_submap 1 2%Q 2%Q 3%Q, gm)
      (insert_submap_assemble (ext := storing) (sample_submap 1 2%Q 2%Q 3%Q) gm) in
  back (new_factors (snd assembled))
  = Returned (Some (ImuFactor (E 1) (V 1) (E 2) (V 2) (B 1) (mkPIM 0%Q zero3 zero3 mat_id))).
Proof. vm_compute. reflexivity. Qed.




(** Witness of C5: on the sparse back end the first search with
    [min_overlap = 0] links [X(0)] and [X(2)]; the storing solver keeps the
    factors and the poses; the second search finds nothing. *)
Lemma find_overlapping_submaps_twice_witness :
  new_overlap_factors (ext := low_overlap) 0%Q sparse_backend
    = Returned (vgicp_factors false 0 2
                  (unwrap (sample_submap 0 0%Q 0%Q 1%Q) (at_index (submaps sparse_backend) 0))
                  sample_cloud)
  /\ new_overlap_factors (ext := low_overlap) 0%Q
       (unwrap sparse_backend
          (find_overlapping_submaps (ext := low_overlap) 0 0%Q sparse_backend))
     = Returned [].
Proof.
  split; [vm_compute; reflexivity|].
  apply (proj2 (find_overlapping_submaps_twice (ext := low_overlap) 0 0%Q sparse_backend)
           (unwrap sparse_backend
              (find_overlapping_submaps (ext := low_overlap) 0 0%Q sparse_backend))
           (vgicp_factors false 0 2
              (unwrap (sample_submap 0 0%Q 0%Q 1%Q) (at_index (submaps sparse_backend) 0))
              sample_cloud)).
  - vm_compute. discriminate.
  - vm_compute. reflexivity.
  - vm_compute. reflexivity.
  - vm_compute. reflexivity.
  - vm_compute. reflexivity.
Defined.

(** C5, counterexample: three submaps 2 m apart with loops searched up to
    3 m.  The first search finds no pair (X(0) and X(2) are 4 m apart) and
    runs an empty update, after which the solver's estimate of [X(2)] is at
    2.5 m; the second search, with nothing in between, links [X(0)] and
    [X(2)] with two VGICP factors. *)
Lemma second_overlap_search_adds_factors :
  let first := find_overlapping_submaps (ext := drifting) 0 (1 # 10) short_range_backend in
  new_overlap_factors (ext := drifting) (1 # 10) short_range_backend = Returned []
  /\ (exists gm1, first = Returned gm1)
  /\ exists f1 f2,
       new_overlap_factors (ext := drifting) (1 # 10) (unwrap short_range_backend first)
       = Returned [Some f1; Some f2]
       /\ keys f1 = [X 0; X 2] /\ keys f2 = [X 0; X 2].
Proof.
  cbv zeta. split; [vm_compute; reflexivity|].
  split; [eexists; vm_compute; reflexivity|].
  do 2 eexists. split; [vm_compute; reflexivity|]. split; reflexivity.
Qed.

(** Witness of C8: [graph.bin] fails with an exception that is not an
    archive exception; the repair runs, its patch (the missing edge from
    [X(0)] to [X(1)]) is handed to the solver, and [load] returns [true]. *)
Lemma load_recovers_on_std_exception_witness :
  let patch := [Some (BetweenFactor_Pose3 (X 0) (X 1) (shift_x 2%Q) prior_noise6)] in
  let gm1 := snd (unwrap ([], [], reloaded_submaps)
                    (recover_graph [] sample_values reloaded_submaps)) in
  recover_graph [] sample_values reloaded_submaps = Returned (patch, [], gm1)
  /\ load_graph (ext := storing) (broken_dump StdException) [] reloaded_submaps
     = Returned (patch, sample_values, true, gm1)
  /\ exists gm2, load (ext := storing) 0 (broken_dump StdException)
                   (fresh_backend no_imu_params) = Returned (true, gm2).
Proof.
  cbv zeta.
  assert (Hrec : recover_graph [] sample_values reloaded_submaps
                 = Returned ([Some (BetweenFactor_Pose3 (X 0) (X 1) (shift_x 2%Q) prior_noise6)],
                             [],
                             snd (unwrap ([], [], reloaded_submaps)
                                    (recover_graph [] sample_values reloaded_submaps))))
    by (vm_compute; reflexivity).
  split; [exact Hrec|]. split.
  - apply (proj1 (proj1 (load_recovers_on_std_exception (ext := storing) 0
                           (broken_dump StdException) (mkGraphTxt 2 4 [])
                           (fresh_backend no_imu_params) reloaded_submaps []
                           eq_refl ltac:(cbn; lia) eq_refl eq_refl)
                    StdException _ _ _ ltac:(discriminate)
                    (or_introl (ex_intro _ [] eq_refl)) Hrec)).
  - eexists. vm_compute. reflexivity.
Defined.

(** C8, counterexample: [graph.bin] fails with an archive exception.  The
    flag stays unset, the repair does not run and the solver is handed an
    empty graph, although [recover_graph] would have supplied the missing
    edge from [X(0)] to [X(1)]; [load] returns [true] all the same. *)
Lemma archive_exception_is_not_recovered :
  load_graph (ext := storing) (broken_dump ArchiveException) [] reloaded_submaps
    = Returned ([], sample_values, false, reloaded_submaps)
  /\ (exists gm1,
        recover_graph [] sample_values reloaded_submaps
        = Returned ([Some (BetweenFactor_Pose3 (X 0) (X 1) (shift_x 2%Q) prior_noise6)],
                    [], gm1))
  /\ exists gm2,
       load (ext := storing) 0 (broken_dump ArchiveException) (fresh_backend no_imu_params)
       = Returned (true, gm2)
       /\ In (on_smoother_update [] sample_values) (callbacks gm2)
       /\ getFactorsUnsafe (Collaborators := storing) (isam2 gm2) = [].
Proof.
  split; [vm_compute; reflexivity|]. split; [eexists; vm_compute; reflexivity|].
  eexists. split; [vm_compute; reflexivity|]. split; [|reflexivity].
  cbn. auto.
Qed.

(** C9, at the failing input: the graph handed to [recover_graph] holds no
    prior on [X(0)]; the patch it returns is the missing edge alone, and the
    damping factor has gone to the pending graph of the back end. *)
Theorem recover_graph_prior_goes_to_pending :
  prior_exists [] = false
  /\ exists gm1,
       recover_graph [] sample_values reloaded_submaps
       = Returned ([Some (BetweenFactor_Pose3 (X 0) (X 1) (shift_x 2%Q) prior_noise6)],
                   [], gm1)
       /\ new_factors gm1
          = [Some (LinearDampingFactor (X 0) 6 (init_pose_damping_scale no_imu_params))]
       /\ new_factors reloaded_submaps = [].
Proof.
  split; [reflexivity|]. eexists. split; [vm_compute; reflexivity|].
  split; reflexivity.
Qed.

(** ** Further properties of the back end *)

Section FurtherProperties.

Context {ISAM2 IMUIntegration : Type} {ext : Collaborators ISAM2 IMUIntegration}.

Implicit Types gm : GlobalMapping (ISAM2 := ISAM2) (IMUIntegration := IMUIntegration).

Ltac decide_order :=
  repeat match goal with
         | |- context [?a =? ?b] => destruct (Z.eqb_spec a b)
         | |- context [?a <=? ?b] => destruct (Z.leb_spec a b)
         | |- context [?a <? ?b] => destruct (Z.ltb_spec a b)
         end;
  cbn [andb orb negb]; try reflexivity; try lia; try congruence.

(** *** Pose read-back *)

Lemma at_Pose3_kind vs k T : at_Pose3 vs k = Returned T -> kind_at vs k = Some Kind_Pose3.
Proof.
  unfold at_Pose3, kind_at. destruct (lookup vs k) as [[?|?|?]|]; cbn; congruence.
Qed.

Lemma nth_error_at_index {A : Type} (l : list A) (n : nat) (a : A) :
  nth_error l n = Some a -> at_index l (Z.of_nat n) = Returned a.
Proof.
  intro H. unfold at_index. destruct (Z.ltb_spec (Z.of_nat n) 0); [lia|].
  now rewrite Nat2Z.id, H.
Qed.

Lemma update_submaps_from_throws (s : ISAM2) (e : Exception) (l : list SubMap) :
  forall i0 n,
  (n < List.length l)%nat ->
  (forall m, (m < n)%nat ->
             kind_at (calculateEstimate s) (X (i0 + Z.of_nat m)) = Some Kind_Pose3) ->
  at_Pose3 (calculateEstimate s) (X (i0 + Z.of_nat n)) = Thrown e ->
  update_submaps_from s i0 l = Thrown e.
Proof.
  induction l as [|a l IH]; intros i0 n Hn Hbefore Hthrow; cbn in Hn; [lia|].
  cbn [update_submaps_from]. unfold calculateEstimate_Pose3. destruct n as [|n].
  - rewrite Z.add_0_r in Hthrow. now rewrite Hthrow.
  - destruct (kind_at_Pose3 _ _ (Hbefore O (Nat.lt_0_succ _))) as [T HT].
    rewrite Z.add_0_r in HT. rewrite HT. cbn [bind].
    rewrite (IH (i0 + 1) n); [reflexivity|lia| |].
    + intros m Hm. replace (i0 + 1 + Z.of_nat m) with (i0 + Z.of_nat (S m)) by lia.
      apply Hbefore. lia.
    + replace (i0 + 1 + Z.of_nat n) with (i0 + Z.of_nat (S n)) by lia. exact Hthrow.
Qed.

(** X1: [update_submaps] returns exactly when the solver's estimate holds a
    pose at [X(i)] for every submap index [i]; it then rewrites the pose of
    submap [i] to that estimate and changes nothing else, in the submaps or
    in the back end. *)
Theorem update_submaps_spec gm :
  ((forall i, 0 <= i < size (submaps gm) ->
              kind_at (calculateEstimate (isam2 gm)) (X i) = Some Kind_Pose3)
   <-> exists gm', update_submaps gm = Returned gm')
  /\ forall gm',
       update_submaps gm = Returned gm' ->
       gm' = set_submaps (submaps gm') gm
       /\ size (submaps gm') = size (submaps gm)
       /\ forall i sm,
            at_index (submaps gm) i = Returned sm ->
            exists T,
              calculateEstimate_Pose3 (isam2 gm) (X i) = Returned T
              /\ at_index (submaps gm') i = Returned (set_T_world_origin T sm).
Proof.
  assert (Hpost : forall gm',
    update_submaps gm = Returned gm' ->
    gm' = set_submaps (submaps gm') gm
    /\ size (submaps gm') = size (submaps gm)
    /\ forall i sm,
         at_index (submaps gm) i = Returned sm ->
         exists T,
           calculateEstimate_Pose3 (isam2 gm) (X i) = Returned T
           /\ at_index (submaps gm') i = Returned (set_T_world_origin T sm)).
  { intros gm' H. unfold update_submaps in H.
    apply bind_Returned_inv in H as [l [Hl H]]. inversion H; subst; clear H.
    destruct (update_submaps_from_spec _ _ _ _ Hl) as [Hlen Hnth].
    split; [reflexivity|]. split; [cbn; unfold size; congruence|].
    intros i sm Hi. apply at_index_inv in Hi as [Hr Hn].
    destruct (Hnth _ _ Hn) as [T [HT Hn']]. exists T.
    rewrite Z.add_0_l, Z2Nat.id in HT by lia. split; [exact HT|].
    cbn [set_submaps submaps]. rewrite <- (Z2Nat.id i) by lia.
    now apply nth_error_at_index. }
  split; [|exact Hpost]. split.
  - intro H. destruct (update_submaps_from_returns (isam2 gm) (submaps gm) 0) as [l [Hl _]].
    { intros n Hn. apply H. unfold size. lia. }
    unfold update_submaps. rewrite Hl. cbn. eauto.
  - intros [gm' Hrun] i Hi.
    destruct (at_index_Returned (submaps gm) i Hi) as [sm Hsm].
    destruct (Hpost gm' Hrun) as [_ [_ Hall]].
    destruct (Hall i sm Hsm) as [T [HT _]]. exact (at_Pose3_kind _ _ _ HT).
Qed.

(** X2: when the estimate holds poses at [X(0)], ..., [X(i-1)] and reading
    [X(i)] as a pose throws (the key is missing, or holds another type) for
    a submap index [i], [update_submaps] throws that exception. *)
Theorem update_submaps_throws gm i e :
  0 <= i < size (submaps gm) ->
  (forall j, 0 <= j < i -> kind_at (calculateEstimate (isam2 gm)) (X j) = Some Kind_Pose3) ->
  at_Pose3 (calculateEstimate (isam2 gm)) (X i) = Thrown e ->
  update_submaps gm = Thrown e.
Proof.
  intros Hi Hbefore Hthrow. unfold update_submaps.
  rewrite (update_submaps_from_throws (isam2 gm) e (submaps gm) 0 (Z.to_nat i)).
  - reflexivity.
  - unfold size in Hi. lia.
  - intros m Hm. apply Hbefore. lia.
  - rewrite Z.add_0_l, Z2Nat.id by lia. exact Hthrow.
Qed.


(** *** Insertion of a submap *)

Lemma values_insert_inv k v vs vs' :
  values_insert k v vs = Returned vs' -> vs' = vs ++ [(k, v)] /\ values_exists vs k = false.
Proof.
  unfold values_insert. destruct (values_exists vs k); [discriminate|].
  intro H. inversion H. split; reflexivity.
Qed.

Lemma no_damping_app g1 g2 : no_damping g1 -> no_damping g2 -> no_damping (g1 ++ g2).
Proof. unfold no_damping. intros H1 H2. now rewrite forallb_app, H1, H2. Qed.

(** What [imu_chain] leaves alone, and what it appends. *)
Lemma imu_chain_inv c l sm gm gm' :
  imu_chain c l sm gm = Returned gm' ->
  submaps gm' = submaps gm
  /\ subsampled_submaps gm' = subsampled_submaps gm
  /\ params gm' = params gm
  /\ isam2 gm' = isam2 gm
  /\ mt gm' = mt gm
  /\ callbacks gm' = callbacks gm
  /\ (exists vals, new_values gm' = new_values gm ++ vals)
  /\ exists added,
       new_factors gm' = new_factors gm ++ added
       /\ no_damping added
       /\ Forall (fun factor => not_null factor = true) added.
Proof.
  unfold imu_chain. intro H.
  repeat match type of H with
         | bind ?m _ = Returned _ =>
             let a := fresh "a" in
             let Ha := fresh "Ha" in
             apply bind_Returned_inv in H as [a [Ha H]]
         | (let '(_, _) := ?p in _) = Returned _ => destruct p
         | (if ?b then _ else _) = Returned _ => destruct b
         end.
all: assert (Hpre : exists vals0 added0,
            v = new_values gm ++ vals0 /\ l0 = new_factors gm ++ added0
            /\ no_damping added0 /\ Forall (fun factor => not_null factor = true) added0)
    by (destruct (0 <? c);
        [ apply bind_Returned_inv in Ha2 as [v1 [Hv1 Ha2]];
          apply bind_Returned_inv in Ha2 as [v2 [Hv2 Ha2]];
          apply bind_Returned_inv in Ha2 as [v3 [Hv3 Ha2]];
          apply values_insert_inv in Hv1 as [-> _];
          apply values_insert_inv in Hv2 as [-> _];
          apply values_insert_inv in Hv3 as [-> _];
          inversion Ha2; subst; do 2 eexists;
          split; [rewrite <- !app_assoc; reflexivity|];
          split; [reflexivity|]; split; [reflexivity|repeat constructor]
        | inversion Ha2; subst; exists [], [];
          rewrite !app_nil_r;
          split; [reflexivity|split; [reflexivity|split; [reflexivity|constructor]]] ]).
  all: destruct Hpre as [vals0 [added0 [-> [-> [Hnd Hnn]]]]];
    apply values_insert_inv in Ha3 as [-> _];
    apply values_insert_inv in Ha4 as [-> _];
    apply values_insert_inv in Ha5 as [-> _];
    inversion H; subst gm'; clear H; cbn;
    do 6 (split; [reflexivity|]);
    (split; [eexists; rewrite <- !app_assoc; reflexivity|]);
    unfold emplace_shared; rewrite <- ?app_assoc;
    eexists; (split; [reflexivity|]);
    (split; [apply no_damping_app; [exact Hnd|reflexivity]
            |apply Forall_app; split; [exact Hnn|repeat constructor]]).
Qed.



(** *** Loops that append *)

(** A loop whose body appends to a list inside its state: the list at the
    end is the list at the start followed by the pieces of the iterations,
    each of them present and nothing else. *)
Lemma for_each_appending {A St C : Type} (proj : St -> list C) (Q : A -> list C -> Prop)
    (body : A -> St -> Outcome St) :
  (forall a s s', body a s = Returned s' -> exists extra, proj s' = proj s ++ extra /\ Q a extra) ->
  forall l s s',
    for_each body l s = Returned s' ->
    exists extras,
      proj s' = proj s ++ extras
      /\ (forall x, In x extras -> exists a extra, In a l /\ Q a extra /\ In x extra)
      /\ (forall a, In a l -> exists extra, Q a extra /\ incl extra extras).
Proof.
  intro Hbody. induction l as [|a l IH]; intros s s' H; cbn [for_each] in H.
  - inversion H; subst. exists []. rewrite app_nil_r. split; [reflexivity|].
    split; intros ? [].
  - apply bind_Returned_inv in H as [s1 [H1 H]].
    destruct (Hbody _ _ _ H1) as [extra [He HQ]].
    destruct (IH _ _ H) as [extras [Hes [Hsound Hcomplete]]].
    exists (extra ++ extras). split; [rewrite Hes, He, app_assoc; reflexivity|]. split.
    + intros x Hx. apply in_app_or in Hx as [Hx|Hx].
      * exists a, extra. split; [left; reflexivity|]. split; assumption.
      * destruct (Hsound x Hx) as [a' [extra' [Ha' [HQ' Hx']]]].
        exists a', extra'. split; [right; exact Ha'|]. split; assumption.
    + intros a' [<-|Ha'].
      * exists extra. split; [exact HQ|]. intros x Hx. apply in_or_app. now left.
      * destruct (Hcomplete a' Ha') as [extra' [HQ' Hincl]].
        exists extra'. split; [exact HQ'|]. intros x Hx. apply in_or_app. right. now apply Hincl.
Qed.

(** The exact form: the list at the end is the list at the start followed
    by one piece per iteration, in the order of the iterations. *)
Lemma for_each_pieces {A St C : Type} (proj : St -> list C) (Q : A -> list C -> Prop)
    (body : A -> St -> Outcome St) :
  (forall a s s', body a s = Returned s' -> exists extra, proj s' = proj s ++ extra /\ Q a extra) ->
  forall l s s',
    for_each body l s = Returned s' ->
    exists pieces, Forall2 Q l pieces /\ proj s' = proj s ++ List.concat pieces.
Proof.
  intro Hbody. induction l as [|a l IH]; intros s s' H; cbn [for_each] in H.
  - inversion H; subst. exists []. split; [constructor|]. cbn. now rewrite app_nil_r.
  - apply bind_Returned_inv in H as [s1 [H1 H]].
    destruct (Hbody _ _ _ H1) as [extra [He HQ]].
    destruct (IH _ _ H) as [pieces [HF Hes]].
    exists (extra :: pieces). split; [now constructor|].
    cbn [List.concat]. rewrite Hes, He, app_assoc. reflexivity.
Qed.

(** The pieces of two nested loops, row by row, are the pieces of the pairs
    the loops visit. *)
Lemma Forall2_rows {A B C : Type} (P : A -> B -> list C -> Prop) (f : A -> list B)
    (l : list A) (rows : list (list C)) :
  Forall2 (fun a row => exists pieces, Forall2 (P a) (f a) pieces /\ row = List.concat pieces)
          l rows ->
  exists pieces,
    Forall2 (fun ab piece => P (fst ab) (snd ab) piece)
            (flat_map (fun a => map (pair a) (f a)) l) pieces
    /\ List.concat rows = List.concat pieces.
Proof.
  induction 1 as [|a row l rows [ps [Hps ->]] _ [pieces [HF Hc]]].
  - exists []. split; [constructor|reflexivity].
  - exists (ps ++ pieces). cbn [flat_map List.concat]. split.
    + apply Forall2_app; [|exact HF].
      clear - Hps. induction Hps; cbn [map]; constructor; assumption.
    + rewrite concat_app, Hc. reflexivity.
Qed.

(** *** Matching-cost factors *)

Lemma matching_cost_body_piece current cur gm i st st' :
  matching_cost_body current cur gm i st = Returned st' ->
  exists extra, fst st' = fst st ++ extra /\ matching_cost_piece current cur gm i extra.
Proof.
  destruct st as [factors po]. unfold matching_cost_body, matching_cost_piece. intro H.
  apply bind_Returned_inv in H as [si [Hsi H]].
  destruct (norm_gt _ _) eqn:Hd.
  { inversion H; subst. exists []. rewrite app_nil_r. split; [reflexivity|].
    exists si. split; [exact Hsi|]. left. split; [reflexivity|].
    intros vm gpu _ _ [Hd' _]. congruence. }
  apply bind_Returned_inv in H as [vm [Hvm H]].
  destruct (Qltb (overlap_auto vm (merged_keyframe cur) (relative_pose si cur)) _) eqn:Ho.
  { inversion H; subst. exists []. rewrite app_nil_r. split; [reflexivity|].
    exists si. split; [exact Hsi|]. left. split; [reflexivity|].
    intros vm' gpu Hvm' _ [_ Ho']. rewrite Hvm in Hvm'. inversion Hvm'; subst.
    apply Qltb_lt in Ho. exact (Qlt_not_le _ _ Ho Ho'). }
  assert (Hloop : implicit_loop cur si vm gm).
  { split; [exact Hd|]. now apply Qltb_ge. }
  unfold registration_device.
  destruct (String.eqb (registration_error_factor_type (params gm)) "VGICP").
  { apply bind_Returned_inv in H as [source [Hsrc H]]. inversion H; subst.
    eexists. split; [reflexivity|]. exists si. split; [exact Hsi|]. right.
    exists vm, source, false. do 4 (split; [first [assumption|reflexivity]|]). reflexivity. }
  destruct (GTSAM_POINTS_USE_CUDA && _).
  { apply bind_Returned_inv in H as [source [Hsrc H]]. inversion H; subst.
    eexists. split; [reflexivity|]. exists si. split; [exact Hsi|]. right.
    exists vm, source, true. do 4 (split; [first [assumption|reflexivity]|]). reflexivity. }
  inversion H; subst. exists []. rewrite app_nil_r. split; [reflexivity|].
  exists si. split; [exact Hsi|]. left. split; [reflexivity|]. discriminate.
Qed.


Lemma matching_cost_loop_pieces current cur gm (l : list Z) st st' :
  for_each (matching_cost_body current cur gm) l st = Returned st' ->
  exists extras,
    fst st' = fst st ++ extras
    /\ (forall x, In x extras ->
          exists i extra, In i l /\ matching_cost_piece current cur gm i extra /\ In x extra)
    /\ (forall i, In i l ->
          exists extra, matching_cost_piece current cur gm i extra /\ incl extra extras).
Proof.
  apply (for_each_appending fst (matching_cost_piece current cur gm)).
  intros a s s'. apply matching_cost_body_piece.
Qed.

(** X3: what [create_matching_cost_factors] returns is exactly one piece
    per earlier submap [i], in the order of the indices, followed by at
    most the safety-net between-factor.  The piece of submap [i] is one
    VGICP factor per voxel map of submap [i] between [X(i)] and
    [X(current)], with the retained subsample of the current submap as
    source, when the registration factor type is one the build supports
    and submap [i] passes the distance and the overlap test; it is empty
    otherwise. *)
Theorem create_matching_cost_factors_pairs current gm g :
  create_matching_cost_factors current gm = Returned g ->
  exists pieces tail,
    g = List.concat pieces ++ tail
    /\ Forall2 (fun i piece =>
                  exists cur, back (submaps gm) = Returned cur
                              /\ matching_cost_piece current cur gm i piece)
               (range 0 current) pieces
    /\ (tail = []
        \/ exists sl sc,
             at_index (submaps gm) (current - 1) = Returned sl
             /\ at_index (submaps gm) current = Returned sc
             /\ tail = [Some (safety_net_factor current sl sc)]).
Proof.
  unfold create_matching_cost_factors. intro H.
  destruct (Z.eqb_spec current 0) as [->|Hne].
  { inversion H; subst. exists [], []. split; [reflexivity|]. split; [constructor|now left]. }
  apply bind_Returned_inv in H as [cur0 [Hcur H]].
  apply bind_Returned_inv in H as [[factors po] [Hloop H]].
  destruct (for_each_pieces fst (matching_cost_piece current cur0 gm)
              (matching_cost_body current cur0 gm)
              (fun a s s' => matching_cost_body_piece current cur0 gm a s s')
              _ _ _ Hloop) as [pieces [HF He]].
  cbn [fst app] in He. subst factors.
  assert (HF' : Forall2 (fun i piece =>
                           exists cur, back (submaps gm) = Returned cur
                                       /\ matching_cost_piece current cur gm i piece)
                        (range 0 current) pieces).
  { eapply Forall2_impl; [|exact HF]. intros i piece Hp. exists cur0. split; assumption. }
  destruct (Qltb po _).
  - apply bind_Returned_inv in H as [sl [Hsl H]].
    apply bind_Returned_inv in H as [sc [Hsc H]]. inversion H; subst; clear H.
    exists pieces. eexists. split; [reflexivity|]. split; [exact HF'|].
    right. exists sl, sc. repeat split; assumption.
  - inversion H; subst; clear H. exists pieces, []. rewrite app_nil_r.
    split; [reflexivity|]. split; [exact HF'|now left].
Qed.


(** *** The pending graph of an insertion *)

Lemma for_each_ext {A St : Type} (body body' : A -> St -> Outcome St) (l : list A) :
  (forall a s, body a s = body' a s) -> forall s, for_each body l s = for_each body' l s.
Proof.
  intro H. induction l as [|a l IH]; intro s; cbn [for_each]; [reflexivity|].
  rewrite H. destruct (body' a s); cbn [bind]; auto.
Qed.

Lemma create_between_factors_ext c gm gm' :
  submaps gm' = submaps gm -> params gm' = params gm ->
  create_between_factors c gm' = create_between_factors c gm.
Proof. intros Hs Hp. unfold create_between_factors. now rewrite Hs, Hp. Qed.

Lemma create_matching_cost_factors_ext c gm gm' :
  submaps gm' = submaps gm ->
  subsampled_submaps gm' = subsampled_submaps gm ->
  params gm' = params gm ->
  create_matching_cost_factors c gm' = create_matching_cost_factors c gm.
Proof.
  intros Hs Hss Hp. unfold create_matching_cost_factors. rewrite Hs, Hp.
  destruct (c =? 0); [reflexivity|]. destruct (back (submaps gm)) as [cur| | | |]; cbn [bind];
    try reflexivity.
  rewrite (for_each_ext (matching_cost_body c cur gm') (matching_cost_body c cur gm));
    [reflexivity|].
  intros i [factors po]. unfold matching_cost_body. now rewrite Hs, Hss, Hp.
Qed.

Lemma insert_submap_at_frame current submap gm :
  params (snd (insert_submap_at current submap gm)) = params gm
  /\ isam2 (snd (insert_submap_at current submap gm)) = isam2 gm
  /\ callbacks (snd (insert_submap_at current submap gm)) = callbacks gm
  /\ new_values (snd (insert_submap_at current submap gm)) = new_values gm
  /\ new_factors (snd (insert_submap_at current submap gm)) = new_factors gm
  /\ imu_integration (snd (insert_submap_at current submap gm)) = imu_integration gm
  /\ submaps (snd (insert_submap_at current submap gm))
     = submaps gm ++ [fst (insert_submap_at current submap gm)]
  /\ exists src,
       subsampled_submaps (snd (insert_submap_at current submap gm))
       = subsampled_submaps gm ++ [src].
Proof.
  destruct (insert_submap_at_eq current submap gm) as [sm' [src [mt' [-> _]]]]. cbn.
  repeat split. eauto.
Qed.

(** The pending graph and values that [insert_submap_assemble] leaves, by
    parts. *)
Lemma insert_submap_assemble_inv submap gm sm gm1 :
  insert_submap_assemble submap gm = Returned (sm, gm1) ->
  exists T chain imu_part vals src,
    sm = set_T_world_origin T (fst (insert_submap_at (size (submaps gm)) submap gm))
    /\ (size (submaps gm) = 0 -> T = T_world_origin submap)
    /\ submaps gm1 = submaps gm ++ [sm]
    /\ subsampled_submaps gm1 = subsampled_submaps gm ++ [src]
    /\ params gm1 = params gm
    /\ isam2 gm1 = isam2 gm
    /\ callbacks gm1 = callbacks gm ++ [on_insert_submap sm]
    /\ values_exists (new_values gm) (X (size (submaps gm))) = false
    /\ new_values gm1 = new_values gm ++ (X (size (submaps gm)), Value_Pose3 T) :: vals
    /\ new_factors gm1 = new_factors gm ++ chain ++ imu_part
    /\ (size (submaps gm) = 0 ->
        chain = [Some (LinearDampingFactor (X 0) 6 (init_pose_damping_scale (params gm)))])
    /\ (size (submaps gm) <> 0 ->
        exists between matching,
          create_between_factors (size (submaps gm)) gm1 = Returned between
          /\ create_matching_cost_factors (size (submaps gm)) gm1 = Returned matching
          /\ chain = between ++ matching)
    /\ no_damping imu_part
    /\ Forall (fun factor => not_null factor = true) imu_part
    /\ (enable_imu (params gm) = false -> imu_part = [] /\ vals = []).
Proof.
  unfold insert_submap_assemble. intro H.
  destruct (insert_submap_at_frame (size (submaps gm)) submap gm)
    as [Hp [Hi [Hcb [Hnv [Hnf [_ [Hs [src Hss]]]]]]]].
  destruct (insert_submap_at (size (submaps gm)) submap gm) as [sm0 gm0] eqn:Hat.
  cbn [fst snd] in *.
  apply bind_Returned_inv in H as [T [HT H]].
  apply bind_Returned_inv in H as [v [Hv H]].
  apply values_insert_inv in Hv as [-> Hfresh].
  apply bind_Returned_inv in H as [gm2 [Hchain H]].
  apply bind_Returned_inv in H as [gm3 [Himu H]].
  inversion H; subst sm gm1; clear H.
  cbn [params notify set_submaps set_new_values submaps] in Hchain, Himu.
  rewrite Hs, set_back_app in Hchain.

  set (sm := set_T_world_origin T sm0) in *.
  set (gmA := notify (on_insert_submap sm)
                (set_submaps (submaps gm ++ [sm])
                   (set_new_values (new_values gm0 ++ [(X (size (submaps gm)), Value_Pose3 T)])
                      gm0))) in *.
  assert (HT0 : size (submaps gm) = 0 -> T = T_world_origin submap).
  { intro Hz. unfold predict_pose in HT. rewrite Hz in HT. cbn in HT.
    inversion HT. destruct (insert_submap_at_eq 0 submap gm) as [x [y [z [Heq [Hw _]]]]].
    rewrite <- Hz, Hat in Heq. inversion Heq; subst. exact Hw. }
  assert (Hchain' : exists chain,
            submaps gm2 = submaps gm ++ [sm]
            /\ subsampled_submaps gm2 = subsampled_submaps gm ++ [src]
            /\ params gm2 = params gm /\ isam2 gm2 = isam2 gm
            /\ callbacks gm2 = callbacks gm ++ [on_insert_submap sm]
            /\ new_values gm2 = new_values gm ++ [(X (size (submaps gm)), Value_Pose3 T)]
            /\ new_factors gm2 = new_factors gm ++ chain
            /\ mt gm2 = mt gm0 /\ imu_integration gm2 = imu_integration gm0
            /\ (size (submaps gm) = 0 ->
                chain = [Some (LinearDampingFactor (X 0) 6 (init_pose_damping_scale (params gm)))])
            /\ (size (submaps gm) <> 0 ->
                exists between matching,
                  create_between_factors (size (submaps gm)) gmA = Returned between
                  /\ create_matching_cost_factors (size (submaps gm)) gmA = Returned matching
                  /\ chain = between ++ matching)).
  { destruct (Z.eqb_spec (size (submaps gm)) 0) as [Hz|Hnz].
    - inversion Hchain; subst gm2; clear Hchain. eexists. subst gmA. cbn.
      rewrite Hss, Hp, Hi, Hcb, Hnv, Hnf. do 9 (split; [reflexivity|]).
      split; [intros _; reflexivity|intro; contradiction].
    - apply bind_Returned_inv in Hchain as [between [Hb Hchain]].
      apply bind_Returned_inv in Hchain as [matching [Hm Hchain]].
      inversion Hchain; subst gm2; clear Hchain.
      exists (between ++ matching). subst gmA. cbn. unfold graph_add.
      rewrite Hss, Hp, Hi, Hcb, Hnv, Hnf, <- app_assoc. do 9 (split; [reflexivity|]).
      split; [intro; contradiction|]. intros _. exists between, matching.
      split; [exact Hb|]. split; [|reflexivity].
      rewrite <- Hm. apply create_matching_cost_factors_ext; reflexivity. }
  destruct Hchain' as [chain [Hs2 [Hss2 [Hp2 [Hi2 [Hcb2 [Hnv2 [Hnf2 [_ [_ [Hfirst Hlater]]]]]]]]]]].
  assert (Hext : forall gmB,
            submaps gmB = submaps gm ++ [sm] ->
            subsampled_submaps gmB = subsampled_submaps gm ++ [src] ->
            params gmB = params gm ->
            size (submaps gm) <> 0 ->
            exists between matching,
              create_between_factors (size (submaps gm)) gmB = Returned between
              /\ create_matching_cost_factors (size (submaps gm)) gmB = Returned matching
              /\ chain = between ++ matching).
  { intros gmB HsB HssB HpB Hnz. destruct (Hlater Hnz) as [b [m [Hb [Hm Hc]]]].
    exists b, m. split; [|split; [|exact Hc]].
    - rewrite <- Hb. apply create_between_factors_ext.
      + rewrite HsB. subst gmA. reflexivity.
      + rewrite HpB. subst gmA. cbn. now rewrite Hp.
    - rewrite <- Hm. apply create_matching_cost_factors_ext.
      + rewrite HsB. subst gmA. reflexivity.
      + rewrite HssB. subst gmA. cbn. now rewrite Hss.
      + rewrite HpB. subst gmA. cbn. now rewrite Hp. }
  rewrite Hp2 in Himu. destruct (enable_imu (params gm)) eqn:Himu_on.
  - apply imu_chain_inv in Himu
      as [Hs3 [Hss3 [Hp3 [Hi3 [_ [Hcb3 [[vals Hnv3] [added [Hnf3 [Hnd Hnn]]]]]]]]]].
    exists T, chain, added, vals, src.
    split; [reflexivity|]. split; [exact HT0|].
    split; [congruence|]. split; [congruence|]. split; [congruence|]. split; [congruence|].
    split; [congruence|]. split; [rewrite <- Hnv; exact Hfresh|].
    split; [rewrite Hnv3, Hnv2, <- app_assoc; reflexivity|].
    split; [rewrite Hnf3, Hnf2, <- app_assoc; reflexivity|].
    split; [exact Hfirst|]. split; [apply Hext; congruence|].
    split; [exact Hnd|]. split; [exact Hnn|discriminate].
  - inversion Himu; subst gm3; clear Himu.
    exists T, chain, [], [], src.
    split; [reflexivity|]. split; [exact HT0|].
    do 5 (split; [assumption|]). split; [rewrite <- Hnv; exact Hfresh|].
    split; [exact Hnv2|]. split; [rewrite app_nil_r; exact Hnf2|].
    split; [exact Hfirst|]. split; [apply Hext; assumption|].
    split; [reflexivity|]. split; [constructor|]. intros _. split; reflexivity.
Qed.


Lemma pose_chain_In g :
  (forall x, In x g -> exists f, x = Some f /\ is_vgicp f || is_BetweenFactor_Pose3 f = true) ->
  pose_chain g.
Proof.
  intro H. unfold pose_chain. apply forallb_forall. intros x Hx.
  destruct (H x Hx) as [f [-> Hf]]. exact Hf.
Qed.

Lemma pose_chain_no_damping g : pose_chain g -> no_damping g.
Proof.
  unfold pose_chain, no_damping. rewrite !forallb_forall. intros H x Hx.
  specialize (H x Hx). destruct x as [f|]; [|reflexivity]. now destruct f.
Qed.

Lemma pose_chain_not_null g : pose_chain g -> Forall (fun factor => not_null factor = true) g.
Proof.
  unfold pose_chain. rewrite forallb_forall, Forall_forall. intros H x Hx.
  specialize (H x Hx). now destruct x.
Qed.

Lemma In_vgicp_factors factor gpu i j target source :
  In factor (vgicp_factors gpu i j target source) ->
  exists f, factor = Some f /\ is_vgicp f = true /\ keys f = [X i; X j].
Proof.
  unfold vgicp_factors, one_per_voxelmap. rewrite in_map_iff. intros [vm [<- _]].
  eexists. split; [reflexivity|]. destruct gpu; split; reflexivity.
Qed.

Lemma create_between_factors_cases c gm g :
  create_between_factors c gm = Returned g ->
  (g = [] /\ (c = 0 \/ enable_between_factors (params gm) = false))
  \/ exists T noise, g = [Some (BetweenFactor_Pose3 (X (c - 1)) (X c) T noise)].
Proof.
  unfold create_between_factors. intro H.
  destruct (Z.eqb_spec c 0) as [Hz|Hnz]; cbn [orb] in H.
  { inversion H. left. split; [reflexivity|now left]. }
  destruct (enable_between_factors (params gm)); cbn [negb] in H.
  2: { inversion H. left. split; [reflexivity|now right]. }
  apply bind_Returned_inv in H as [sl [Hsl H]].
  apply bind_Returned_inv in H as [sc [Hsc H]]. right.
  destruct (String.eqb _ _); [|destruct (optimize_gicp _ _ _)]; inversion H; eauto.
Qed.

Lemma create_between_factors_pose_chain c gm g :
  create_between_factors c gm = Returned g -> pose_chain g.
Proof.
  intro H. destruct (create_between_factors_cases _ _ _ H) as [[-> _]|[T [noise ->]]];
    reflexivity.
Qed.

Lemma create_matching_cost_factors_pose_chain c gm g :
  create_matching_cost_factors c gm = Returned g -> pose_chain g.
Proof.
  unfold create_matching_cost_factors. intro H.
  destruct (c =? 0); [inversion H; reflexivity|].
  apply bind_Returned_inv in H as [cur [Hcur H]].
  apply bind_Returned_inv in H as [[factors po] [Hloop H]].
  destruct (matching_cost_loop_pieces _ _ _ _ _ _ Hloop) as [extras [He [Hsound _]]].
  cbn [fst app] in He. subst extras.
  assert (Hf : pose_chain factors).
  { apply pose_chain_In. intros x Hx.
    destruct (Hsound x Hx) as [i [extra [_ [[si [_ Hcase]] Hin]]]].
    destruct Hcase as [[-> _]|[vm [source [gpu [_ [_ [_ [_ ->]]]]]]]]; [destruct Hin|].
    destruct (In_vgicp_factors _ _ _ _ _ _ Hin) as [f [-> [Hv _]]].
    exists f. split; [reflexivity|]. now rewrite Hv. }
  destruct (Qltb po _).
  - apply bind_Returned_inv in H as [sl [_ H]]. apply bind_Returned_inv in H as [sc [_ H]].
    inversion H. apply pose_chain_app; [exact Hf|reflexivity].
  - inversion H; subst. exact Hf.
Qed.

(** X4: [insert_submap] announces the submap, then the smoother update
    with the pending factors and values, then its result, then the updated
    submaps, in this order and nothing else; the pending values start with
    the pose of the new submap at [X(current)]; when it returns the pending
    graph and values are empty again and the two submap vectors have grown
    by one. *)
Theorem insert_submap_callbacks fuel submap gm gm' :
  insert_submap fuel submap gm = Returned gm' ->
  exists sm factors values result,
    callbacks gm'
    = callbacks gm ++ [on_insert_submap sm; on_smoother_update factors values;
                       on_smoother_update_result result; on_update_submaps (submaps gm')]
    /\ (exists tail,
          values = new_values gm
                   ++ (X (size (submaps gm)), Value_Pose3 (T_world_origin sm)) :: tail)
    /\ (exists added, factors = new_factors gm ++ added)
    /\ new_values gm' = []
    /\ new_factors gm' = []
    /\ size (submaps gm') = size (submaps gm) + 1
    /\ size (subsampled_submaps gm') = size (subsampled_submaps gm) + 1
    /\ params gm' = params gm.
Proof.
  unfold insert_submap. intro H.
  apply bind_Returned_inv in H as [[sm gm1] [Hasm H]].
  apply bind_Returned_inv in H as [[result gm2] [Hupd H]].
  apply bind_Returned_inv in H as [gm3 [Hsub H]].
  inversion H; subst gm'; clear H.
  apply update_isam2_frame in Hupd as [s ->].
  unfold update_submaps in Hsub. apply bind_Returned_inv in Hsub as [l [Hl Hsub]].
  inversion Hsub; subst gm3; clear Hsub.
  destruct (update_submaps_from_spec _ _ _ _ Hl) as [Hlen _].
  cbn in Hlen.
  destruct (insert_submap_assemble_inv _ _ _ _ Hasm)
    as [T [chain [imu_part [vals [src [Hsm [_ [Hs [Hss [Hp [_ [Hcb [_ [Hnv [Hnf _]]]]]]]]]]]]]]].
  exists sm, (new_factors gm1), (new_values gm1), result. cbn.
  rewrite Hcb, <- !app_assoc. split; [reflexivity|].
  split; [exists vals; rewrite Hnv, Hsm; reflexivity|].
  split; [eexists; exact Hnf|]. do 2 (split; [reflexivity|]).
  split; [unfold size; rewrite Hlen, Hs, length_app; cbn; lia|].
  split; [rewrite Hss, size_app; reflexivity|exact Hp].
Qed.

(** X5: the only [LinearDampingFactor] that an insertion adds to the pending
    graph is the one that anchors the first submap: for the first submap
    the added factors start with the damping factor on [X(0)], of
    dimension 6 and scale [init_pose_damping_scale], no other damping
    factor follows and the submap keeps the pose it came with; for a later
    submap no damping factor is added. *)
Theorem insert_submap_damping_only_first submap gm sm gm1 :
  insert_submap_assemble submap gm = Returned (sm, gm1) ->
  exists added,
    new_factors gm1 = new_factors gm ++ added
    /\ (size (submaps gm) = 0 ->
        exists rest,
          added = Some (LinearDampingFactor (X 0) 6 (init_pose_damping_scale (params gm)))
                  :: rest
          /\ no_damping rest
          /\ T_world_origin sm = T_world_origin submap)
    /\ (size (submaps gm) <> 0 -> no_damping added).
Proof.
  intro H.
  destruct (insert_submap_assemble_inv _ _ _ _ H)
    as [T [chain [imu_part [vals [src [Hsm [HT [_ [_ [_ [_ [_ [_ [_ [Hnf [Hfirst [Hlater
        [Hnd _]]]]]]]]]]]]]]]]]].
  exists (chain ++ imu_part). split; [exact Hnf|]. split.
  - intro Hz. exists imu_part. rewrite (Hfirst Hz). split; [reflexivity|].
    split; [exact Hnd|]. rewrite Hsm, (HT Hz). reflexivity.
  - intro Hnz. destruct (Hlater Hnz) as [between [matching [Hb [Hm ->]]]].
    apply no_damping_app; [|exact Hnd]. apply pose_chain_no_damping.
    apply pose_chain_app;
      [exact (create_between_factors_pose_chain _ _ _ Hb)
      |exact (create_matching_cost_factors_pose_chain _ _ _ Hm)].
Qed.


(** *** The link to the predecessor *)

Lemma std_max_ge_r (a b : double) : (b <= std_max a b)%Q.
Proof.
  unfold std_max. destruct (Qltb a b) eqn:H; [apply Qle_refl|].
  now apply Qltb_ge in H.
Qed.

Lemma back_nonempty {A : Type} (l : list A) (a : A) : back l = Returned a -> l <> [].
Proof. intros H ->. discriminate H. Qed.

(** The state of [previous_overlap] after the loop, and the factors of the
    loop, on a back end whose submaps are voxelised. *)
Lemma matching_cost_loop_run current gm pred cur voxelmap :
  1 <= current ->
  size (submaps gm) = current + 1 ->
  size (subsampled_submaps gm) = size (submaps gm) ->
  voxelized gm ->
  at_index (submaps gm) (current - 1) = Returned pred ->
  at_index (submaps gm) current = Returned cur ->
  back (voxelmaps pred) = Returned voxelmap ->
  back (submaps gm) = Returned cur
  /\ exists factors,
       for_each (matching_cost_body current cur gm) (range 0 current) ([], 0%Q)
       = Returned (factors, overlap_seen current cur gm (current - 1) pred voxelmap 0%Q).
Proof.
  intros Hc Hsize Hsub Hvox Hpred Hcur Hvm.
  assert (Hback : back (submaps gm) = Returned cur).
  { apply at_index_inv in Hcur as [_ Hn].
    destruct (submaps gm) as [|a l] eqn:Hs using rev_ind; [destruct (Z.to_nat current); discriminate|].
    rewrite back_app. f_equal. rewrite size_app in Hsize.
    change (size [a]) with 1 in Hsize.
    rewrite nth_error_app2 in Hn by (unfold size in Hsize; lia).
    replace (Z.to_nat current - List.length l)%nat with O in Hn by (unfold size in Hsize; lia).
    now inversion Hn. }
  split; [exact Hback|].
  destruct (matching_cost_loop current cur gm pred voxelmap Hc Hsize Hsub Hvox Hpred Hvm
              (Z.to_nat current)) as [factors [Hloop _]]; [lia|].
  rewrite Z2Nat.id, Z.eqb_refl in Hloop by lia. eauto.
Qed.

Lemma create_matching_cost_factors_link current gm gpu :
  1 <= current ->
  size (submaps gm) = current + 1 ->
  size (subsampled_submaps gm) = size (submaps gm) ->
  voxelized gm ->
  registration_device gm = Some gpu ->
  exists g f,
    create_matching_cost_factors current gm = Returned g
    /\ In (Some f) g
    /\ keys f = [X (current - 1); X current].
Proof.
  intros Hc Hsize Hsub Hvox Hreg.
  destruct (at_index_Returned (submaps gm) (current - 1)) as [pred Hpred]; [lia|].
  destruct (at_index_Returned (submaps gm) current) as [cur Hcur]; [lia|].
  assert (Hvm : exists vm, back (voxelmaps pred) = Returned vm).
  { apply back_Returned. unfold voxelized in Hvox. rewrite Forall_forall in Hvox.
    apply Hvox. eapply at_index_In; eauto. }
  destruct Hvm as [vm Hvm].
  destruct (matching_cost_loop_run current gm pred cur vm Hc Hsize Hsub Hvox Hpred Hcur Hvm)
    as [Hback [factors Hloop]].
  unfold create_matching_cost_factors.
  destruct (Z.eqb_spec current 0); [lia|].
  rewrite Hback. cbn [bind]. rewrite Hloop. cbn [bind].
  destruct (Qltb _ _) eqn:Hsafe.
  - rewrite Hpred. cbn [bind]. rewrite Hcur. cbn [bind].
    do 2 eexists. split; [reflexivity|]. split; [apply in_or_app; right; left; reflexivity|].
    reflexivity.
  - exists factors. apply Qltb_ge in Hsafe.
    assert (Hpos : (0 < overlap_seen current cur gm (current - 1) pred vm 0)%Q).
    { eapply Qlt_le_trans; [apply std_max_quarter_pos|exact Hsafe]. }
    unfold overlap_seen in Hsafe, Hpos.
    destruct (norm_gt _ _) eqn:Hd; [exfalso; exact (Qlt_irrefl _ Hpos)|].
    rewrite Z.eqb_refl in Hsafe.
    assert (Hl : implicit_loop cur pred vm gm).
    { split; [exact Hd|]. eapply Qle_trans; [apply std_max_ge_r|exact Hsafe]. }
    destruct (matching_cost_loop_pieces _ _ _ _ _ _ Hloop) as [extras [He [_ Hcomplete]]].
    cbn [fst app] in He. subst extras.
    destruct (Hcomplete (current - 1)) as [extra [[si [Hsi Hcase]] Hincl]];
      [apply In_range; lia|].
    rewrite Hpred in Hsi. inversion Hsi; subst si.
    destruct Hcase as [[_ Hno]|[vm' [source [gpu' [_ [_ [_ [_ ->]]]]]]]];
      [destruct (Hno vm gpu Hvm Hreg Hl)|].
    apply back_nonempty in Hvm. unfold vgicp_factors, one_per_voxelmap in Hincl.
    destruct (voxelmaps pred) as [|v0 vs]; [contradiction|].
    eexists. split; [reflexivity|]. split; [apply Hincl; left; reflexivity|].
    now destruct gpu'.
Qed.

Lemma registration_device_ext gm gm' :
  params gm' = params gm -> registration_device gm' = registration_device gm.
Proof. intro H. unfold registration_device. now rewrite H. Qed.

(** The pending graph of a non-first insertion links the new submap to its
    predecessor. *)
Lemma insert_submap_assemble_link submap gm :
  consistent gm ->
  has_frames submap ->
  0 < submap_voxelmap_levels (params gm) ->
  0 < size (submaps gm) ->
  links_enabled gm ->
  exists sm gm1 f,
    insert_submap_assemble submap gm = Returned (sm, gm1)
    /\ In (Some f) (new_factors gm1)
    /\ keys f = [X (size (submaps gm) - 1); X (size (submaps gm))].
Proof.
  intros Hok Hfr Hlev Hpos Hcfg.
  destruct (insert_submap_assemble_spec submap gm Hok Hfr Hlev)
    as [sm [gm1 [chain0 [Hrun [Hs1 [Hss1 [Hvm _]]]]]]].
  exists sm, gm1.
  destruct (insert_submap_assemble_inv _ _ _ _ Hrun)
    as [T [chain [imu_part [vals [src [_ [_ [_ [_ [Hp [_ [_ [_ [_ [Hnf [_ [Hlater _]]]]]]]]]]]]]]]]].
  destruct Hlater as [between [matching [Hb [Hm ->]]]]; [lia|].
  assert (Hin : forall f, In (Some f) (between ++ matching) -> In (Some f) (new_factors gm1)).
  { intros f Hf. rewrite Hnf. apply in_or_app. right. apply in_or_app. now left. }
  destruct Hcfg as [Hen|Hreg].
  - destruct (create_between_factors_cases _ _ _ Hb) as [[_ [Hz|Hoff]]|[T' [noise ->]]].
    + lia.
    + rewrite Hp in Hoff. congruence.
    + eexists. split; [exact Hrun|]. split; [apply Hin; left; reflexivity|reflexivity].
  - destruct (registration_device gm) as [gpu|] eqn:Hdev; [|contradiction].
    destruct (create_matching_cost_factors_link (size (submaps gm)) gm1 gpu)
      as [g [f [Hg [Hf Hk]]]].
    + lia.
    + rewrite Hs1, size_app. reflexivity.
    + exact Hss1.
    + unfold voxelized. rewrite Hs1. apply Forall_app. split; [apply (c_voxelized gm Hok)|].
      constructor; [exact Hvm|constructor].
    + rewrite (registration_device_ext gm gm1 Hp). exact Hdev.
    + rewrite Hm in Hg. inversion Hg; subst g.
      exists f. split; [exact Hrun|]. split; [|exact Hk].
      apply Hin. apply in_or_app. now right.
Qed.

(** X6: with a registration factor type that the build does not know
    (anything but VGICP, or VGICP_GPU without CUDA) [create_matching_cost_factors]
    creates no matching-cost factor: it returns nothing or the safety-net
    between-factor alone; and it returns nothing at all, leaving the new
    submap without a factor to any earlier one, when the predecessor is
    within the distance bound and overlaps by at least
    [max(0.25, min_implicit_loop_overlap)]. *)
Theorem create_matching_cost_factors_unknown_type current gm :
  registration_device gm = None ->
  (forall g,
     create_matching_cost_factors current gm = Returned g ->
     g = []
     \/ exists sl sc,
          at_index (submaps gm) (current - 1) = Returned sl
          /\ at_index (submaps gm) current = Returned sc
          /\ g = [Some (safety_net_factor current sl sc)])
  /\ (forall pred cur voxelmap,
        1 <= current ->
        size (submaps gm) = current + 1 ->
        size (subsampled_submaps gm) = size (submaps gm) ->
        voxelized gm ->
        at_index (submaps gm) (current - 1) = Returned pred ->
        at_index (submaps gm) current = Returned cur ->
        back (voxelmaps pred) = Returned voxelmap ->
        norm_gt (sub3 (translation (T_world_origin pred)) (translation (T_world_origin cur)))
                (max_implicit_loop_distance (params gm)) = false ->
        (std_max (1 # 4) (min_implicit_loop_overlap (params gm))
         <= overlap_auto voxelmap (merged_keyframe cur) (relative_pose pred cur))%Q ->
        create_matching_cost_factors current gm = Returned []).
Proof.
  intro Hreg.
  assert (Hnone : forall cur l st st',
            for_each (matching_cost_body current cur gm) l st = Returned st' ->
            fst st' = fst st).
  { intros cur l st st' Hloop.
    destruct (matching_cost_loop_pieces _ _ _ _ _ _ Hloop) as [extras [He [Hsound _]]].
    rewrite He. destruct extras as [|x extras]; [apply app_nil_r|].
    destruct (Hsound x (or_introl eq_refl)) as [i [extra [_ [[si [_ Hcase]] Hin]]]].
    destruct Hcase as [[-> _]|[vm [source [gpu [_ [_ [Hdev _]]]]]]]; [destruct Hin|congruence]. }
  split.
  - unfold create_matching_cost_factors. intros g H.
    destruct (current =? 0); [inversion H; now left|].
    apply bind_Returned_inv in H as [cur [Hcur H]].
    apply bind_Returned_inv in H as [[factors po] [Hloop H]].
    apply Hnone in Hloop. cbn [fst] in Hloop. subst factors.
    destruct (Qltb po _).
    + apply bind_Returned_inv in H as [sl [Hsl H]].
      apply bind_Returned_inv in H as [sc [Hsc H]]. inversion H. right.
      exists sl, sc. repeat split; assumption.
    + inversion H. now left.
  - intros pred cur vm Hc Hsize Hsub Hvox Hpred Hcur Hvm Hd Ho.
    destruct (matching_cost_loop_run current gm pred cur vm Hc Hsize Hsub Hvox Hpred Hcur Hvm)
      as [Hback [factors Hloop]].
    unfold create_matching_cost_factors.
    destruct (Z.eqb_spec current 0); [lia|].
    rewrite Hback. cbn [bind]. rewrite Hloop. cbn [bind].
    apply Hnone in Hloop. cbn [fst] in Hloop. subst factors.
    unfold overlap_seen. rewrite Hd, Z.eqb_refl.
    apply Qltb_ge in Ho. rewrite Ho. reflexivity.
Qed.


(** *** The pairs of the overlap search *)

Lemma overlap_body_piece m e gm i j factors factors' :
  overlap_body m e gm i j factors = Returned factors' ->
  exists extra, factors' = factors ++ extra /\ overlap_piece m e gm i j extra.
Proof.
  unfold overlap_body, overlap_piece, relative_pose. intro H.
  destruct (count_pair e i j) eqn:Hc.
  { inversion H. exists []. rewrite app_nil_r. split; [reflexivity|]. left. auto. }
  apply bind_Returned_inv in H as [si [Hsi H]].
  apply bind_Returned_inv in H as [sj [Hsj H]].
  destruct (norm_gt _ _) eqn:Hd.
  { inversion H. exists []. rewrite app_nil_r. split; [reflexivity|]. left.
    split; [reflexivity|]. right. intros si' sj' vm src Hsi' Hsj' _ _ [Hd' _].
    rewrite Hsi in Hsi'. rewrite Hsj in Hsj'. inversion Hsi'; inversion Hsj'; subst.
    congruence. }
  apply bind_Returned_inv in H as [vm [Hvm H]].
  apply bind_Returned_inv in H as [source [Hsrc H]].
  destruct (Qltb _ _) eqn:Ho.
  { inversion H. exists []. rewrite app_nil_r. split; [reflexivity|]. left.
    split; [reflexivity|]. right. intros si' sj' vm' src' Hsi' Hsj' Hvm' Hsrc' [_ Ho'].
    rewrite Hsi in Hsi'. rewrite Hsj in Hsj'. inversion Hsi'; inversion Hsj'; subst.
    rewrite Hvm in Hvm'. rewrite Hsrc in Hsrc'. inversion Hvm'; inversion Hsrc'; subst.
    apply Qltb_lt in Ho. exact (Qlt_not_le _ _ Ho Ho'). }
  assert (Hl : explicit_loop m gm si sj vm source).
  { split; [exact Hd|]. now apply Qltb_ge. }
  exists (vgicp_factors (overlap_device vm source) i j si source). unfold overlap_device. split.
  - destruct (GTSAM_POINTS_USE_CUDA && is_gpu_voxelmap vm && points_gpu source);
      inversion H; reflexivity.
  - right. split; [reflexivity|]. exists si, sj, vm, source.
    do 5 (split; [assumption|]). reflexivity.
Qed.

Lemma scan_existing_pairs (g : NonlinearFactorGraph) : forall acc existing,
  for_each scan_existing g acc = Returned existing -> existing = acc ++ pairs_of g.
Proof.
  induction g as [|[f|] g IH]; intros acc existing H; cbn [for_each pairs_of flat_map] in *.
  - inversion H. now rewrite app_nil_r.
  - rewrite scan_existing_Some in H. cbn [bind] in H. apply IH in H. subst existing.
    now rewrite <- app_assoc.
  - discriminate H.
Qed.

(** X7: what [find_overlapping_submaps] hands to the smoother is exactly one
    piece per pair [i < j] of submaps, in the order of the two loops.  The
    scan records, for every factor of the solver with two keys that are
    both [X] symbols, the two indices narrowed to [int].  The piece of a
    pair is empty when the pair is recorded, lies beyond
    [max_implicit_loop_distance] or overlaps by less than [min_overlap]; it
    is one VGICP factor per voxel map of submap [i] between [X(i)] and
    [X(j)], with the retained source of submap [j], otherwise. *)
Theorem new_overlap_factors_pairs min_overlap gm existing new :
  for_each scan_existing (getFactorsUnsafe (isam2 gm)) [] = Returned existing ->
  new_overlap_factors min_overlap gm = Returned new ->
  existing = pairs_of (getFactorsUnsafe (isam2 gm))
  /\ exists pieces,
       new = List.concat pieces
       /\ Forall2 (fun ij piece =>
                     overlap_piece min_overlap existing gm (fst ij) (snd ij) piece)
                  (loop_pairs (size (submaps gm))) pieces.
Proof.
  intros Hscan H. split; [exact (scan_existing_pairs _ _ _ Hscan)|].
  unfold new_overlap_factors in H. rewrite Hscan in H. cbn [bind] in H.
  unfold overlap_factors in H. set (n := size (submaps gm)) in *.
  set (row := fun (i : Z) (extras : NonlinearFactorGraph) =>
         exists pieces,
           Forall2 (overlap_piece min_overlap existing gm i) (range (i + 1) n) pieces
           /\ extras = List.concat pieces).
  destruct (for_each_pieces (fun f : NonlinearFactorGraph => f) row
              (fun i f => for_each (overlap_body min_overlap existing gm i) (range (i + 1) n) f))
    with (l := range 0 n) (s := @nil (option Factor)) (s' := new)
    as [rows [HF He]].
  { intros i f f' Hrow.
    destruct (for_each_pieces (fun f : NonlinearFactorGraph => f)
                (overlap_piece min_overlap existing gm i)
                (overlap_body min_overlap existing gm i))
      with (l := range (i + 1) n) (s := f) (s' := f') as [ps [Hps Hex]].
    - intros j s s'. apply overlap_body_piece.
    - exact Hrow.
    - exists (List.concat ps). split; [exact Hex|]. exists ps. split; [exact Hps|reflexivity]. }
  { exact H. }
  cbn [app] in He.
  destruct (Forall2_rows (overlap_piece min_overlap existing gm)
              (fun i => range (i + 1) n) (range 0 n) rows HF) as [pieces [HP Hc]].
  exists pieces. split; [congruence|exact HP].
Qed.

Lemma scan_existing_null (l : list (option Factor)) : forall acc,
  In None l -> for_each scan_existing l acc = Undefined.
Proof.
  induction l as [|[f|] l IH]; intros acc Hin; cbn [for_each].
  - destruct Hin.
  - rewrite scan_existing_Some. cbn [bind]. apply IH. destruct Hin; [discriminate|assumption].
  - reflexivity.
Qed.

(** X8: [find_overlapping_submaps] dereferences every factor slot of the
    solver: with at least one submap and a null slot among the solver's
    factors the call is undefined behaviour. *)
Theorem find_overlapping_submaps_null_factor fuel min_overlap gm :
  submaps gm <> [] ->
  In None (getFactorsUnsafe (isam2 gm)) ->
  find_overlapping_submaps fuel min_overlap gm = Undefined.
Proof.
  intros Hs Hnull. unfold find_overlapping_submaps, new_overlap_factors.
  destruct (submaps gm); [contradiction|]. cbn [is_empty].
  now rewrite scan_existing_null.
Qed.


(** *** Runs of the façade *)

Lemma damping_factors_app g1 g2 :
  damping_factors (g1 ++ g2) = damping_factors g1 ++ damping_factors g2.
Proof. apply filter_app. Qed.

Lemma damping_factors_none g : no_damping g -> damping_factors g = [].
Proof.
  unfold no_damping, damping_factors. induction g as [|x g IH]; cbn; [reflexivity|].
  intro H. apply andb_true_iff in H as [Hx Hg]. rewrite (IH Hg).
  destruct x as [f|]; [|reflexivity]. now destruct (is_LinearDampingFactor f).
Qed.

Lemma all_vgicp_not_null g : all_vgicp g -> Forall (fun factor => not_null factor = true) g.
Proof. intro H. apply pose_chain_not_null. now apply all_vgicp_pose_chain. Qed.

Lemma all_vgicp_no_damping g : all_vgicp g -> no_damping g.
Proof. intro H. apply pose_chain_no_damping. now apply all_vgicp_pose_chain. Qed.

(** An update that brings factors and no value, followed by the pose
    read-back, on a solver that honours the contracts. *)
Lemma refresh_returns g gm :
  stores_values ->
  appends_factors ->
  consistent gm ->
  exists s r l,
    isam2_update (isam2 gm) g [] = Updated s r
    /\ getFactorsUnsafe s = getFactorsUnsafe (isam2 gm) ++ g
    /\ (forall k, kind_at (getLinearizationPoint s) k
                  = kind_at (getLinearizationPoint (isam2 gm)) k)
    /\ (forall i, 0 <= i < size (submaps gm) ->
                  kind_at (calculateEstimate s) (X i) = Some Kind_Pose3)
    /\ update_submaps_from s 0 (submaps gm) = Returned l
    /\ List.length l = List.length (submaps gm)
    /\ map shape l = map shape (submaps gm).
Proof.
  intros [Lnew Lupd Lest] [Anew Aupd] Hok.
  destruct (Lupd (isam2 gm) g []) as [s [r [Hu Hk]]]; [reflexivity|].
  assert (Hkind : forall k, kind_at (getLinearizationPoint s) k
                            = kind_at (getLinearizationPoint (isam2 gm)) k).
  { intro k. rewrite Hk. now destruct (kind_at (getLinearizationPoint (isam2 gm)) k). }
  assert (HX : forall i, 0 <= i < size (submaps gm) ->
                         kind_at (calculateEstimate s) (X i) = Some Kind_Pose3).
  { intros i Hi. rewrite Lest, Hkind, (c_theta gm Hok).
    unfold expected_kind, chr_is, X. cbn [Symbol.chr Symbol.index Ascii.eqb Bool.eqb].
    decide_order. }
  destruct (update_submaps_from_returns s (submaps gm) 0) as [l [Hl [Hlen Hshape]]].
  { intros n Hn. apply HX. unfold size. lia. }
  exists s, r, l. split; [exact Hu|]. split; [exact (Aupd _ _ _ _ _ Hu)|].
  repeat split; assumption.
Qed.

Lemma chained_ext gm gm' :
  size (submaps gm') = size (submaps gm) ->
  (forall x, In x (getFactorsUnsafe (isam2 gm)) -> In x (getFactorsUnsafe (isam2 gm'))) ->
  chained gm -> chained gm'.
Proof.
  intros Hsz Hin Hc i Hi Hlt. rewrite Hsz in Hlt.
  destruct (Hc i Hi Hlt) as [f [Hf Hk]]. exists f. split; [now apply Hin|exact Hk].
Qed.

Lemma links_enabled_ext gm gm' : params gm' = params gm -> links_enabled gm' -> links_enabled gm.
Proof.
  intros Hp. unfold links_enabled. rewrite (registration_device_ext gm gm' Hp), Hp. auto.
Qed.

(** The back end after such an update and read-back. *)
Lemma well_formed_refreshed g gm gm' (l : list SubMap) :
  well_formed gm ->
  Forall (fun factor => not_null factor = true) g ->
  no_damping g ->
  getFactorsUnsafe (isam2 gm') = getFactorsUnsafe (isam2 gm) ++ g ->
  (forall k, kind_at (getLinearizationPoint (isam2 gm')) k
             = kind_at (getLinearizationPoint (isam2 gm)) k) ->
  (forall i, 0 <= i < size (submaps gm) ->
             kind_at (calculateEstimate (isam2 gm')) (X i) = Some Kind_Pose3) ->
  List.length l = List.length (submaps gm) ->
  map shape l = map shape (submaps gm) ->
  submaps gm' = l ->
  subsampled_submaps gm' = subsampled_submaps gm ->
  params gm' = params gm ->
  new_values gm' = new_values gm ->
  new_factors gm' = new_factors gm ->
  well_formed gm'.
Proof.
  intros [[Hsub Hvox Hframes Hnv Hth Hest] Hpend Hnn Hanchor Hchain]
         Hg Hnd Hf Hkind HX Hlen Hshape Hs Hss Hp Hv Hnf.
  assert (Hsz : size (submaps gm') = size (submaps gm)) by (unfold size; congruence).
  constructor.
  - constructor.
    + rewrite Hss, Hsz. exact Hsub.
    + unfold voxelized. rewrite Hs.
      apply (Forall_shape (fun s => voxelmaps s <> []) (submaps gm) l); [|exact Hshape|exact Hvox].
      intros a b Hab. unfold shape in Hab. now inversion Hab.
    + rewrite Hs. apply (Forall_shape has_frames (submaps gm) l); [|exact Hshape|exact Hframes].
      intros a b Hab. unfold shape, has_frames in *. now inversion Hab.
    + congruence.
    + intro k. rewrite Hkind, Hsz, Hp. apply Hth.
    + intros i Hi. apply HX. lia.
  - congruence.
  - rewrite Hf. apply Forall_app. split; assumption.
  - rewrite Hf, damping_factors_app, (damping_factors_none g Hnd), app_nil_r, Hsz, Hp.
    exact Hanchor.
  - intro Hen. apply (chained_ext gm gm' Hsz).
    + intros x Hx. rewrite Hf. apply in_or_app. now left.
    + apply Hchain. exact (links_enabled_ext gm gm' Hp Hen).
Qed.

Lemma scan_existing_returns (l : list (option Factor)) : forall acc,
  Forall (fun factor => not_null factor = true) l ->
  exists existing, for_each scan_existing l acc = Returned existing.
Proof.
  induction l as [|[f|] l IH]; intros acc H; cbn [for_each].
  - eauto.
  - rewrite scan_existing_Some. cbn [bind]. apply IH. now inversion H.
  - inversion H; discriminate.
Qed.

Lemma overlap_body_returns m e gm i j factors :
  size (subsampled_submaps gm) = size (submaps gm) ->
  voxelized gm ->
  0 <= i < size (submaps gm) ->
  0 <= j < size (submaps gm) ->
  exists extra, overlap_body m e gm i j factors = Returned (factors ++ extra) /\ all_vgicp extra.
Proof.
  intros Hsub Hvox Hi Hj. unfold overlap_body.
  destruct (count_pair e i j).
  { exists []. rewrite app_nil_r. split; reflexivity. }
  destruct (at_index_Returned (submaps gm) i Hi) as [si Hsi].
  destruct (at_index_Returned (submaps gm) j Hj) as [sj Hsj].
  rewrite Hsi, Hsj. cbn [bind].
  destruct (norm_gt _ _).
  { exists []. rewrite app_nil_r. split; reflexivity. }
  assert (Hvm : exists vm, back (voxelmaps si) = Returned vm).
  { apply back_Returned. unfold voxelized in Hvox. rewrite Forall_forall in Hvox.
    apply Hvox. eapply at_index_In; eauto. }
  destruct Hvm as [vm ->]. cbn [bind].
  destruct (at_index_Returned (subsampled_submaps gm) j) as [src ->]; [lia|]. cbn [bind].
  destruct (Qltb _ _).
  { exists []. rewrite app_nil_r. split; reflexivity. }
  destruct (GTSAM_POINTS_USE_CUDA && is_gpu_voxelmap vm && points_gpu src);
    eexists; (split; [reflexivity|apply all_vgicp_vgicp]).
Qed.

Lemma for_each_returns {A St : Type} (P : St -> Prop) (body : A -> St -> Outcome St)
    (l : list A) :
  (forall a s, In a l -> P s -> exists s', body a s = Returned s' /\ P s') ->
  forall s, P s -> exists s', for_each body l s = Returned s' /\ P s'.
Proof.
  induction l as [|a l IH]; intros Hbody s Hs; cbn [for_each]; [eauto|].
  destruct (Hbody a s (or_introl eq_refl) Hs) as [s1 [-> Hs1]]. cbn [bind].
  apply IH; [|exact Hs1]. intros a' s' Ha'. apply Hbody. now right.
Qed.

Lemma overlap_factors_returns m e gm :
  size (subsampled_submaps gm) = size (submaps gm) ->
  voxelized gm ->
  exists new, overlap_factors m e gm = Returned new /\ all_vgicp new.
Proof.
  intros Hsub Hvox. unfold overlap_factors.
  apply (for_each_returns all_vgicp); [|reflexivity].
  intros i f Hi Hf. apply In_range in Hi.
  apply (for_each_returns all_vgicp); [|exact Hf].
  intros j f' Hj Hf'. apply In_range in Hj.
  destruct (overlap_body_returns m e gm i j f' Hsub Hvox) as [extra [-> Hex]]; [lia|lia|].
  eexists. split; [reflexivity|]. now apply all_vgicp_app.
Qed.

Lemma find_overlapping_submaps_well_formed fuel m gm :
  stores_values ->
  appends_factors ->
  well_formed gm ->
  exists gm',
    find_overlapping_submaps fuel m gm = Returned gm'
    /\ well_formed gm'
    /\ size (submaps gm') = size (submaps gm)
    /\ params gm' = params gm.
Proof.
  intros Hlaw Happ Hwf. unfold find_overlapping_submaps.
  destruct (is_empty (submaps gm)); [exists gm; split; [reflexivity|split; [exact Hwf|split; reflexivity]]|].
  unfold new_overlap_factors.
  destruct (scan_existing_returns (getFactorsUnsafe (isam2 gm)) [] (wf_not_null gm Hwf))
    as [existing ->]. cbn [bind].
  destruct (overlap_factors_returns m existing gm
              (c_subsampled gm (wf_consistent gm Hwf)) (c_voxelized gm (wf_consistent gm Hwf)))
    as [new [-> Hnew]]. cbn [bind].
  rewrite update_isam2_eq. cbn [notify isam2].
  destruct (refresh_returns new gm Hlaw Happ (wf_consistent gm Hwf))
    as [s [r [l [Hu [Hf [Hkind [HX [Hl [Hlen Hshape]]]]]]]]].
  rewrite Hu. cbn [bind]. unfold update_submaps. cbn [notify set_isam2 isam2 submaps].
  rewrite Hl. cbn [bind]. eexists. split; [reflexivity|].
  split; [|split; [cbn; unfold size; congruence|reflexivity]].
  apply (well_formed_refreshed new gm _ l Hwf); try assumption; try reflexivity.
  - now apply all_vgicp_not_null.
  - now apply all_vgicp_no_damping.
Qed.

Lemma optimize_well_formed fuel gm :
  stores_values ->
  appends_factors ->
  well_formed gm ->
  exists gm',
    optimize fuel gm = Returned gm'
    /\ well_formed gm'
    /\ size (submaps gm') = size (submaps gm)
    /\ params gm' = params gm.
Proof.
  intros Hlaw Happ Hwf. unfold optimize.
  destruct (isam2_empty (isam2 gm)); [exists gm; split; [reflexivity|split; [exact Hwf|split; reflexivity]]|].
  rewrite update_isam2_eq. cbn [notify isam2].
  destruct (refresh_returns [] gm Hlaw Happ (wf_consistent gm Hwf))
    as [s [r [l [Hu [Hf [Hkind [HX [Hl [Hlen Hshape]]]]]]]]].
  rewrite Hu. cbn [bind]. unfold update_submaps. cbn [notify set_isam2 isam2 submaps].
  rewrite Hl. cbn [bind]. eexists. split; [reflexivity|].
  split; [|split; [cbn; unfold size; congruence|reflexivity]].
  apply (well_formed_refreshed [] gm _ l Hwf); try assumption; try reflexivity.
  constructor.
Qed.


Lemma consistent_ext gm gm' :
  params gm' = params gm ->
  submaps gm' = submaps gm ->
  subsampled_submaps gm' = subsampled_submaps gm ->
  new_values gm' = new_values gm ->
  isam2 gm' = isam2 gm ->
  consistent gm -> consistent gm'.
Proof.
  intros Hp Hs Hss Hnv Hi [Hsub Hvox Hframes Hv Hth Hest].
  constructor; unfold voxelized; rewrite ?Hp, ?Hs, ?Hss, ?Hnv, ?Hi; assumption.
Qed.

Lemma insert_imu_well_formed stamp linear_acc angular_vel gm :
  well_formed gm ->
  well_formed (insert_imu stamp linear_acc angular_vel gm)
  /\ submaps (insert_imu stamp linear_acc angular_vel gm) = submaps gm
  /\ params (insert_imu stamp linear_acc angular_vel gm) = params gm.
Proof.
  intros [Hok Hpend Hnn Hanchor Hchain].
  assert (H : params (insert_imu stamp linear_acc angular_vel gm) = params gm
              /\ submaps (insert_imu stamp linear_acc angular_vel gm) = submaps gm
              /\ subsampled_submaps (insert_imu stamp linear_acc angular_vel gm)
                 = subsampled_submaps gm
              /\ new_values (insert_imu stamp linear_acc angular_vel gm) = new_values gm
              /\ new_factors (insert_imu stamp linear_acc angular_vel gm) = new_factors gm
              /\ isam2 (insert_imu stamp linear_acc angular_vel gm) = isam2 gm).
  { unfold insert_imu. cbn [notify params]. destruct (enable_imu (params gm)); repeat split. }
  destruct H as [Hp [Hs [Hss [Hnv [Hnf Hi]]]]].
  split; [|split; assumption]. constructor.
  - exact (consistent_ext gm _ Hp Hs Hss Hnv Hi Hok).
  - congruence.
  - rewrite Hi. exact Hnn.
  - rewrite Hi, Hs, Hp. exact Hanchor.
  - intro Hen. apply (chained_ext gm); [now rewrite Hs|now rewrite Hi|].
    apply Hchain. exact (links_enabled_ext gm _ Hp Hen).
Qed.

Lemma insert_submap_well_formed fuel submap gm :
  stores_values ->
  appends_factors ->
  well_formed gm ->
  has_frames submap ->
  0 < submap_voxelmap_levels (params gm) ->
  exists gm',
    insert_submap fuel submap gm = Returned gm'
    /\ well_formed gm'
    /\ size (submaps gm') = size (submaps gm) + 1
    /\ params gm' = params gm.
Proof.
  intros Hlaw Happ [Hok Hpend Hnn Hanchor Hchain] Hfr Hlev.
  destruct (insert_submap_consistent fuel submap gm Hlaw Hok Hfr Hlev)
    as [gm' [Hins [Hok' [Hsz Hp]]]].
  exists gm'. split; [exact Hins|]. split; [|split; assumption].
  destruct (insert_submap_assemble_spec submap gm Hok Hfr Hlev)
    as [sm [gm1 [chain0 [Hrun [Hs1 [_ [_ [_ [_ [Hi1 [Hp1 [Hk1 _]]]]]]]]]]]].
  destruct Hlaw as [Lnew Lupd Lest]. destruct Happ as [Anew Aupd].
  assert (Hc0 : 0 <= size (submaps gm)) by (unfold size; lia).
  destruct (Lupd (isam2 gm1) (new_factors gm1) (new_values gm1)) as [s' [r [Hu _]]].
  { intros k Hk. rewrite kind_at_kinds_of, Hk1. apply pending_kinds_fresh; [exact Hc0|].
    rewrite Hi1, (c_theta gm Hok) in Hk. exact Hk. }
  assert (Hstate : isam2 gm' = s' /\ new_factors gm' = []).
  { unfold insert_submap in Hins. rewrite Hrun in Hins. cbn [bind] in Hins.
    rewrite update_isam2_eq in Hins. cbn [notify isam2 new_factors new_values] in Hins.
    rewrite Hu in Hins. cbn [bind] in Hins. unfold update_submaps in Hins.
    apply bind_Returned_inv in Hins as [gm2 [Hsub Hins]].
    apply bind_Returned_inv in Hsub as [l [_ Hsub]].
    inversion Hsub; subst gm2. inversion Hins; subst gm'. split; reflexivity. }
  destruct Hstate as [Hs' Hnf'].
  destruct (insert_submap_assemble_inv _ _ _ _ Hrun)
    as [T [chain [imu_part [vals [src [_ [_ [_ [_ [_ [_ [_ [_ [_ [Hnf [Hfirst [Hlater
        [Hnd [Himu_nn _]]]]]]]]]]]]]]]]]]].
  rewrite Hpend in Hnf. cbn [app] in Hnf.
  assert (Hf : getFactorsUnsafe (isam2 gm') = getFactorsUnsafe (isam2 gm) ++ chain ++ imu_part).
  { rewrite Hs', (Aupd _ _ _ _ _ Hu), Hi1, Hnf. reflexivity. }
  constructor.
  - exact Hok'.
  - exact Hnf'.
  - rewrite Hf. apply Forall_app. split; [exact Hnn|]. apply Forall_app. split; [|exact Himu_nn].
    destruct (Z.eq_dec (size (submaps gm)) 0) as [Hz|Hnz].
    + rewrite (Hfirst Hz). repeat constructor.
    + destruct (Hlater Hnz) as [between [matching [Hb [Hm ->]]]].
      apply pose_chain_not_null. apply pose_chain_app;
        [exact (create_between_factors_pose_chain _ _ _ Hb)
        |exact (create_matching_cost_factors_pose_chain _ _ _ Hm)].
  - rewrite Hf, !damping_factors_app, (damping_factors_none imu_part Hnd), app_nil_r, Hanchor,
      Hsz, Hp.
    destruct (Z.eqb_spec (size (submaps gm) + 1) 0) as [|_]; [lia|].
    destruct (Z.eqb_spec (size (submaps gm)) 0) as [Hz|Hnz].
    + rewrite (Hfirst Hz). reflexivity.
    + destruct (Hlater Hnz) as [between [matching [Hb [Hm ->]]]].
      rewrite (damping_factors_none (between ++ matching)); [reflexivity|].
      apply pose_chain_no_damping. apply pose_chain_app;
        [exact (create_between_factors_pose_chain _ _ _ Hb)
        |exact (create_matching_cost_factors_pose_chain _ _ _ Hm)].
  - intros Hen i Hi Hlt. rewrite Hsz in Hlt.
    assert (Hen0 : links_enabled gm) by exact (links_enabled_ext gm gm' Hp Hen).
    destruct (Z.eq_dec (i + 1) (size (submaps gm))) as [Hlast|Hearlier].
    + destruct (insert_submap_assemble_link submap gm Hok Hfr Hlev) as [sm2 [gm3 [f [Hrun2 [Hin Hk]]]]];
        [lia|exact Hen0|].
      rewrite Hrun in Hrun2. inversion Hrun2; subst sm2 gm3.
      exists f. split.
      * rewrite Hf, <- Hnf. apply in_or_app. now right.
      * rewrite Hk, <- Hlast. replace (i + 1 - 1) with i by lia. reflexivity.
    + destruct (Hchain Hen0 i Hi) as [f [Hin Hk]]; [lia|].
      exists f. split; [|exact Hk]. rewrite Hf. apply in_or_app. now left.
Qed.

Lemma run_call_well_formed fuel c gm :
  stores_values ->
  appends_factors ->
  well_formed gm ->
  0 < submap_voxelmap_levels (params gm) ->
  Forall has_frames (inserted_submaps [c]) ->
  exists gm',
    run_call fuel c gm = Returned gm'
    /\ well_formed gm'
    /\ size (submaps gm') = size (submaps gm) + size (inserted_submaps [c])
    /\ params gm' = params gm.
Proof.
  intros Hlaw Happ Hwf Hlev Hfr. destruct c as [t a w|submap|m|]; cbn [run_call].
  - destruct (insert_imu_well_formed t a w gm Hwf) as [Hwf' [Hs Hp]].
    eexists. split; [reflexivity|]. split; [exact Hwf'|]. split; [|exact Hp].
    rewrite Hs. cbn. unfold size. cbn. lia.
  - cbn in Hfr. inversion Hfr as [|? ? Hsm _]; subst.
    destruct (insert_submap_well_formed fuel submap gm Hlaw Happ Hwf Hsm Hlev)
      as [gm' [Hr [Hw [Hz Hq]]]].
    exists gm'. split; [exact Hr|]. split; [exact Hw|]. split; [|exact Hq].
    rewrite Hz. cbn. unfold size. cbn. lia.
  - destruct (find_overlapping_submaps_well_formed fuel m gm Hlaw Happ Hwf)
      as [gm' [H1 [H2 [H3 H4]]]].
    exists gm'. split; [exact H1|]. split; [exact H2|]. split; [|exact H4].
    rewrite H3. cbn. unfold size. cbn. lia.
  - destruct (optimize_well_formed fuel gm Hlaw Happ Hwf) as [gm' [H1 [H2 [H3 H4]]]].
    exists gm'. split; [exact H1|]. split; [exact H2|]. split; [|exact H4].
    rewrite H3. cbn. unfold size. cbn. lia.
Qed.


Lemma inserted_submaps_cons c calls :
  inserted_submaps (c :: calls) = inserted_submaps [c] ++ inserted_submaps calls.
Proof. unfold inserted_submaps. cbn [flat_map]. now rewrite app_nil_r. Qed.

Lemma run_calls_well_formed fuel (calls : list Call) : forall gm,
  stores_values ->
  appends_factors ->
  well_formed gm ->
  0 < submap_voxelmap_levels (params gm) ->
  Forall has_frames (inserted_submaps calls) ->
  exists gm',
    for_each (run_call fuel) calls gm = Returned gm'
    /\ well_formed gm'
    /\ size (submaps gm') = size (submaps gm) + size (inserted_submaps calls)
    /\ params gm' = params gm.
Proof.
  induction calls as [|c calls IH]; intros gm Hlaw Happ Hwf Hlev Hfr.
  - exists gm. split; [reflexivity|]. split; [exact Hwf|].
    split; [unfold size; cbn; lia|reflexivity].
  - rewrite inserted_submaps_cons in Hfr. apply Forall_app in Hfr as [Hc Hrest].
    destruct (run_call_well_formed fuel c gm Hlaw Happ Hwf Hlev Hc) as [gm1 [Hr [Hw [Hz Hp]]]].
    destruct (IH gm1 Hlaw Happ Hw) as [gm' [Hr' [Hw' [Hz' Hp']]]];
      [rewrite Hp; exact Hlev|exact Hrest|].
    exists gm'. cbn [for_each]. rewrite Hr. cbn [bind]. split; [exact Hr'|].
    split; [exact Hw'|]. split; [|congruence].
    rewrite Hz', Hz, (inserted_submaps_cons c calls), size_app. lia.
Qed.

Lemma GlobalMapping_new_well_formed p seed imu0 :
  stores_values -> appends_factors -> well_formed (GlobalMapping_new p seed imu0).
Proof.
  intros Hlaw [Anew _]. constructor.
  - now apply GlobalMapping_new_consistent.
  - reflexivity.
  - cbn. rewrite Anew. constructor.
  - cbn. rewrite Anew. reflexivity.
  - intros _ i Hi Hlt. cbn in Hlt. unfold size in Hlt. cbn in Hlt. lia.
Qed.

(** X9: on a solver that accepts every update of new variables and keeps
    what it is given, no run of the façade fails: whatever the sequence of
    [insert_imu], [insert_submap], [find_overlapping_submaps] and
    [optimize] calls on a fresh back end, every call returns; afterwards
    the back end is consistent, holds one submap per [insert_submap] call
    and nothing is pending.  The submaps are assumed to come with their
    odometry frames, and at least one voxel-map level to be configured. *)
Theorem facade_run_returns fuel p seed imu0 (calls : list Call) :
  stores_values ->
  appends_factors ->
  0 < submap_voxelmap_levels p ->
  Forall has_frames (inserted_submaps calls) ->
  exists gm,
    for_each (run_call fuel) calls (GlobalMapping_new p seed imu0) = Returned gm
    /\ consistent gm
    /\ size (submaps gm) = size (inserted_submaps calls)
    /\ new_values gm = []
    /\ new_factors gm = []
    /\ params gm = p.
Proof.
  intros Hlaw Happ Hlev Hfr.
  destruct (run_calls_well_formed fuel calls (GlobalMapping_new p seed imu0) Hlaw Happ
              (GlobalMapping_new_well_formed p seed imu0 Hlaw Happ) Hlev Hfr)
    as [gm [Hrun [Hwf [Hsz Hp]]]].
  exists gm. split; [exact Hrun|]. split; [exact (wf_consistent gm Hwf)|].
  split; [exact Hsz|]. split; [exact (c_new_values gm (wf_consistent gm Hwf))|].
  split; [exact (wf_pending gm Hwf)|exact Hp].
Qed.

(** X10: after any such run that inserted at least one submap, the solver
    holds exactly one [LinearDampingFactor]: the anchor of the first
    submap, on [X(0)], of dimension 6 and scale [init_pose_damping_scale]. *)
Theorem facade_run_single_anchor fuel p seed imu0 (calls : list Call) gm :
  stores_values ->
  appends_factors ->
  0 < submap_voxelmap_levels p ->
  Forall has_frames (inserted_submaps calls) ->
  inserted_submaps calls <> [] ->
  for_each (run_call fuel) calls (GlobalMapping_new p seed imu0) = Returned gm ->
  damping_factors (getFactorsUnsafe (isam2 gm))
  = [Some (LinearDampingFactor (X 0) 6 (init_pose_damping_scale p))].
Proof.
  intros Hlaw Happ Hlev Hfr Hne Hrun.
  destruct (run_calls_well_formed fuel calls (GlobalMapping_new p seed imu0) Hlaw Happ
              (GlobalMapping_new_well_formed p seed imu0 Hlaw Happ) Hlev Hfr)
    as [gm' [Hrun' [Hwf [Hsz Hp]]]].
  rewrite Hrun in Hrun'. inversion Hrun'; subst gm'.
  rewrite (wf_anchor gm Hwf), Hsz, Hp. cbn [GlobalMapping_new submaps params].
  destruct (inserted_submaps calls); [contradiction|].
  unfold size. cbn. reflexivity.
Qed.

(** X11: after any such run, when between-factors are enabled or the
    registration factor type is one the build supports, the solver's graph
    holds for every two consecutive submaps a factor between [X(i)] and
    [X(i+1)]: no submap is detached from its predecessor. *)
Theorem facade_run_chained fuel p seed imu0 (calls : list Call) gm :
  stores_values ->
  appends_factors ->
  0 < submap_voxelmap_levels p ->
  Forall has_frames (inserted_submaps calls) ->
  links_enabled (GlobalMapping_new p seed imu0) ->
  for_each (run_call fuel) calls (GlobalMapping_new p seed imu0) = Returned gm ->
  forall i, 0 <= i -> i + 1 < size (inserted_submaps calls) ->
    exists f, In (Some f) (getFactorsUnsafe (isam2 gm)) /\ keys f = [X i; X (i + 1)].
Proof.
  intros Hlaw Happ Hlev Hfr Hen Hrun.
  destruct (run_calls_well_formed fuel calls (GlobalMapping_new p seed imu0) Hlaw Happ
              (GlobalMapping_new_well_formed p seed imu0 Hlaw Happ) Hlev Hfr)
    as [gm' [Hrun' [Hwf [Hsz Hp]]]].
  rewrite Hrun in Hrun'. inversion Hrun'; subst gm'.
  cbn [GlobalMapping_new submaps] in Hsz. change (size (@nil SubMap)) with 0 in Hsz.
  rewrite Z.add_0_l in Hsz. intros i Hi Hlt.
  apply (wf_chained gm Hwf); [|exact Hi|lia].
  apply (links_enabled_ext _ (GlobalMapping_new p seed imu0)); [|exact Hen].
  rewrite Hp. reflexivity.
Qed.


(** *** Reload *)

Lemma load_submaps_inv dir (indices : list Z) : forall gm gm',
  load_submaps dir indices gm = Some gm' ->
  exists loaded sources,
    submaps gm' = submaps gm ++ loaded
    /\ subsampled_submaps gm' = subsampled_submaps gm ++ sources
    /\ callbacks gm' = callbacks gm ++ map on_insert_submap loaded
    /\ params gm' = params gm
    /\ isam2 gm' = isam2 gm
    /\ new_values gm' = new_values gm
    /\ new_factors gm' = new_factors gm
    /\ Forall2 (fun i (ss : SubMap * PointCloud) =>
                  exists stored, dir i = Some stored
                                 /\ loaded_from (params gm) stored (fst ss) (snd ss))
               indices (combine loaded sources)
    /\ List.length loaded = List.length indices
    /\ List.length sources = List.length indices.
Proof.
  induction indices as [|i rest IH]; intros gm gm' H; cbn [load_submaps] in H.
  - inversion H; subst. exists [], []. rewrite !app_nil_r. cbn.
    repeat split; constructor.
  - destruct (dir i) as [stored|] eqn:Hdir; [|discriminate].
    destruct (if Qgtb (randomsampling_rate (params gm)) (99 # 100)
              then (merged_keyframe stored, mt gm)
              else random_sampling (merged_keyframe stored) (randomsampling_rate (params gm))
                     (mt gm)) as [sub mt'] eqn:Hsub.
    destruct (if enable_gpu (params gm)
              then if GTSAM_POINTS_USE_CUDA
                   then (set_voxelmaps
                           (build_voxelmaps GPU (base_resolution_of (params gm) (merged_keyframe stored))
                              (params gm) (PointCloudGPU_clone sub))
                           (set_voxelmaps [] stored), PointCloudGPU_clone sub)
                   else (set_voxelmaps [] stored, sub)
              else (set_voxelmaps
                      (build_voxelmaps CPU (base_resolution_of (params gm) (merged_keyframe stored))
                         (params gm) sub)
                      (set_voxelmaps [] stored), sub)) as [sm src] eqn:Hsm.
    cbn [merged_keyframe set_voxelmaps] in H.
    destruct (IH _ _ H) as [loaded [sources [Hs [Hss [Hcb [Hp [Hi [Hnv [Hnf [Hall [Hl1 Hl2]]]]]]]]]]].
    cbn in Hs, Hss, Hcb, Hp, Hi, Hnv, Hnf, Hall.
    exists (sm :: loaded), (src :: sources).
    rewrite Hs, Hss, Hcb, <- !app_assoc. cbn [app map combine List.length].
    do 7 (split; [first [reflexivity|assumption]|]).
    split; [|split; congruence].
    constructor; [|exact Hall]. exists stored. split; [exact Hdir|]. cbn [fst snd].
    assert (Hfull : Qgtb (randomsampling_rate (params gm)) (99 # 100) = true ->
                    points sub = points (merged_keyframe stored)).
    { intro Hr. rewrite Hr in Hsub. now inversion Hsub. }
    unfold loaded_from.
    destruct (enable_gpu (params gm)); [destruct GTSAM_POINTS_USE_CUDA|];
      inversion Hsm; subst sm src; cbn [voxelmaps set_voxelmaps points_gpu PointCloudGPU_clone points].
    + split; [reflexivity|]. split; [|exact Hfull]. split; [reflexivity|].
      split; [apply build_voxelmaps_length|]. intros vm Hvm.
      exact (build_voxelmaps_inserted _ _ _ _ _ Hvm).
    + split; [reflexivity|]. split; [reflexivity|exact Hfull].
    + split; [reflexivity|]. split; [|exact Hfull].
      split; [apply build_voxelmaps_length|]. intros vm Hvm.
      exact (build_voxelmaps_inserted _ _ _ _ _ Hvm).
Qed.


Lemma load_submaps_none dir (indices : list Z) : forall gm,
  load_submaps dir indices gm = None <-> exists i, In i indices /\ dir i = None.
Proof.
  induction indices as [|i rest IH]; intro gm; cbn [load_submaps].
  - split; [discriminate|intros [i [[] _]]].
  - destruct (dir i) as [stored|] eqn:Hdir.
    + destruct (if Qgtb _ _ then _ else _) as [sub mt'].
      destruct (if enable_gpu (params gm) then _ else _) as [sm src].
      rewrite IH. split.
      * intros [j [Hj Hn]]. exists j. split; [now right|exact Hn].
      * intros [j [[<-|Hj] Hn]]; [congruence|]. exists j. split; assumption.
    + split; [|reflexivity]. intros _. exists i. split; [now left|exact Hdir].
Qed.

(** X12: the submap loop of [load] appends one submap and one retained
    source per index, in order, and announces each; a loaded submap differs
    from the stored one in its voxel maps only, which are all built from
    the retained source of that submap on the device that [enable_gpu]
    selects; with [enable_gpu] in a build without CUDA a loaded submap has
    no voxel map at all.  The loop gives up exactly when one of the submap
    directories fails to load. *)
Theorem load_submaps_spec dir (indices : list Z) gm :
  (load_submaps dir indices gm = None <-> exists i, In i indices /\ dir i = None)
  /\ forall gm',
       load_submaps dir indices gm = Some gm' ->
       exists loaded sources,
         submaps gm' = submaps gm ++ loaded
         /\ subsampled_submaps gm' = subsampled_submaps gm ++ sources
         /\ callbacks gm' = callbacks gm ++ map on_insert_submap loaded
         /\ List.length loaded = List.length indices
         /\ List.length sources = List.length indices
         /\ Forall2 (fun i (ss : SubMap * PointCloud) =>
                       exists stored, dir i = Some stored
                                      /\ loaded_from (params gm) stored (fst ss) (snd ss))
                    indices (combine loaded sources).
Proof.
  split; [apply load_submaps_none|]. intros gm' H.
  destruct (load_submaps_inv _ _ _ _ H)
    as [loaded [sources [Hs [Hss [Hcb [_ [_ [_ [_ [Hall [Hl1 Hl2]]]]]]]]]]].
  exists loaded, sources. repeat split; assumption.
Qed.

(** X13: [load] answers [false] in two cases only: [graph.txt] cannot be
    opened, or one of the submap directories fails to load.  Once the
    submaps are in, a failure to deserialise the graph or the values does
    not make it answer [false]. *)
Theorem load_returns_false fuel dump gm :
  (exists gm', load fuel dump gm = Returned (false, gm'))
  <-> graph_txt dump = None
      \/ exists txt i,
           graph_txt dump = Some txt
           /\ 0 <= i < num_submaps txt
           /\ submap_dir dump i = None.
Proof.
  unfold load. split.
  - intros [gm' H]. destruct (graph_txt dump) as [txt|]; [|now left]. right.
    destruct (Z.ltb_spec (num_submaps txt) 0); [discriminate|].
    destruct (load_submaps _ _ _) as [gm1|] eqn:Hload.
    + exfalso.
      apply bind_Returned_inv in H as [[[[graph values] flag] gm2] [_ H]].
      apply bind_Returned_inv in H as [[result gm3] [_ H]].
      apply bind_Returned_inv in H as [gm4 [_ H]]. discriminate H.
    + apply load_submaps_none in Hload as [i [Hi Hn]]. apply In_range in Hi.
      exists txt, i. repeat split; try assumption; lia.
  - intros [->|[txt [i [-> [Hi Hn]]]]]; [eauto|].
    destruct (Z.ltb_spec (num_submaps txt) 0); [lia|].
    assert (Hload : load_submaps (submap_dir dump) (range 0 (num_submaps txt))
                      (set_subsampled_submaps [] (set_submaps [] gm)) = None).
    { apply load_submaps_none. exists i. split; [apply In_range; lia|exact Hn]. }
    rewrite Hload. eauto.
Qed.

(** What one line of [graph.txt] contributes. *)
Lemma load_matching_cost_piece gm line graph graph' :
  load_matching_cost gm line graph = Returned graph' ->
  exists extra,
    graph' = graph ++ extra
    /\ ((extra = []
         /\ (supported_line (fst (fst line)) = false
             \/ enable_gpu (params gm) && negb GTSAM_POINTS_USE_CUDA = true
             \/ exists target, at_index (submaps gm) (snd (fst line)) = Returned target
                               /\ voxelmaps target = []))
        \/ exists target source,
             supported_line (fst (fst line)) = true
             /\ enable_gpu (params gm) && negb GTSAM_POINTS_USE_CUDA = false
             /\ at_index (submaps gm) (snd (fst line)) = Returned target
             /\ at_index (subsampled_submaps gm) (snd line) = Returned source
             /\ extra = vgicp_factors (enable_gpu (params gm)) (snd (fst line)) (snd line)
                          target source).
Proof.
  destruct line as [[type first] second]. unfold load_matching_cost, supported_line.
  cbn [fst snd]. intro H.
  destruct (String.eqb type "vgicp" || String.eqb type "vgicp_gpu").
  2: { inversion H. exists []. rewrite app_nil_r. split; [reflexivity|]. left. auto. }
  destruct (enable_gpu (params gm) && negb GTSAM_POINTS_USE_CUDA) eqn:Hdev.
  { inversion H. exists []. rewrite app_nil_r. split; [reflexivity|]. left. auto. }
  apply bind_Returned_inv in H as [target [Ht H]].
  destruct (voxelmaps target) as [|vm vms] eqn:Hvm; cbn [is_empty] in H.
  { inversion H. exists []. rewrite app_nil_r. split; [reflexivity|]. left.
    split; [reflexivity|]. right. right. eauto. }
  apply bind_Returned_inv in H as [source [Hs H]]. inversion H.
  eexists. split; [reflexivity|]. right. exists target, source. repeat split; assumption.
Qed.

(** X14: the matching-cost factors that [load] recreates from [graph.txt]
    are exactly one piece per line, in the order of the lines, appended to
    the graph.  A line of type vgicp or vgicp_gpu gives one VGICP factor
    per voxel map of the target submap, between [X(first)] and
    [X(second)], with the retained source of the second submap, on the
    device that [enable_gpu] selects and not the recorded one; a line of
    another type gives nothing, and with [enable_gpu] in a build without
    CUDA no line gives anything. *)
Theorem load_matching_cost_factors gm (lines : list (string * Z * Z)) graph graph' :
  for_each (load_matching_cost gm) lines graph = Returned graph' ->
  exists pieces,
    graph' = graph ++ List.concat pieces
    /\ Forall2 (line_piece gm) lines pieces.
Proof.
  intro H.
  destruct (for_each_pieces (fun g : NonlinearFactorGraph => g) (line_piece gm)
              (load_matching_cost gm))
    with (l := lines) (s := graph) (s' := graph') as [pieces [HF He]].
  { intros line g g'. apply load_matching_cost_piece. }
  { exact H. }
  exists pieces. split; [exact He|exact HF].
Qed.


(** *** Voxel maps of an inserted submap *)

Lemma build_voxelmaps_empty dev base p cloud :
  is_empty (build_voxelmaps dev base p cloud) = true ->
  forall dev' cloud', build_voxelmaps dev' base p cloud' = [].
Proof.
  intros He dev' cloud'. apply is_empty_true in He.
  apply (f_equal (@List.length _)) in He. rewrite build_voxelmaps_length in He.
  apply length_zero_iff_nil. now rewrite build_voxelmaps_length.
Qed.


(** The voxel maps of the inserted submap: one device, one cloud. *)
Lemma insert_submap_at_voxelmaps current submap gm :
  exists dev cloud,
    voxelmaps (fst (insert_submap_at current submap gm))
    = build_voxelmaps dev (base_resolution_of (params gm) (merged_keyframe submap))
                      (params gm) cloud
    /\ (Qgtb (randomsampling_rate (params gm)) (99 # 100) = true ->
        points cloud = points (merged_keyframe submap)
        /\ mt (snd (insert_submap_at current submap gm)) = mt gm
        /\ subsampled_submaps (snd (insert_submap_at current submap gm))
           = subsampled_submaps gm ++ [merged_keyframe (fst (insert_submap_at current submap gm))]
        /\ points (merged_keyframe (fst (insert_submap_at current submap gm)))
           = points (merged_keyframe submap)).
Proof.
  unfold insert_submap_at.
  destruct (if Qgtb (randomsampling_rate (params gm)) (99 # 100)
            then (merged_keyframe (set_voxelmaps [] submap), mt gm)
            else random_sampling (merged_keyframe (set_voxelmaps [] submap))
                   (randomsampling_rate (params gm)) (mt gm)) as [sub mt'] eqn:Hsub.
  cbn [fst snd merged_keyframe set_voxelmaps] in *.
  assert (Hfull : Qgtb (randomsampling_rate (params gm)) (99 # 100) = true ->
                  sub = merged_keyframe submap /\ mt' = mt gm).
  { intro Hr. rewrite Hr in Hsub. now inversion Hsub. }
  destruct (GTSAM_POINTS_USE_CUDA && enable_gpu (params gm)); cbn [andb].
  - destruct (negb (points_gpu (merged_keyframe submap)));
      cbn [set_voxelmaps set_merged_keyframe merged_keyframe voxelmaps].
    + destruct (is_empty (build_voxelmaps GPU _ (params gm)
                            (PointCloudGPU_clone (merged_keyframe submap)))) eqn:He;
        cbn [voxelmaps set_voxelmaps subsampled_submaps set_subsampled_submaps set_submaps
             set_mt mt merged_keyframe];
        exists GPU, (PointCloudGPU_clone (merged_keyframe submap));
        (split; [first [reflexivity
                       |rewrite (build_voxelmaps_empty _ _ _ _ He);
                        symmetry; apply (build_voxelmaps_empty _ _ _ _ He)]|]);
        intro Hr; destruct (Hfull Hr) as [-> ->]; rewrite Hr; repeat split.
    + destruct (is_empty (build_voxelmaps GPU _ (params gm) (merged_keyframe submap))) eqn:He;
        cbn [voxelmaps set_voxelmaps subsampled_submaps set_subsampled_submaps set_submaps
             set_mt mt merged_keyframe];
        exists GPU, (merged_keyframe submap);
        (split; [first [reflexivity
                       |rewrite (build_voxelmaps_empty _ _ _ _ He);
                        symmetry; apply (build_voxelmaps_empty _ _ _ _ He)]|]);
        intro Hr; destruct (Hfull Hr) as [-> ->]; rewrite Hr; repeat split.
  - cbn [set_voxelmaps set_merged_keyframe merged_keyframe voxelmaps is_empty
         subsampled_submaps set_subsampled_submaps set_submaps set_mt mt].
    exists CPU, sub. split; [reflexivity|].
    intro Hr. destruct (Hfull Hr) as [-> ->]. repeat split.
Qed.

(** X15: with subsampling disabled ([randomsampling_rate > 0.99]) the
    private [insert_submap] does not advance the random generator, retains
    the merged keyframe of the submap itself as registration source, and
    builds every voxel map from the points of the full merged keyframe, on
    either device. *)
Theorem insert_submap_at_full_cloud current submap gm :
  (99 # 100 < randomsampling_rate (params gm))%Q ->
  let submap' := fst (insert_submap_at current submap gm) in
  let gm' := snd (insert_submap_at current submap gm) in
  mt gm' = mt gm
  /\ subsampled_submaps gm' = subsampled_submaps gm ++ [merged_keyframe submap']
  /\ points (merged_keyframe submap') = points (merged_keyframe submap)
  /\ List.length (voxelmaps submap') = Z.to_nat (submap_voxelmap_levels (params gm))
  /\ forall vm, In vm (voxelmaps submap') ->
       vm_inserted vm = points (merged_keyframe submap).
Proof.
  intros Hrate submap' gm'.
  assert (Hr : Qgtb (randomsampling_rate (params gm)) (99 # 100) = true)
    by (unfold Qgtb; now apply Qltb_lt).
  destruct (insert_submap_at_voxelmaps current submap gm) as [dev [cloud [Hvm Hfull]]].
  destruct (Hfull Hr) as [Hpts [Hmt [Hsub Hmk]]].
  split; [exact Hmt|]. split; [exact Hsub|]. split; [exact Hmk|].
  subst submap'. rewrite Hvm. split; [apply build_voxelmaps_length|].
  intros vm Hin. apply build_voxelmaps_inserted in Hin as [-> _]. exact Hpts.
Qed.









(** *** Export for LAS *)

Lemma stamp_times_S (count : nat) (t : double) :
  stamp_times (S count) t = las_step t :: stamp_times count (las_step t).
Proof.
  unfold stamp_times. cbn [seq map]. f_equal.
  rewrite <- seq_shift, map_map. apply map_ext. intro k.
  apply (Nat.iter_succ_r (S k)).
Qed.

Lemma stamp_times_length count t : List.length (stamp_times count t) = count.
Proof. unfold stamp_times. now rewrite length_map, length_seq. Qed.

Lemma assign_middle {A : Type} (filled : list A) (r x : A) (rest : list A) :
  assign (filled ++ r :: rest) (List.length filled) x = filled ++ x :: rest.
Proof. induction filled as [|a filled IH]; cbn; [reflexivity|]. now rewrite IH. Qed.

(** The loop over [k]: [count] times are produced and written while the
    vector has room. *)
Lemma las_point_time_loop (l : list Z) : forall (t : double) (filled : list double) (room : nat),
  for_each las_point_time l (t, size filled, filled ++ repeat 0%Q room)
  = Returned (Nat.iter (List.length l) las_step t,
              size (filled ++ firstn room (stamp_times (List.length l) t)),
              (filled ++ firstn room (stamp_times (List.length l) t))
              ++ repeat 0%Q (room - List.length l)).
Proof.
  induction l as [|k l IH]; intros t filled room; cbn [for_each List.length].
  - cbn. rewrite firstn_nil, app_nil_r, Nat.sub_0_r. reflexivity.
  - unfold las_point_time at 1. fold (las_step t). destruct room as [|room].
    + cbn [repeat]. rewrite app_nil_r.
      destruct (Z.ltb_spec (size filled) (size filled)); [lia|]. cbn [bind].
      specialize (IH (las_step t) filled O). cbn [repeat] in IH. rewrite app_nil_r in IH.
      etransitivity; [exact IH|]. cbn [firstn Nat.sub repeat]. rewrite !app_nil_r.
      now rewrite Nat.iter_succ_r.
    + destruct (Z.ltb_spec (size filled) (size (filled ++ repeat 0%Q (S room)))) as [_|Hge].
      2: { unfold size in Hge. rewrite length_app in Hge. cbn in Hge. lia. }
      cbn [bind repeat]. unfold size at 2. rewrite Nat2Z.id, assign_middle.
      replace (size filled + 1) with (size (filled ++ [las_step t]))
        by (unfold size; rewrite length_app; cbn; lia).
      replace (filled ++ las_step t :: repeat 0%Q room)
        with ((filled ++ [las_step t]) ++ repeat 0%Q room)
        by (rewrite <- app_assoc; reflexivity).
      rewrite IH, stamp_times_S. cbn [firstn Nat.sub].
      rewrite <- !app_assoc. cbn [app]. now rewrite Nat.iter_succ_r.
Qed.

(** A loop over the indices of a vector that reads each element with
    [at] is the loop over its elements. *)
Lemma for_each_vector_at {A St : Type} (body : A -> St -> Outcome St) (suf : list A) :
  forall (pre : list A) (s : St),
  for_each (fun i s => a <- vector_at (pre ++ suf) i;; body a s)
           (range (size pre) (size (pre ++ suf))) s
  = for_each body suf s.
Proof.
  induction suf as [|a suf IH]; intros pre s.
  - rewrite app_nil_r, range_nil by lia. reflexivity.
  - rewrite range_cons by (rewrite size_app; unfold size; cbn; lia).
    cbn [for_each]. unfold vector_at at 1.
    destruct (Z.ltb_spec (size pre) 0); [unfold size in *; lia|].
    unfold size at 1. rewrite Nat2Z.id, nth_error_app2, Nat.sub_diag by lia.
    cbn [nth_error bind]. destruct (body a s) as [s1| | | |]; cbn [bind]; try reflexivity.
    specialize (IH (pre ++ [a]) s1).
    rewrite <- app_assoc in IH. cbn [app] in IH.
    replace (size (pre ++ [a])) with (size pre + 1) in IH
      by (unfold size; rewrite length_app; cbn; lia).
    exact IH.
Qed.


(** The loop over the stamps, with [per_stamp] times after each. *)
Lemma las_stamp_loop (ks : list Z) (stamps : list double) :
  forall (t : double) (filled : list double) (room : nat),
  exists t',
    for_each (fun (stamp : double) (st : double * Z * list double) =>
                let '(_, submap_times_cursor, submap_times) := st in
                for_each las_point_time ks (stamp, submap_times_cursor, submap_times))
             stamps (t, size filled, filled ++ repeat 0%Q room)
    = Returned
        (t',
         size (filled ++ firstn room (List.concat (map (stamp_times (List.length ks)) stamps))),
         (filled ++ firstn room (List.concat (map (stamp_times (List.length ks)) stamps)))
         ++ repeat 0%Q
              (room - List.length (List.concat (map (stamp_times (List.length ks)) stamps)))).
Proof.
  induction stamps as [|stamp stamps IH]; intros t filled room; cbn [for_each map List.concat].
  - exists t. rewrite firstn_nil, app_nil_r. cbn [List.length]. now rewrite Nat.sub_0_r.
  - rewrite las_point_time_loop. cbn [bind].
    destruct (IH (Nat.iter (List.length ks) las_step stamp)
                 (filled ++ firstn room (stamp_times (List.length ks) stamp))
                 (room - List.length ks)%nat) as [t' Ht'].
    exists t'. rewrite Ht'. rewrite firstn_app, length_app, stamp_times_length, <- !app_assoc.
    now rewrite Nat.sub_add_distr.
Qed.

Lemma las_submap_times_eq (n : nat) (stamps : list double) (t : double) :
  exists t',
    las_submap_times (Z.of_nat n) stamps t = Returned (t', las_times (Z.of_nat n) stamps).
Proof.
  unfold las_submap_times, las_times.
  rewrite (for_each_ext _
             (fun i s => a <- vector_at ([] ++ stamps) i;;
                         (fun (stamp : double) (st : double * Z * list double) =>
                            let '(_, submap_times_cursor, submap_times) := st in
                            for_each las_point_time
                              (range 0 (Z.quot (Z.of_nat n) (size stamps) + 1))
                              (stamp, submap_times_cursor, submap_times)) a s)).
  2: { intros i [[pt c] times]. reflexivity. }
  change (range 0 (size stamps)) with (range (size (@nil double)) (size ([] ++ stamps))).
  rewrite (for_each_vector_at _ stamps []).
  destruct (las_stamp_loop (range 0 (Z.quot (Z.of_nat n) (size stamps) + 1)) stamps t []
              (Z.to_nat (Z.of_nat n))) as [t' Ht'].
  cbn [app] in Ht'. change (size (@nil double)) with 0 in Ht'.
  match goal with
  | |- context [bind ?m _] => pose proof (Ht' : m = _) as Hm; rewrite Hm
  end. cbn [bind].
  exists t'. unfold range. rewrite length_map, length_seq, Z.sub_0_r. reflexivity.
Qed.

Lemma firstn_all_le {A : Type} (n : nat) (l : list A) :
  (n <= List.length l)%nat -> List.length (firstn n l) = n.
Proof. intro H. rewrite length_firstn. lia. Qed.

Lemma length_concat_stamp_times (count : nat) (stamps : list double) :
  List.length (List.concat (map (stamp_times count) stamps)) = (List.length stamps * count)%nat.
Proof.
  induction stamps as [|s stamps IH]; cbn [map List.concat List.length]; [reflexivity|].
  rewrite length_app, stamp_times_length, IH. lia.
Qed.

(** X17: the times that the LAS export gives the [n] points of a submap.
    The loop never fails and fills a vector of exactly [n] times.  Without
    stamps every time is zero.  With stamps, each stamp in turn is followed
    by [n / stamps_count + 1] times 20 microseconds apart, accumulated one
    step at a time, and the first [n] of these times are kept in this
    order: the last stamps are not used when the earlier ones have covered
    the points. *)
Theorem las_submap_times_spec (n : nat) (stamps : list double) (t : double) :
  exists t',
    las_submap_times (Z.of_nat n) stamps t = Returned (t', las_times (Z.of_nat n) stamps)
    /\ List.length (las_times (Z.of_nat n) stamps) = n
    /\ (stamps = [] -> las_times (Z.of_nat n) stamps = repeat 0%Q n)
    /\ (stamps <> [] ->
        las_times (Z.of_nat n) stamps
        = firstn n (List.concat
                      (map (stamp_times (Z.to_nat (Z.quot (Z.of_nat n) (size stamps) + 1)))
                           stamps))).
Proof.
  destruct (las_submap_times_eq n stamps t) as [t' Ht']. exists t'. split; [exact Ht'|].
  unfold las_times. rewrite Nat2Z.id.
  set (per := Z.to_nat (Z.quot (Z.of_nat n) (size stamps) + 1)).
  assert (Hlen := length_concat_stamp_times per stamps).
  split; [|split].
  - rewrite length_app, length_firstn, repeat_length. lia.
  - intros ->. cbn [map List.concat List.length]. rewrite firstn_nil, Nat.sub_0_r. reflexivity.
  - intro Hne.
    assert (Hm : 0 < size stamps) by (destruct stamps; [contradiction|unfold size; cbn; lia]).
    assert (Hcover : (n <= List.length stamps * per)%nat).
    { subst per. rewrite Z.quot_div_nonneg by lia.
      assert (Hdiv := Z.div_mod (Z.of_nat n) (size stamps) ltac:(lia)).
      assert (Hmod := Z.mod_pos_bound (Z.of_nat n) (size stamps) Hm).
      assert (Hq : 0 <= Z.of_nat n / size stamps) by (apply Z.div_pos; lia).
      unfold size in *. nia. }
    replace (n - List.length (List.concat (map (stamp_times per) stamps)))%nat with O by lia.
    cbn [repeat]. apply app_nil_r.
Qed.





(** *** Save *)

Lemma string_of_uint_no_underscore (d : Decimal.uint) :
  no_underscore (NilEmpty.string_of_uint d).
Proof. induction d; cbn; repeat split; try assumption; discriminate. Qed.

Lemma append_underscore_inj (a a' b b' : string) :
  no_underscore a -> no_underscore a' ->
  (a ++ "_" ++ b)%string = (a' ++ "_" ++ b')%string -> a = a' /\ b = b'.
Proof.
  revert a'. induction a as [|c a IH]; intros [|c' a'] Ha Ha' H; cbn in *.
  - inversion H. split; reflexivity.
  - inversion H; subst. destruct Ha' as [Hc _]. contradiction.
  - inversion H; subst. destruct Ha as [Hc _]. contradiction.
  - inversion H; subst. destruct Ha as [_ Ha]. destruct Ha' as [_ Ha'].
    destruct (IH a' Ha Ha' H2) as [-> ->]. split; reflexivity.
Qed.

Lemma to_string_inj (i j : Z) : 0 <= i -> 0 <= j -> to_string i = to_string j -> i = j.
Proof.
  unfold to_string. intros Hi Hj H.
  assert (Hu : N.to_uint (Z.to_N i) = N.to_uint (Z.to_N j)).
  { apply (f_equal NilEmpty.uint_of_string) in H. rewrite !NilEmpty.usu in H.
    now inversion H. }
  apply (f_equal N.of_uint) in Hu. rewrite !DecimalN.Unsigned.of_to in Hu. lia.
Qed.

Lemma matching_cost_key_inj f f' key k0 k1 rest k0' k1' rest' :
  keys f = k0 :: k1 :: rest ->
  keys f' = k0' :: k1' :: rest' ->
  0 <= Symbol.index k0 -> 0 <= Symbol.index k1 ->
  0 <= Symbol.index k0' -> 0 <= Symbol.index k1' ->
  matching_cost_key f = Returned key ->
  matching_cost_key f' = Returned key ->
  Symbol.index k0 = Symbol.index k0' /\ Symbol.index k1 = Symbol.index k1'.
Proof.
  unfold matching_cost_key. intros -> -> H0 H1 H0' H1' Hk Hk'.
  inversion Hk as [Hkey]. inversion Hk' as [Hkey']. rewrite <- Hkey in Hkey'.
  apply append_underscore_inj in Hkey' as [Ha Hb];
    try apply string_of_uint_no_underscore.
  split; symmetry; now apply to_string_inj.
Qed.


Lemma map_assign_In key f (m : list (string * Factor)) k' f' :
  In (k', f') (map_assign key f m) -> (k' = key /\ f' = f) \/ In (k', f') m.
Proof.
  induction m as [|[k g] m IH]; cbn [map_assign].
  - intros [H|[]]. inversion H. now left.
  - destruct (String.eqb_spec k key) as [->|Hne].
    + intros [H|H]; [inversion H; now left|right; now right].
    + intros [H|H]; [right; now left|].
      destruct (IH H) as [Hk|Hin]; [now left|right; now right].
Qed.

Lemma map_assign_key key f (m : list (string * Factor)) : In (key, f) (map_assign key f m).
Proof.
  induction m as [|[k g] m IH]; cbn [map_assign]; [now left|].
  destruct (String.eqb_spec k key) as [->|Hne]; [now left|now right].
Qed.

Lemma map_assign_keeps key f (m : list (string * Factor)) k' :
  (exists f', In (k', f') m) -> exists f'', In (k', f'') (map_assign key f m).
Proof.
  induction m as [|[k g] m IH]; cbn [map_assign]; intros [f' Hin]; [destruct Hin|].
  destruct (String.eqb_spec k key) as [->|Hne].
  - destruct Hin as [H|H]; [inversion H; subst; exists f; now left|exists f'; now right].
  - destruct Hin as [H|H]; [inversion H; subst; exists f'; now left|].
    destruct (IH (ex_intro _ f' H)) as [f'' Hf'']. exists f''. now right.
Qed.

Lemma map_assign_keys key f (m : list (string * Factor)) :
  map fst (map_assign key f m)
  = if existsb (String.eqb key) (map fst m) then map fst m else map fst m ++ [key].
Proof.
  induction m as [|[k g] m IH]; cbn [map_assign map fst existsb app]; [reflexivity|].
  rewrite (String.eqb_sym key k). destruct (String.eqb_spec k key) as [->|Hne]; cbn [orb].
  - reflexivity.
  - cbn [map fst]. rewrite IH. now destruct (existsb (String.eqb key) (map fst m)).
Qed.

Lemma map_assign_NoDup key f (m : list (string * Factor)) :
  NoDup (map fst m) -> NoDup (map fst (map_assign key f m)).
Proof.
  intro H. rewrite map_assign_keys.
  destruct (existsb (String.eqb key) (map fst m)) eqn:He; [exact H|].
  apply NoDup_app; [exact H|repeat constructor; intros []|].
  intros k Hk [Heq|[]]. subst k.
  assert (Ht : existsb (String.eqb key) (map fst m) = true).
  { apply existsb_exists. exists key. split; [exact Hk|apply String.eqb_refl]. }
  congruence.
Qed.

(** The split of the solver's factors. *)
Lemma save_scan_loop (l : list (option Factor)) :
  forall (S0 : NonlinearFactorGraph) (M0 : list (string * Factor)) S M,
  for_each save_scan l (S0, M0) = Returned (S, M) ->
  S = S0 ++ filter serializable l
  /\ (forall k f, In (k, f) M ->
        In (k, f) M0
        \/ (In (Some f) l /\ is_matching_cost f = true /\ matching_cost_key f = Returned k))
  /\ (forall k, (exists f, In (k, f) M0) -> exists f, In (k, f) M)
  /\ (forall f, In (Some f) l -> is_matching_cost f = true ->
        exists k f', matching_cost_key f = Returned k /\ In (k, f') M)
  /\ (NoDup (map fst M0) -> NoDup (map fst M)).
Proof.
  induction l as [|factor l IH]; intros S0 M0 S M H; cbn [for_each] in H.
  - inversion H; subst. rewrite app_nil_r. split; [reflexivity|].
    split; [auto|]. split; [auto|]. split; [intros f []|auto].
  - apply bind_Returned_inv in H as [[S1 M1] [Hstep H]].
    destruct (IH _ _ _ _ H) as [HS [Hfrom [Hkeep [Hall Hnd]]]].
    unfold save_scan in Hstep. cbn [filter]. fold (serializable factor) in Hstep.
    destruct (serializable factor) eqn:Hser.
    + inversion Hstep; subst S1 M1. split; [rewrite HS, <- app_assoc; reflexivity|].
      split; [|split; [exact Hkeep|split; [|exact Hnd]]].
      * intros k f Hin. destruct (Hfrom k f Hin) as [Hm|[Hl Hr]]; [now left|].
        right. split; [now right|exact Hr].
      * intros f [Hf|Hf] Hm; [|now apply Hall].
        subst factor. cbn in Hser. rewrite Hm in Hser. discriminate.
    + destruct factor as [f0|]; [|discriminate].
      apply bind_Returned_inv in Hstep as [key [Hkey Hstep]]. inversion Hstep; subst S1 M1.
      assert (Hm0 : is_matching_cost f0 = true).
      { cbn in Hser. now destruct (is_matching_cost f0). }
      split; [exact HS|]. split; [|split; [|split]].
      * intros k f Hin. destruct (Hfrom k f Hin) as [Hm|[Hl Hr]].
        -- apply map_assign_In in Hm as [[-> ->]|Hm]; [|now left].
           right. split; [now left|]. split; assumption.
        -- right. split; [now right|exact Hr].
      * intros k Hk. apply Hkeep. now apply map_assign_keeps.
      * intros f [Hf|Hf] Hm; [|now apply Hall].
        inversion Hf; subst f0. destruct (Hkeep key) as [f' Hf'].
        { exists f. apply map_assign_key. }
        exists key, f'. split; assumption.
      * intro H0. apply Hnd. now apply map_assign_NoDup.
Qed.

Lemma graph_txt_lines (entries : list (string * Factor)) : forall acc lines,
  for_each graph_txt_line entries acc = Returned lines ->
  exists new,
    lines = acc ++ new
    /\ Forall2 (fun (entry : string * Factor) (line : string * Z * Z) =>
                  exists k0 k1 rest,
                    keys (snd entry) = k0 :: k1 :: rest
                    /\ line = (factor_type (snd entry), Symbol.index k0, Symbol.index k1))
               entries new.
Proof.
  induction entries as [|entry entries IH]; intros acc lines H; cbn [for_each] in H.
  - inversion H. exists []. rewrite app_nil_r. split; [reflexivity|constructor].
  - apply bind_Returned_inv in H as [acc1 [Hstep H]]. unfold graph_txt_line in Hstep.
    destruct (keys (snd entry)) as [|k0 [|k1 rest]] eqn:Hk; try discriminate.
    inversion Hstep; subst acc1.
    destruct (IH _ _ H) as [new [-> Hall]].
    eexists. split; [rewrite <- app_assoc; reflexivity|].
    constructor; [|exact Hall]. exists k0, k1, rest. split; [exact Hk|reflexivity].
Qed.

Lemma factor_type_matching f :
  is_matching_cost f = true ->
  factor_type f = "gicp"%string \/ factor_type f = "vgicp"%string
  \/ factor_type f = "vgicp_gpu"%string.
Proof.
  destruct f; cbn; try discriminate; auto. intros ->. auto.
Qed.


Lemma Forall2_In_left {A C : Type} (R : A -> C -> Prop) (l : list A) (l' : list C) (a : A) :
  Forall2 R l l' -> In a l -> exists b, In b l' /\ R a b.
Proof.
  induction 1 as [|x y l l' Hxy _ IH]; intros Hin; [destruct Hin|].
  destruct Hin as [<-|Hin]; [exists y; split; [now left|exact Hxy]|].
  destruct (IH Hin) as [b [Hb HR]]. exists b. split; [now right|exact HR].
Qed.

Lemma Forall2_In_right {A C : Type} (R : A -> C -> Prop) (l : list A) (l' : list C) (b : C) :
  Forall2 R l l' -> In b l' -> exists a, In a l /\ R a b.
Proof.
  induction 1 as [|x y l l' Hxy _ IH]; intros Hin; [destruct Hin|].
  destruct Hin as [<-|Hin]; [exists x; split; [now left|exact Hxy]|].
  destruct (IH Hin) as [a [Ha HR]]. exists a. split; [now right|exact HR].
Qed.

Lemma matching_cost_key_keys f key :
  matching_cost_key f = Returned key ->
  exists k0 k1 rest,
    keys f = k0 :: k1 :: rest
    /\ key = (to_string (Symbol.index k0) ++ "_" ++ to_string (Symbol.index k1))%string.
Proof.
  unfold matching_cost_key. destruct (keys f) as [|k0 [|k1 rest]]; try discriminate.
  intro H. inversion H. eauto.
Qed.

(** One line per entry of the map: the pairs of the lines are distinct. *)
Lemma graph_txt_lines_NoDup (entries : list (string * Factor)) (lines : list (string * Z * Z)) :
  Forall2 (fun (entry : string * Factor) (line : string * Z * Z) =>
             exists k0 k1 rest,
               keys (snd entry) = k0 :: k1 :: rest
               /\ line = (factor_type (snd entry), Symbol.index k0, Symbol.index k1))
          entries lines ->
  (forall entry, In entry entries -> matching_cost_key (snd entry) = Returned (fst entry)) ->
  NoDup (map fst entries) ->
  NoDup (map line_pair lines).
Proof.
  induction 1 as [|entry line entries lines Hline Hall IH]; intros Hkey Hnd; cbn [map].
  - constructor.
  - inversion Hnd as [|? ? Hnotin Hnd']; subst. constructor.
    + intro Hin. apply in_map_iff in Hin as [line' [Hpair Hin]].
      destruct (Forall2_In_right _ _ _ _ Hall Hin) as [entry' [He' [k0' [k1' [rest' [Hk' ->]]]]]].
      destruct Hline as [k0 [k1 [rest [Hk ->]]]].
      unfold line_pair in Hpair. cbn [fst snd] in Hpair. inversion Hpair as [[H0 H1]].
      apply Hnotin. apply in_map_iff. exists entry'. split; [|exact He'].
      assert (Hkey1 := Hkey entry (or_introl eq_refl)).
      assert (Hkey2 := Hkey entry' (or_intror He')).
      unfold matching_cost_key in Hkey1, Hkey2. rewrite Hk in Hkey1. rewrite Hk' in Hkey2.
      injection Hkey1 as E1. injection Hkey2 as E2. now rewrite <- E1, <- E2, H0, H1.
    + apply IH; [|exact Hnd']. intros e He. apply Hkey. now right.
Qed.

(** The serialised graph and the lines of [graph.txt], from the solver's
    factors. *)
Lemma save_graph_lines
    (iteration_order : list (string * Factor) -> list (string * Factor))
    (factors S : NonlinearFactorGraph) (M : list (string * Factor))
    (lines : list (string * Z * Z)) :
  (forall m, Permutation (iteration_order m) m) ->
  for_each save_scan factors ([], []) = Returned (S, M) ->
  for_each graph_txt_line (iteration_order M) [] = Returned lines ->
  S = filter serializable factors
  /\ (forall type first second,
        In (type, first, second) lines ->
        exists f k0 k1 rest,
          In (Some f) factors
          /\ is_matching_cost f = true
          /\ keys f = k0 :: k1 :: rest
          /\ type = factor_type f
          /\ (type = "gicp"%string \/ type = "vgicp"%string \/ type = "vgicp_gpu"%string)
          /\ first = Symbol.index k0
          /\ second = Symbol.index k1)
  /\ NoDup (map line_pair lines)
  /\ (unsigned_keys factors ->
      forall f k0 k1 rest,
        In (Some f) factors ->
        is_matching_cost f = true ->
        keys f = k0 :: k1 :: rest ->
        exists f', In (Some f') factors
                   /\ is_matching_cost f' = true
                   /\ In (factor_type f', Symbol.index k0, Symbol.index k1) lines).
Proof.
  intros Hperm Hscan Hlines.
  destruct (save_scan_loop _ _ _ _ _ Hscan) as [HS [Hfrom [_ [Hall Hnd]]]].
  destruct (graph_txt_lines _ _ _ Hlines) as [new [Hnew Hrows]]. cbn [app] in Hnew. subst new.
  assert (Hentry : forall k f, In (k, f) (iteration_order M) ->
            In (Some f) factors
            /\ is_matching_cost f = true /\ matching_cost_key f = Returned k).
  { intros k f Hin. apply (Permutation_in _ (Hperm M)) in Hin.
    destruct (Hfrom k f Hin) as [[]|Hr]. exact Hr. }
  split; [exact HS|]. split; [|split].
  - intros type first second Hin.
    destruct (Forall2_In_right _ _ _ _ Hrows Hin) as [[k f] [He [k0 [k1 [rest [Hk Hline]]]]]].
    cbn [snd] in Hk, Hline. inversion Hline; subst.
    destruct (Hentry k f He) as [Hf [Hm _]].
    exists f, k0, k1, rest. repeat split; try assumption. now apply factor_type_matching.
  - apply (graph_txt_lines_NoDup (iteration_order M)); [exact Hrows| |].
    + intros [k f] Hin. cbn [fst snd]. now apply Hentry.
    + apply (Permutation_NoDup (l := map fst M)).
      * apply Permutation_map. apply Permutation_sym. apply Hperm.
      * apply Hnd. constructor.
  - intros Hu f k0 k1 rest Hf Hm Hk.
    destruct (Hall f Hf Hm) as [key [f' [Hkey Hin]]].
    apply (Permutation_in _ (Permutation_sym (Hperm M))) in Hin.
    destruct (Hentry key f' Hin) as [Hf' [Hm' Hkey']].
    destruct (matching_cost_key_keys _ _ Hkey') as [k0' [k1' [rest' [Hk' _]]]].
    destruct (matching_cost_key_inj f f' key k0 k1 rest k0' k1' rest' Hk Hk') as [H0 H1];
      try assumption.
    1-2: apply (Hu f); [exact Hf|rewrite Hk; cbn; auto].
    1-2: apply (Hu f'); [exact Hf'|rewrite Hk'; cbn; auto].
    destruct (Forall2_In_left _ _ _ _ Hrows Hin) as [line [Hline [k0'' [k1'' [rest'' [Hk'' ->]]]]]].
    cbn [snd] in Hk''. rewrite Hk' in Hk''. inversion Hk''; subst.
    exists f'. split; [exact Hf'|]. split; [exact Hm'|]. rewrite H0, H1. exact Hline.
Qed.

(** X19: what [save] writes of the graph.  The serialised graph is the
    solver's factors without the matching-cost factors, in the solver's
    order, null slots included; the serialised values are the solver's
    estimate; [graph.txt] has one [matching_cost] line per pair of indices
    for which the solver holds a matching-cost factor, however many factors
    the pair has: every line comes from such a factor and carries one of
    the types gicp, vgicp and vgicp_gpu, no two lines have the same pair,
    and no pair is left out. *)
Theorem save_graph_spec
    (iteration_order : list (string * Factor) -> list (string * Factor)) fuel gm saved gm' :
  (forall m, Permutation (iteration_order m) m) ->
  save_graph iteration_order fuel gm = Returned (saved, gm') ->
  optimize fuel gm = Returned gm'
  /\ saved_graph_bin saved = filter serializable (getFactorsUnsafe (isam2 gm'))
  /\ saved_values_bin saved = calculateEstimate (isam2 gm')
  /\ num_submaps (saved_graph_txt saved) = size (submaps gm')
  /\ (forall type first second,
        In (type, first, second) (matching_cost_factors (saved_graph_txt saved)) ->
        exists f k0 k1 rest,
          In (Some f) (getFactorsUnsafe (isam2 gm'))
          /\ is_matching_cost f = true
          /\ keys f = k0 :: k1 :: rest
          /\ type = factor_type f
          /\ (type = "gicp"%string \/ type = "vgicp"%string \/ type = "vgicp_gpu"%string)
          /\ first = Symbol.index k0
          /\ second = Symbol.index k1)
  /\ NoDup (map line_pair (matching_cost_factors (saved_graph_txt saved)))
  /\ (unsigned_keys (getFactorsUnsafe (isam2 gm')) ->
      forall f k0 k1 rest,
        In (Some f) (getFactorsUnsafe (isam2 gm')) ->
        is_matching_cost f = true ->
        keys f = k0 :: k1 :: rest ->
        exists type,
          In (type, Symbol.index k0, Symbol.index k1)
             (matching_cost_factors (saved_graph_txt saved))).
Proof.
  intros Hperm H. unfold save_graph in H.
  apply bind_Returned_inv in H as [gm1 [Hopt H]].
  apply bind_Returned_inv in H as [[S M] [Hscan H]].
  apply bind_Returned_inv in H as [lines [Hlines H]].
  inversion H; subst saved gm'; clear H. cbn [saved_graph_bin saved_values_bin saved_graph_txt
    num_submaps matching_cost_factors].
  destruct (save_graph_lines _ _ _ _ _ Hperm Hscan Hlines) as [HS [Hsound [Hnd Hcomplete]]].
  split; [exact Hopt|]. split; [exact HS|]. split; [reflexivity|]. split; [reflexivity|].
  split; [exact Hsound|]. split; [exact Hnd|].
  intros Hu f k0 k1 rest Hf Hm Hk.
  destruct (Hcomplete Hu f k0 k1 rest Hf Hm Hk) as [f' [_ [_ Hin]]]. eauto.
Qed.





(** *** Graph repair *)

Lemma values_exists_In vs k : values_exists vs k = true <-> In k (values_keys vs).
Proof.
  rewrite In_values_keys. unfold values_exists, kind_at.
  destruct (lookup vs k); cbn; split; congruence.
Qed.

Lemma values_exists_not_In vs k : values_exists vs k = false <-> ~ In k (values_keys vs).
Proof.
  rewrite <- values_exists_In. destruct (values_exists vs k); split; congruence.
Qed.

Lemma values_keys_app vs1 vs2 : values_keys (vs1 ++ vs2) = values_keys vs1 ++ values_keys vs2.
Proof. apply map_app. Qed.

Lemma insert_if_inv guard k v vals vals' :
  insert_if guard k v vals = Returned vals' ->
  (guard = false /\ vals' = vals)
  \/ (guard = true /\ values_exists vals k = false /\ vals' = vals ++ [(k, v)]).
Proof.
  unfold insert_if. destruct guard; intro H.
  - apply values_insert_inv in H as [-> Hf]. right. auto.
  - inversion H. left. auto.
Qed.

Lemma insert_if_fresh values k v vals vals' :
  fresh_patch values vals ->
  insert_if (negb (values_exists values k)) k v vals = Returned vals' ->
  fresh_patch values vals'.
Proof.
  intros [Hnd Hfresh] H. apply insert_if_inv in H as [[_ ->]|[Hg [Hv ->]]]; [split; assumption|].
  apply negb_true_iff in Hg. split.
  - rewrite values_keys_app. apply NoDup_app; [exact Hnd|repeat constructor; intros []|].
    intros k' Hk' [<-|[]]. now apply values_exists_not_In in Hv.
  - intros k' Hk'. rewrite values_keys_app in Hk'. apply in_app_or in Hk' as [Hk'|[<-|[]]];
      [now apply Hfresh|exact Hg].
Qed.

Lemma recover_body_fresh graph values imu gm i st st' :
  fresh_patch values (snd st) ->
  recover_body graph values imu gm i st = Returned st' ->
  fresh_patch values (snd st').
Proof.
  destruct st as [factors vals]. unfold recover_body. cbn [snd]. intros HP H.
  repeat match goal with
         | HQ : fresh_patch values ?v, H : bind (insert_if _ _ _ ?v) _ = Returned _ |- _ =>
             let v' := fresh "vals" in
             let Hv := fresh "Hv" in
             apply bind_Returned_inv in H as [v' [Hv H]];
             apply (insert_if_fresh _ _ _ _ _ HQ) in Hv; clear HQ
         | H : bind ?m _ = Returned _ |- _ =>
             lazymatch m with insert_if _ _ _ _ => fail | _ => idtac end;
             let a := fresh "a" in
             let Ha := fresh "Ha" in
             apply bind_Returned_inv in H as [a [Ha H]]
         | H : (let '(_, _) := (_, _) in _) = Returned _ |- _ => cbv beta iota in H
         | H : (let '(_, _) := ?p in _) = Returned _ |- _ => destruct p
         | H : (if ?b then _ else _) = Returned _ |- _ => destruct b
         | H : Returned _ = Returned _ |- _ => inversion H; subst; clear H
         end; cbn [snd]; assumption.
Qed.

Lemma insert_or_assign1_fresh k v (vs : Values) :
  ~ In k (values_keys vs) -> insert_or_assign1 k v vs = vs ++ [(k, v)].
Proof.
  induction vs as [|[k' v'] vs IH]; cbn [insert_or_assign1 values_keys map fst In app];
    intro H; [reflexivity|].
  destruct (Symbol_eqb_spec k' k) as [->|Hne]; [exfalso; apply H; now left|].
  rewrite IH; [reflexivity|]. intro Hin. apply H. now right.
Qed.

Lemma insert_or_assign_fresh (extra : Values) : forall vs : Values,
  NoDup (values_keys extra) ->
  (forall k, In k (values_keys extra) -> ~ In k (values_keys vs)) ->
  insert_or_assign extra vs = vs ++ extra.
Proof.
  unfold insert_or_assign.
  induction extra as [|[k v] extra IH]; intros vs Hnd Hfresh; cbn [fold_left fst snd].
  - now rewrite app_nil_r.
  - cbn [values_keys map fst] in Hnd. inversion Hnd as [|? ? Hk Hnd']; subst.
    rewrite insert_or_assign1_fresh by (apply Hfresh; now left).
    rewrite IH; [rewrite <- app_assoc; reflexivity|exact Hnd'|].
    intros k' Hk' Hin. rewrite values_keys_app in Hin. apply in_app_or in Hin as [Hin|[<-|[]]].
    + apply (Hfresh k'); [now right|exact Hin].
    + contradiction.
Qed.

Lemma recover_loop_fresh graph values imu gm l factors vals :
  for_each (recover_body graph values imu gm) l ([], []) = Returned (factors, vals) ->
  fresh_patch values vals.
Proof.
  intro Hloop.
  assert (Hnil : fresh_patch values []) by (split; [constructor|intros k []]).
  exact (for_each_invariant (fun st => fresh_patch values (snd st)) _
           (fun i st st' HP Hb => recover_body_fresh _ _ _ _ i st st' HP Hb) _
           ([], []) (factors, vals) Hnil Hloop).
Qed.

Lemma insert_or_assign_fresh_patch values vals :
  fresh_patch values vals -> insert_or_assign vals values = values ++ vals.
Proof.
  intros [Hnd Hfresh]. apply insert_or_assign_fresh; [exact Hnd|].
  intros k Hk. apply values_exists_not_In. now apply Hfresh.
Qed.

(** X21: the values that [recover_graph] returns never touch a value that
    is already there: their keys are distinct and none of them is held by
    the values under repair, so that merging the patch with
    [insert_or_assign], as [load] does, only appends and never assigns. *)
Theorem recover_graph_values_fresh graph values gm factors vals gm1 :
  recover_graph graph values gm = Returned (factors, vals, gm1) ->
  NoDup (values_keys vals)
  /\ (forall k, In k (values_keys vals) -> values_exists values k = false)
  /\ insert_or_assign vals values = values ++ vals.
Proof.
  unfold recover_graph. intro H.
  apply bind_Returned_inv in H as [[pf pv] [Hloop H]]. inversion H; subst; clear H.
  pose proof (recover_loop_fresh _ _ _ _ _ _ _ Hloop) as HP.
  split; [apply HP|]. split; [apply HP|]. now apply insert_or_assign_fresh_patch.
Qed.

(** X22: [recover_graph()] repairs the solver silently: when it returns,
    the submaps still have the poses they had, no callback has fired, and
    the only other change to the back end is the damping factor on [X(0)]
    that goes to the pending graph when the solver's graph has no anchor. *)
Theorem recover_graph_now_frame fuel gm gm' :
  recover_graph_now fuel gm = Returned gm' ->
  submaps gm' = submaps gm
  /\ subsampled_submaps gm' = subsampled_submaps gm
  /\ callbacks gm' = callbacks gm
  /\ params gm' = params gm
  /\ new_values gm' = new_values gm
  /\ new_factors gm'
     = if prior_exists (getFactorsUnsafe (isam2 gm)) then new_factors gm
       else new_factors gm ++ [Some (LinearDampingFactor (X 0) 6
                                       (init_pose_damping_scale (params gm)))].
Proof.
  unfold recover_graph_now. intro H.
  apply bind_Returned_inv in H as [[[pf pv] gm1] [Hrec H]].
  apply bind_Returned_inv in H as [[result gm2] [Hupd H]]. inversion H; subst gm2; clear H.
  apply update_isam2_frame in Hupd as [s ->].
  unfold recover_graph in Hrec. apply bind_Returned_inv in Hrec as [[pf' pv'] [_ Hrec]].
  inversion Hrec; subst; clear Hrec.
  destruct (prior_exists (getFactorsUnsafe (isam2 gm))); cbn; repeat split.
Qed.

Lemma values_exists_app vs1 vs2 k :
  values_exists (vs1 ++ vs2) k = values_exists vs1 k || values_exists vs2 k.
Proof. unfold values_exists. rewrite lookup_app. destruct (lookup vs1 k); reflexivity. Qed.

Lemma count_connectivity_In (g : NonlinearFactorGraph) f a b :
  In (Some f) g ->
  existsb (Symbol.eqb a) (keys f) = true ->
  existsb (Symbol.eqb b) (keys f) = true ->
  count (connectivity_map g a) b = true.
Proof.
  intros Hin Ha Hb. unfold count. apply existsb_exists in Hb as [x [Hx Hbx]].
  apply existsb_exists. exists x. split; [|exact Hbx].
  unfold connectivity_map. apply in_flat_map. exists (Some f). split; [exact Hin|].
  rewrite Ha. exact Hx.
Qed.

Lemma count_connectivity_app g1 g2 a b :
  count (connectivity_map (g1 ++ g2) a) b
  = count (connectivity_map g1 a) b || count (connectivity_map g2 a) b.
Proof. unfold count, connectivity_map. rewrite flat_map_app, existsb_app. reflexivity. Qed.

(** A value that the repair has looked for is held by the repaired values. *)
Lemma insert_if_covered values (pv : Values) k v vals vals' :
  insert_if (negb (values_exists values k)) k v vals = Returned vals' ->
  incl vals' pv ->
  values_exists (values ++ pv) k = true /\ incl vals pv.
Proof.
  intros H Hi. rewrite values_exists_app. apply insert_if_inv in H as [[Hg ->]|[_ [_ ->]]].
  - apply negb_false_iff in Hg. rewrite Hg. auto.
  - split; [|intros x Hx; apply Hi, in_or_app; now left].
    apply orb_true_iff. right. apply values_exists_In.
    change k with (fst (k, v)). apply in_map. apply Hi, in_or_app. right. now left.
Qed.

(** A link that the repair has looked for is held by the repaired graph. *)
Lemma emplace_if_covered graph (pf : NonlinearFactorGraph) a b f factors :
  incl (emplace_if (negb (count (connectivity_map graph a) b)) f factors) pf ->
  existsb (Symbol.eqb a) (keys f) = true ->
  existsb (Symbol.eqb b) (keys f) = true ->
  count (connectivity_map (graph ++ pf) a) b = true /\ incl factors pf.
Proof.
  intros Hi Ha Hb. rewrite count_connectivity_app. unfold emplace_if, emplace_shared in Hi.
  destruct (count (connectivity_map graph a) b); cbn [negb] in Hi; [auto|].
  split; [|intros x Hx; apply Hi, in_or_app; now left].
  cbn [orb]. apply (count_connectivity_In _ f); [|exact Ha|exact Hb].
  apply Hi, in_or_app. right. now left.
Qed.

Ltac key_member :=
  cbn [existsb keys]; rewrite ?Symbol_eqb_refl, ?orb_true_r; reflexivity.

Ltac peel_patch :=
  repeat match goal with
         | Hi : incl (emplace_if _ _ _) _ |- _ =>
             let Hc := fresh "Hc" in
             apply emplace_if_covered in Hi as [Hc Hi]; [|key_member..]
         | Hi : incl ?v' _, Hv : insert_if _ _ _ _ = Returned ?v' |- _ =>
             let Hc := fresh "Hc" in
             apply (insert_if_covered _ _ _ _ _ _ Hv) in Hi as [Hc Hi]; clear Hv
         end.

Ltac run_again :=
  repeat first [ progress cbn [bind negb andb insert_if emplace_if]
               | progress cbv zeta
               | match goal with H : _ = true |- _ => rewrite H end
               | match goal with H : _ = false |- _ => rewrite H end
               | match goal with H : _ = Returned _ |- _ => rewrite H end
               | rewrite andb_false_r ].

(** Once the patch of a repair is applied, the body of the repair loop
    finds nothing to add for a submap it has handled. *)
Lemma recover_body_again graph values imu gm gm' (pf : NonlinearFactorGraph) (pv : Values)
    i factors vals factors' vals' :
  submaps gm' = submaps gm ->
  recover_body graph values imu gm i (factors, vals) = Returned (factors', vals') ->
  incl factors' pf -> incl vals' pv ->
  (incl factors pf /\ incl vals pv)
  /\ forall st, recover_body (graph ++ pf) (values ++ pv) imu gm' i st = Returned st.
Proof.
  intros Hs H Hpf Hpv. unfold recover_body in H.
  apply bind_Returned_inv in H as [submap [Hsub H]].
  apply bind_Returned_inv in H as [vals0 [Hv0 H]].
  apply bind_Returned_inv in H as [factors0 [Hf0 H]].
  assert (HX : incl factors0 pf ->
               (count (connectivity_map (graph ++ pf) (X i)) (X (i + 1)) = true
                \/ (i =? size (submaps gm) - 1) = true)
               /\ incl factors pf).
  { intro Hi. rewrite count_connectivity_app.
    destruct (count (connectivity_map graph (X i)) (X (i + 1))); cbn [negb andb] in Hf0;
      [inversion Hf0; subst; auto|].
    destruct (i =? size (submaps gm) - 1); cbn [negb] in Hf0; [inversion Hf0; subst; auto|].
    apply bind_Returned_inv in Hf0 as [fi [_ Hf0]].
    apply bind_Returned_inv in Hf0 as [next [_ Hf0]].
    apply bind_Returned_inv in Hf0 as [fj [_ Hf0]].
    inversion Hf0; subst factors0; clear Hf0. unfold emplace_shared in Hi.
    split; [|intros x Hx; apply Hi, in_or_app; now left].
    left. cbn [orb].
    eapply count_connectivity_In; [apply Hi, in_or_app; right; now left|key_member..]. }
  destruct imu; cbn [negb] in H.
  - apply bind_Returned_inv in H as [fL [HfL H]].
    apply bind_Returned_inv in H as [fR [HfR H]]. cbv zeta in H.
    apply bind_Returned_inv in H as [[factors1 vals1] [Hmid H]]. cbv beta iota in H.
    apply bind_Returned_inv in H as [vals2 [Hv2 H]].
    apply bind_Returned_inv in H as [vals3 [Hv3 H]].
    apply bind_Returned_inv in H as [vals4 [Hv4 H]].
    injection H as <- <-. peel_patch.
    destruct (i =? 0) eqn:Hi0; cbn [negb] in Hmid.
    + injection Hmid as <- <-. peel_patch. apply HX in Hpf as [Hlink Hpf].
      split; [split; assumption|]. intros [f v]. unfold recover_body.
      rewrite Hs. destruct Hlink as [Hlink|Hlink]; run_again; reflexivity.
    + apply bind_Returned_inv in Hmid as [vals5 [Hv5 Hmid]].
      apply bind_Returned_inv in Hmid as [vals6 [Hv6 Hmid]].
      apply bind_Returned_inv in Hmid as [vals7 [Hv7 Hmid]].
      injection Hmid as <- <-. peel_patch. apply HX in Hpf as [Hlink Hpf].
      split; [split; assumption|]. intros [f v]. unfold recover_body.
      rewrite Hs. destruct Hlink as [Hlink|Hlink]; run_again; reflexivity.
  - injection H as <- <-. peel_patch. apply HX in Hpf as [Hlink Hpf].
    split; [split; assumption|]. intros [f v]. unfold recover_body.
    rewrite Hs. destruct Hlink as [Hlink|Hlink]; run_again; reflexivity.
Qed.

Lemma recover_loop_again graph values imu gm gm' (pf : NonlinearFactorGraph) (pv : Values) :
  submaps gm' = submaps gm ->
  forall l st0 stF,
    for_each (recover_body graph values imu gm) l st0 = Returned stF ->
    incl (fst stF) pf -> incl (snd stF) pv ->
    (incl (fst st0) pf /\ incl (snd st0) pv)
    /\ forall st, for_each (recover_body (graph ++ pf) (values ++ pv) imu gm') l st
                  = Returned st.
Proof.
  intros Hs l. induction l as [|i l IH]; intros st0 stF H Hpf Hpv; cbn [for_each] in *.
  - inversion H; subst. auto.
  - apply bind_Returned_inv in H as [[factors1 vals1] [Hbody H]].
    destruct (IH _ _ H Hpf Hpv) as [[Hf1 Hv1] Hrest]. cbn [fst snd] in Hf1, Hv1.
    destruct st0 as [factors0 vals0].
    destruct (recover_body_again _ _ _ _ _ _ _ _ _ _ _ _ Hs Hbody Hf1 Hv1) as [Hincl Hagain].
    split; [exact Hincl|]. intro st. rewrite Hagain. cbn [bind]. apply Hrest.
Qed.

Lemma imu_free_emplace_if imu b f g vals :
  is_ImuFactor f = false -> imu_free imu (g, vals) -> imu_free imu (emplace_if b f g, vals).
Proof.
  unfold imu_free, graph_enable_imu, emplace_if, emplace_shared. cbn [fst snd].
  intros Hf H. destruct b; [|exact H]. rewrite existsb_app. cbn [existsb]. rewrite Hf.
  apply orb_false_iff in H as [H1 H2]. rewrite H1, H2. reflexivity.
Qed.

Lemma imu_free_insert_if imu guard k v g vals vals' :
  (imu = false -> chr_is "e" k || chr_is "v" k || chr_is "b" k = false) ->
  insert_if guard k v vals = Returned vals' ->
  imu_free imu (g, vals) -> imu_free imu (g, vals').
Proof.
  intros Hk Hv H. apply insert_if_inv in Hv as [[_ ->]|[_ [_ ->]]]; [exact H|].
  unfold imu_free, graph_enable_imu in *. cbn [fst snd] in *. destruct imu; [exact H|].
  rewrite existsb_app. cbn [existsb fst]. rewrite (Hk eq_refl).
  apply orb_false_iff in H as [H1 H2]. rewrite H1, H2. reflexivity.
Qed.

Lemma recover_body_imu_free graph values imu gm i st st' :
  imu_free imu st ->
  recover_body graph values imu gm i st = Returned st' ->
  imu_free imu st'.
Proof.
  destruct st as [factors vals]. intros HP H. unfold recover_body in H.
  apply bind_Returned_inv in H as [submap [_ H]].
  apply bind_Returned_inv in H as [vals0 [Hv0 H]].
  apply (imu_free_insert_if imu _ _ _ factors) in Hv0; [|reflexivity|exact HP].
  apply bind_Returned_inv in H as [factors0 [Hf0 H]].
  assert (HP0 : imu_free imu (factors0, vals0)).
  { destruct (_ && _) in Hf0; [|inversion Hf0; subst; exact Hv0].
    apply bind_Returned_inv in Hf0 as [fi [_ Hf0]].
    apply bind_Returned_inv in Hf0 as [next [_ Hf0]].
    apply bind_Returned_inv in Hf0 as [fj [_ Hf0]].
    inversion Hf0; subst factors0.
    apply (imu_free_emplace_if imu true); [reflexivity|exact Hv0]. }
  clear HP Hv0 Hf0. destruct imu; cbn [negb] in H; [|inversion H; subst; exact HP0].
  apply bind_Returned_inv in H as [fL [_ H]].
  apply bind_Returned_inv in H as [fR [_ H]]. cbv zeta in H.
  apply bind_Returned_inv in H as [[factors1 vals1] [Hmid H]]. cbv beta iota in H.
  assert (HP1 : imu_free true (factors1, vals1)).
  { destruct (negb (i =? 0)); [|injection Hmid as <- <-; exact HP0].
    apply bind_Returned_inv in Hmid as [vals5 [_ Hmid]].
    apply bind_Returned_inv in Hmid as [vals6 [_ Hmid]].
    apply bind_Returned_inv in Hmid as [vals7 [_ Hmid]].
    injection Hmid as <- <-. repeat (apply imu_free_emplace_if; [reflexivity|]).
    exact HP0. }
  apply bind_Returned_inv in H as [vals2 [_ H]].
  apply bind_Returned_inv in H as [vals3 [_ H]].
  apply bind_Returned_inv in H as [vals4 [_ H]].
  injection H as <-. repeat (apply imu_free_emplace_if; [reflexivity|]).
  exact HP1.
Qed.

Lemma graph_enable_imu_patched graph values (pf : NonlinearFactorGraph) (pv : Values) :
  imu_free (graph_enable_imu graph values) (pf, pv) ->
  graph_enable_imu (graph ++ pf) (values ++ pv) = graph_enable_imu graph values.
Proof.
  unfold imu_free. cbn [fst snd].
  destruct (graph_enable_imu graph values) eqn:Himu; unfold graph_enable_imu in *;
    rewrite !existsb_app; intro H.
  - apply orb_true_iff in Himu as [-> | ->]; cbn [orb]; rewrite ?orb_true_r; reflexivity.
  - apply orb_false_iff in Himu as [-> ->]. exact H.
Qed.

Lemma no_damping_prior_exists g : no_damping g -> prior_exists g = false.
Proof.
  unfold no_damping, prior_exists. induction g as [|[f|] g IH]; cbn [forallb existsb];
    intro H; [reflexivity| |now apply IH].
  apply andb_true_iff in H as [Hf Hg]. rewrite (IH Hg), orb_false_r.
  destruct f; cbn in Hf |- *; rewrite ?andb_false_r; try reflexivity; discriminate.
Qed.

(** X23: once its patch is applied the way [load] applies it (the factors
    added to the graph, the values merged with [insert_or_assign]), a second
    [recover_graph] finds nothing to add: it returns no factor and no value.
    Only the anchor on [X(0)], which the first run put in the pending graph
    and not in the patch, is still missing from the graph and goes to the
    pending graph a second time. *)
Theorem recover_graph_idempotent graph values gm pf pv gm1 :
  recover_graph graph values gm = Returned (pf, pv, gm1) ->
  recover_graph (graph_add pf graph) (insert_or_assign pv values) gm1
  = Returned ([], [],
              if prior_exists graph then gm1
              else set_new_factors
                     (emplace_shared
                        (LinearDampingFactor (X 0) 6 (init_pose_damping_scale (params gm1)))
                        (new_factors gm1)) gm1).
Proof.
  intro H. pose proof (recover_graph_patch _ _ _ _ _ _ H) as [Hnd _].
  unfold recover_graph in H.
  apply bind_Returned_inv in H as [[pf' pv'] [Hloop H]]. injection H as -> -> Hgm.
  rewrite Hgm in Hloop. clear Hgm.
  pose proof (recover_loop_fresh _ _ _ _ _ _ _ Hloop) as Hfresh.
  assert (Hfree : imu_free (graph_enable_imu graph values) (pf, pv)).
  { refine (for_each_invariant (imu_free (graph_enable_imu graph values)) _
              (fun i st st' => recover_body_imu_free _ _ _ _ i st st') _
              ([], []) (pf, pv) _ Hloop).
    unfold imu_free. now destruct (graph_enable_imu graph values). }
  unfold recover_graph, graph_add.
  rewrite (insert_or_assign_fresh_patch _ _ Hfresh), (graph_enable_imu_patched _ _ _ _ Hfree).
  assert (Hprior : prior_exists (graph ++ pf) = prior_exists graph).
  { unfold prior_exists at 1. rewrite existsb_app. fold (prior_exists graph).
    fold (prior_exists pf). rewrite (no_damping_prior_exists _ Hnd). apply orb_false_r. }
  rewrite Hprior.
  set (gm2 := if negb (prior_exists graph) then _ else gm1).
  assert (Hs : submaps gm2 = submaps gm1) by (subst gm2; now destruct (prior_exists graph)).
  destruct (recover_loop_again graph values (graph_enable_imu graph values) gm1 gm2 pf pv Hs
              _ _ _ Hloop (incl_refl _) (incl_refl _)) as [_ Hagain].
  rewrite Hs, Hagain. cbn [bind]. subst gm2. now destruct (prior_exists graph).
Qed.

End FurtherProperties.

(** ** The further properties on concrete back ends *)

Ltac evaluate :=
  vm_compute; repeat match goal with |- _ /\ _ => split end;
  first [reflexivity | discriminate].

(** The storing solver honours the contract of [appends_factors]. *)
Lemma storing_appends_factors cuda overlap :
  appends_factors (ext := reference_collaborators cuda overlap store_update).
Proof.
  constructor; cbn.
  - reflexivity.
  - intros s g v s' r H. inversion H. reflexivity.
Qed.

Lemma sample_calls_have_frames : Forall has_frames (inserted_submaps sample_calls).
Proof. repeat constructor; discriminate. Qed.

Lemma sample_run_returns :
  for_each (run_call (ext := storing) 1) sample_calls
    (GlobalMapping_new (ext := storing) default_params 0%N [])
  = Returned sample_run.
Proof. vm_compute. reflexivity. Qed.

(** Witness of X2: two reloaded submaps and a solver without estimate. *)
Lemma update_submaps_throws_witness :
  at_Pose3 (calculateEstimate (Collaborators := storing) (isam2 reloaded_submaps)) (X 0)
    = Thrown (ValuesKeyDoesNotExist (X 0))
  /\ update_submaps (ext := storing) reloaded_submaps = Thrown (ValuesKeyDoesNotExist (X 0)).
Proof.
  split; [reflexivity|].
  apply (update_submaps_throws (ext := storing) reloaded_submaps 0).
  - evaluate.
  - intros j Hj. lia.
  - reflexivity.
Defined.

(** Witness of X3: the second of two voxelised submaps 2 m apart gets one
    piece, the two VGICP factors against the first submap, and no
    safety-net factor. *)
Lemma create_matching_cost_factors_pairs_witness :
  exists g pieces tail,
    create_matching_cost_factors (ext := storing) 1 second_voxelized = Returned g
    /\ g = List.concat pieces ++ tail
    /\ List.length pieces = 1%nat
    /\ g = one_per_voxelmap false 0 1
             (unwrap (sample_submap 0 0%Q 0%Q 1%Q) (at_index (submaps second_voxelized) 0))
             sample_cloud.
Proof.
  destruct (create_matching_cost_factors (ext := storing) 1 second_voxelized) as [g| | | |]
    eqn:Hrun; try (exfalso; vm_compute in Hrun; discriminate).
  destruct (create_matching_cost_factors_pairs (ext := storing) 1 second_voxelized g Hrun)
    as (pieces & tail & Hg & HF & _).
  exists g, pieces, tail. split; [reflexivity|]. split; [exact Hg|]. split.
  - apply Forall2_length in HF. etransitivity; [symmetry; exact HF|reflexivity].
  - vm_compute in Hrun. injection Hrun as <-. vm_compute. reflexivity.
Defined.

(** Witness of X4: the first insertion on a fresh back end. *)
Lemma insert_submap_callbacks_witness :
  exists gm' sm factors values result,
    insert_submap (ext := storing) 1 (sample_submap 0 0%Q 0%Q 1%Q)
      (fresh_backend default_params) = Returned gm'
    /\ callbacks gm'
       = [on_insert_submap sm; on_smoother_update factors values;
          on_smoother_update_result result; on_update_submaps (submaps gm')].
Proof.
  destruct (insert_submap (ext := storing) 1 (sample_submap 0 0%Q 0%Q 1%Q)
              (fresh_backend default_params)) as [gm'| | | |] eqn:Hrun;
    try (exfalso; vm_compute in Hrun; discriminate).
  destruct (insert_submap_callbacks (ext := storing) 1 _ _ gm' Hrun)
    as (sm & factors & values & result & Hcb & _).
  exists gm', sm, factors, values, result. split; [reflexivity|exact Hcb].
Defined.

(** Witness of X5: the first insertion anchors [X(0)]. *)
Lemma insert_submap_damping_only_first_witness :
  exists sm gm1 rest,
    insert_submap_assemble (ext := storing) (sample_submap 0 0%Q 0%Q 1%Q)
      (fresh_backend default_params) = Returned (sm, gm1)
    /\ new_factors gm1
       = Some (LinearDampingFactor (X 0) 6 (init_pose_damping_scale default_params)) :: rest
    /\ no_damping rest.
Proof.
  destruct (insert_submap_assemble (ext := storing) (sample_submap 0 0%Q 0%Q 1%Q)
              (fresh_backend default_params)) as [[sm gm1]| | | |] eqn:Hrun;
    try (exfalso; vm_compute in Hrun; discriminate).
  destruct (insert_submap_damping_only_first (ext := storing) _ _ sm gm1 Hrun)
    as (added & Hadded & Hfirst & _).
  destruct (Hfirst eq_refl) as (rest & Hrest & Hnd & _).
  exists sm, gm1, rest. split; [reflexivity|]. split; [|exact Hnd].
  rewrite Hadded, Hrest. reflexivity.
Defined.

(** Witness of X6: with the factor type GICP the second submap, 2 m from
    the first and overlapping it by one half, gets no factor at all. *)
Lemma create_matching_cost_factors_unknown_type_witness :
  registration_device (ext := storing) unknown_type_backend = None
  /\ create_matching_cost_factors (ext := storing) 1 unknown_type_backend = Returned [].
Proof.
  split; [reflexivity|].
  eapply (proj2 (create_matching_cost_factors_unknown_type (ext := storing) 1
                   unknown_type_backend eq_refl));
    first [reflexivity | lia | evaluate | repeat constructor; discriminate].
Defined.

(** Witness of X7: in the sparse back end the scan records [(0, 1)] and
    [(1, 2)]; the three pairs give three pieces, and the two VGICP factors
    of the pair [(0, 2)] are all there is.  A factor between [X(2^32)] and
    [X(2^32 + 1)] is recorded as [(0, 1)]: with it the two submaps of
    [wrapped_backend] get no factor, without it they get their two VGICP
    factors. *)
Lemma new_overlap_factors_pairs_witness :
  (exists new pieces,
     for_each scan_existing
       (getFactorsUnsafe (Collaborators := storing) (isam2 sparse_backend)) []
     = Returned [(0, 1); (1, 2)]
     /\ new_overlap_factors (ext := storing) (1 # 10) sparse_backend = Returned new
     /\ new = List.concat pieces
     /\ List.length pieces = 3%nat
     /\ new = one_per_voxelmap false 0 2
                (unwrap (sample_submap 0 0%Q 0%Q 1%Q) (at_index (submaps sparse_backend) 0))
                sample_cloud)
  /\ for_each scan_existing
       (getFactorsUnsafe (Collaborators := storing) (isam2 wrapped_backend)) []
     = Returned [(0, 1)]
  /\ new_overlap_factors (ext := storing) (1 # 10) wrapped_backend = Returned []
  /\ new_overlap_factors (ext := storing) (1 # 10) second_voxelized
     = Returned (one_per_voxelmap false 0 1
                   (unwrap (sample_submap 0 0%Q 0%Q 1%Q)
                      (at_index (submaps second_voxelized) 0))
                   sample_cloud).
Proof.
  split; [|split; [vm_compute; reflexivity|split; vm_compute; reflexivity]].
  assert (Hscan : for_each scan_existing
                    (getFactorsUnsafe (Collaborators := storing) (isam2 sparse_backend)) []
                  = Returned [(0, 1); (1, 2)]) by (vm_compute; reflexivity).
  eassert (Hrun : new_overlap_factors (ext := storing) (1 # 10) sparse_backend = Returned _)
    by (vm_compute; reflexivity).
  destruct (new_overlap_factors_pairs (ext := storing) (1 # 10) sparse_backend _ _ Hscan Hrun)
    as (_ & pieces & Hnew & HF).
  eexists. exists pieces. split; [exact Hscan|]. split; [exact Hrun|]. split; [exact Hnew|].
  split.
  - apply Forall2_length in HF. etransitivity; [symmetry; exact HF|vm_compute; reflexivity].
  - vm_compute. reflexivity.
Defined.

(** Witness of X8: one submap and a null slot in the solver's graph. *)
Lemma find_overlapping_submaps_null_factor_witness :
  In None (getFactorsUnsafe (Collaborators := storing) (isam2 null_slot_backend))
  /\ find_overlapping_submaps (ext := storing) 1 (1 # 10) null_slot_backend = Undefined.
Proof.
  split; [now left|].
  apply (find_overlapping_submaps_null_factor (ext := storing) 1 (1 # 10) null_slot_backend);
    [discriminate|now left].
Defined.

(** Witness of X9: the sample run returns and leaves two submaps. *)
Lemma facade_run_returns_witness :
  exists gm,
    for_each (run_call (ext := storing) 1) sample_calls
      (GlobalMapping_new (ext := storing) default_params 0%N []) = Returned gm
    /\ consistent (ext := storing) gm
    /\ size (submaps gm) = 2.
Proof.
  destruct (facade_run_returns (ext := storing) 1 default_params 0%N [] sample_calls
              (storing_stores_values _ _) (storing_appends_factors _ _) eq_refl
              sample_calls_have_frames) as (gm & Hrun & Hok & Hsize & _).
  exists gm. split; [exact Hrun|]. split; [exact Hok|exact Hsize].
Defined.

(** Witness of X10: the solver of the sample run holds the one anchor. *)
Lemma facade_run_single_anchor_witness :
  damping_factors (getFactorsUnsafe (Collaborators := storing) (isam2 sample_run))
  = [Some (LinearDampingFactor (X 0) 6 (init_pose_damping_scale default_params))].
Proof.
  apply (facade_run_single_anchor (ext := storing) 1 default_params 0%N [] sample_calls
           sample_run (storing_stores_values _ _) (storing_appends_factors _ _) eq_refl
           sample_calls_have_frames); [discriminate|exact sample_run_returns].
Defined.

(** Witness of X11: the two submaps of the sample run are linked. *)
Lemma facade_run_chained_witness :
  exists f,
    In (Some f) (getFactorsUnsafe (Collaborators := storing) (isam2 sample_run))
    /\ keys f = [X 0; X 1].
Proof.
  apply (facade_run_chained (ext := storing) 1 default_params 0%N [] sample_calls
           sample_run (storing_stores_values _ _) (storing_appends_factors _ _) eq_refl
           sample_calls_have_frames); [right; discriminate|exact sample_run_returns|lia|].
  evaluate.
Defined.

(** Witness of X14: a vgicp line and a gicp line on the reloaded submaps
    give two pieces; the two VGICP factors of the vgicp line are all there
    is. *)
Lemma load_matching_cost_factors_witness :
  exists graph' pieces,
    for_each (load_matching_cost (ext := storing) reloaded_submaps)
      [("vgicp"%string, 0, 1); ("gicp"%string, 0, 1)] [] = Returned graph'
    /\ graph' = List.concat pieces
    /\ List.length pieces = 2%nat
    /\ graph' = one_per_voxelmap false 0 1
                  (unwrap (sample_submap 0 0%Q 0%Q 1%Q) (at_index (submaps reloaded_submaps) 0))
                  sample_cloud.
Proof.
  eassert (Hrun : for_each (load_matching_cost (ext := storing) reloaded_submaps)
                    [("vgicp"%string, 0, 1); ("gicp"%string, 0, 1)] [] = Returned _)
    by (vm_compute; reflexivity).
  destruct (load_matching_cost_factors (ext := storing) _ _ _ _ Hrun) as (pieces & Hg & HF).
  eexists. exists pieces. split; [exact Hrun|]. split; [exact Hg|]. split.
  - apply Forall2_length in HF. etransitivity; [symmetry; exact HF|reflexivity].
  - vm_compute. reflexivity.
Defined.

(** Witness of X15: the default configuration does not subsample. *)
Lemma insert_submap_at_full_cloud_witness :
  (99 # 100 < randomsampling_rate default_params)%Q
  /\ mt (snd (insert_submap_at (ext := storing) 0 (sample_submap 0 0%Q 0%Q 1%Q)
                (fresh_backend default_params)))
     = mt (fresh_backend default_params).
Proof.
  split; [reflexivity|].
  apply (insert_submap_at_full_cloud (ext := storing) 0 (sample_submap 0 0%Q 0%Q 1%Q)
           (fresh_backend default_params)). reflexivity.
Defined.



Lemma saved_backend_returns :
  save_graph (ext := storing) (fun m => m) 1 two_submaps_backend
  = Returned (fst saved_backend, snd saved_backend).
Proof. vm_compute. reflexivity. Qed.

(** Witness of X19: the graph of [two_submaps_backend] saved; no two lines
    of [graph.txt] have the same pair. *)
Lemma save_graph_spec_witness :
  save_graph (ext := storing) (fun m => m) 1 two_submaps_backend
  = Returned (fst saved_backend, snd saved_backend)
  /\ saved_graph_bin (fst saved_backend)
     = filter (serializable (ext := storing))
         (getFactorsUnsafe (Collaborators := storing) (isam2 (snd saved_backend)))
  /\ NoDup (map line_pair (matching_cost_factors (saved_graph_txt (fst saved_backend)))).
Proof.
  split; [exact saved_backend_returns|].
  destruct (save_graph_spec (ext := storing) (fun m => m) 1 two_submaps_backend
              (fst saved_backend) (snd saved_backend) (fun m => Permutation_refl m)
              saved_backend_returns) as (_ & Hbin & _ & _ & _ & Hnd & _).
  split; [exact Hbin|exact Hnd].
Defined.





(** Witness of X21: two reloaded submaps and no value at all: the patch
    holds [X(0)] and [X(1)]. *)
Lemma recover_graph_values_fresh_witness :
  exists factors vals gm1,
    recover_graph [] [] reloaded_submaps = Returned (factors, vals, gm1)
    /\ NoDup (values_keys vals)
    /\ insert_or_assign vals [] = vals.
Proof.
  destruct (recover_graph [] [] reloaded_submaps) as [[[factors vals] gm1]| | | |] eqn:Hrun;
    try (exfalso; vm_compute in Hrun; discriminate).
  destruct (recover_graph_values_fresh _ _ _ factors vals gm1 Hrun) as (Hnd & _ & Hmerge).
  exists factors, vals, gm1. split; [reflexivity|]. split; [exact Hnd|exact Hmerge].
Defined.

(** Witness of X22: the repair of a back end that needs none. *)
Lemma recover_graph_now_frame_witness :
  exists gm',
    recover_graph_now (ext := storing) 1 one_submap_backend = Returned gm'
    /\ submaps gm' = submaps one_submap_backend
    /\ callbacks gm' = callbacks one_submap_backend.
Proof.
  destruct (recover_graph_now (ext := storing) 1 one_submap_backend) as [gm'| | | |] eqn:Hrun;
    try (exfalso; vm_compute in Hrun; discriminate).
  destruct (recover_graph_now_frame (ext := storing) 1 one_submap_backend gm' Hrun)
    as (Hs & _ & Hc & _).
  exists gm'. split; [reflexivity|]. split; [exact Hs|exact Hc].
Defined.

(** Witness of X23: the repair of two reloaded submaps without values, run
    twice. *)
Lemma recover_graph_idempotent_witness :
  exists pf pv gm1 gm2,
    recover_graph [] [] reloaded_submaps = Returned (pf, pv, gm1)
    /\ recover_graph (graph_add pf []) (insert_or_assign pv []) gm1 = Returned ([], [], gm2).
Proof.
  destruct (recover_graph [] [] reloaded_submaps) as [[[pf pv] gm1]| | | |] eqn:Hrun;
    try (exfalso; vm_compute in Hrun; discriminate).
  exists pf, pv, gm1. eexists. split; [reflexivity|].
  apply (recover_graph_idempotent _ _ _ pf pv gm1 Hrun).
Defined.
